(** * DeciMaLExample: the SysML text parsers and the three diagram renderers

    A shallow embedding of [SysML2Mermaid.py], [SysML2dot.py] and
    [SysML2UML.py].  Text is a [string] of 7-bit characters; the character
    classes below are the ones Python evaluates on code points under 128.
    Dictionaries created by the parsers live in a store and are referred to
    by address, because the parsers update them through the scope stack
    after they have been linked into their parent. *)

From Stdlib Require Import Ascii String List Arith Lia Bool.
From stdpp Require Import base list strings pretty.

Local Open Scope nat_scope.
#[local] Set Warnings "-register-all".

(** ** Characters and Python string methods *)

Definition code (c : ascii) : nat := nat_of_ascii c.

Definition between (lo hi n : nat) : bool := (lo <=? n) && (n <=? hi).

(** [str.isspace] on one character, which is also the regex class [\s]:
    TAB..CR, FS..US and the space. *)
Definition is_space (c : ascii) : bool :=
  between 9 13 (code c) || between 28 32 (code c).

(** The regex class [\d]. *)
Definition is_digit (c : ascii) : bool := between 48 57 (code c).

(** The letters [A-Za-z]. *)
Definition is_alpha (c : ascii) : bool :=
  between 65 90 (code c) || between 97 122 (code c).

(** The regex class [\w]: letters, digits and the underscore. *)
Definition is_word (c : ascii) : bool :=
  is_alpha c || is_digit c || (code c =? 95).

Definition dq : ascii := "034"%char.
Definition nl : ascii := "010"%char.
Definition dqs : string := String dq EmptyString.
Definition nls : string := String nl EmptyString.

Definition is_dq (c : ascii) : bool := code c =? 34.

(** The characters [str.splitlines] breaks a line at: LF, VT, FF, CR, FS,
    GS and RS. *)
Definition is_linebreak (c : ascii) : bool :=
  between 10 13 (code c) || between 28 30 (code c).

Fixpoint lstrip_with (p : ascii -> bool) (s : string) : string :=
  match s with
  | String c s' => if p c then lstrip_with p s' else s
  | EmptyString => EmptyString
  end.

Fixpoint rstrip_with (p : ascii -> bool) (s : string) : string :=
  match s with
  | String c s' =>
      match rstrip_with p s' with
      | EmptyString => if p c then EmptyString else String c EmptyString
      | r => String c r
      end
  | EmptyString => EmptyString
  end.

Definition strip_with (p : ascii -> bool) (s : string) : string :=
  rstrip_with p (lstrip_with p s).

(** [s.lstrip()], [s.rstrip()], [s.strip()], and [s.strip] of the double
    quote character. *)
Definition lstrip : string -> string := lstrip_with is_space.
Definition rstrip : string -> string := rstrip_with is_space.
Definition strip : string -> string := strip_with is_space.
Definition strip_dq : string -> string := strip_with is_dq.

(** [not line.strip()]. *)
Definition is_blank (line : string) : bool :=
  match strip line with EmptyString => true | _ => false end.

(** [len(line) - len(line.lstrip())]. *)
Definition indent_of (line : string) : nat :=
  String.length line - String.length (lstrip line).

(** [s.startswith(p)]. *)
Definition startswith (s p : string) : bool := String.prefix p s.

Fixpoint endswith_char (s : string) (c : ascii) : bool :=
  match s with
  | EmptyString => false
  | String x EmptyString => Ascii.eqb x c
  | String _ s' => endswith_char s' c
  end.

(** [s.replace(" ", "_")]. *)
Fixpoint replace_space (s : string) : string :=
  match s with
  | EmptyString => EmptyString
  | String c s' =>
      String (if Ascii.eqb c " " then "_"%char else c) (replace_space s')
  end.

(** [sep.join(l)]. *)
Definition str_join (sep : string) (l : list string) : string := String.concat sep l.

(** [s * n]. *)
Fixpoint times (s : string) (n : nat) : string :=
  match n with
  | 0 => EmptyString
  | S n' => s +:+ times s n'
  end.

(** [text.splitlines()]: a line ends at a line break, CR LF counting as one;
    the text after the last break is a line only when it is not empty. *)
Fixpoint splitlines (s : string) : list string :=
  match s with
  | EmptyString => []
  | String c s' =>
      if is_linebreak c then
        EmptyString ::
          match s' with
          | String c' s'' =>
              if (code c =? 13) && (code c' =? 10)
              then splitlines s'' else splitlines s'
          | EmptyString => []
          end
      else
        match splitlines s' with
        | [] => [String c EmptyString]
        | l :: ls => String c l :: ls
        end
  end.

(** ** Regular expressions

    The fragment of [re] the four patterns are written in, matched the way
    [re] does it: leftmost alternative first, greedy quantifiers that give
    characters back one at a time, and capturing groups that record the
    text of the attempt that succeeded. *)

Inductive regex : Type :=
| Lit (c : ascii)                 (* one literal character *)
| Str (w : string)                (* a literal word *)
| Cls (p : ascii -> bool)         (* one character of a class *)
| Star (p : ascii -> bool)        (* class*, greedy *)
| Plus (p : ascii -> bool)        (* class+, greedy *)
| Opt (r : regex)                 (* r?, greedy *)
| Seq (r1 r2 : regex)             (* r1 r2 *)
| Grp (n : nat) (r : regex).      (* capturing group number n *)

Infix "+>" := Seq (at level 60, right associativity).

(** The groups that took part in the match, most recent first. *)
Definition captures : Type := list (nat * string).

Fixpoint group (caps : captures) (n : nat) : option string :=
  match caps with
  | [] => None
  | (m, s) :: caps' => if m =? n then Some s else group caps' n
  end.

Fixpoint drop_prefix (w s : string) : option string :=
  match w, s with
  | EmptyString, _ => Some s
  | String a w', String b s' => if Ascii.eqb a b then drop_prefix w' s' else None
  | String _ _, EmptyString => None
  end.

(** What was consumed between the input [s] and its suffix [s']. *)
Definition consumed (s s' : string) : string :=
  String.substring 0 (String.length s - String.length s') s.

Fixpoint star_match {B : Type} (p : ascii -> bool) (s : string)
    (k : string -> option B) : option B :=
  match s with
  | String c s' =>
      if p c then
        match star_match p s' k with
        | Some r => Some r
        | None => k s
        end
      else k s
  | EmptyString => k s
  end.

Fixpoint rmatch (r : regex) (s : string) (caps : captures)
    (k : string -> captures -> option captures) : option captures :=
  match r with
  | Lit c =>
      match s with
      | String x s' => if Ascii.eqb x c then k s' caps else None
      | EmptyString => None
      end
  | Str w =>
      match drop_prefix w s with
      | Some s' => k s' caps
      | None => None
      end
  | Cls p =>
      match s with
      | String x s' => if p x then k s' caps else None
      | EmptyString => None
      end
  | Star p => star_match p s (fun s' => k s' caps)
  | Plus p =>
      match s with
      | String x s' => if p x then star_match p s' (fun s'' => k s'' caps) else None
      | EmptyString => None
      end
  | Opt r' =>
      match rmatch r' s caps k with
      | Some res => Some res
      | None => k s caps
      end
  | Seq r1 r2 => rmatch r1 s caps (fun s' caps' => rmatch r2 s' caps' k)
  | Grp n r' => rmatch r' s caps (fun s' caps' => k s' ((n, consumed s s') :: caps'))
  end.

(** [pattern.match(line)]: anchored at the start, free at the end. *)
Definition re_match (r : regex) (line : string) : option captures :=
  rmatch r line [] (fun _ caps => Some caps).

(** The class [[A-Za-z0-9\s]] of package and actor names. *)
Definition is_name_char (c : ascii) : bool := is_alpha c || is_digit c || is_space c.

(** The class [[\w\d_\[\]]] of part names. *)
Definition is_part_char (c : ascii) : bool :=
  is_word c || is_digit c || (code c =? 95) || (code c =? 91) || (code c =? 93).

(** The class [[\w\d_]] of type names. *)
Definition is_type_char (c : ascii) : bool := is_word c || is_digit c || (code c =? 95).

(** The class of every character but the double quote. *)
Definition not_dq (c : ascii) : bool := negb (is_dq c).

(** The tail [\s*(?:as\s+(\w+))?] shared by three patterns. *)
Definition as_alias : regex :=
  Star is_space +> Opt (Str "as" +> Plus is_space +> Grp 2 (Plus is_word)).

(** [^\s*package\s+(Q?[A-Za-z0-9\s]+Q?)\s*(?:as\s+(\w+))?], where Q stands
    for the double quote character. *)
Definition package_pattern : regex :=
  Star is_space +> Str "package" +> Plus is_space +>
  Grp 1 (Opt (Lit dq) +> Plus is_name_char +> Opt (Lit dq)) +> as_alias.

(** [^\s*part\s+([\w\d_\[\]]+)\s*(?:as\s+(\w+))?\s*:\s*([\w\d_]+)] *)
Definition part_pattern : regex :=
  Star is_space +> Str "part" +> Plus is_space +>
  Grp 1 (Plus is_part_char) +> as_alias +>
  Star is_space +> Lit ":" +> Star is_space +> Grp 3 (Plus is_type_char).

(** [^\s*actor\s+(Q?[A-Za-z0-9\s]+Q?)\s*(?:as\s+(\w+))?] *)
Definition actor_pattern : regex :=
  Star is_space +> Str "actor" +> Plus is_space +>
  Grp 1 (Opt (Lit dq) +> Plus is_name_char +> Opt (Lit dq)) +> as_alias.

(** [^\s*description\s*=\s*Q(...)Q], the group being any run of characters
    other than Q. *)
Definition description_pattern : regex :=
  Star is_space +> Str "description" +> Star is_space +> Lit "=" +>
  Star is_space +> Lit dq +> Grp 1 (Star not_dq) +> Lit dq.

(** [f'"{s}"'] *)
Definition quoted (s : string) : string := dqs +:+ s +:+ dqs.

Definition str_eqb (a b : string) : bool := String.eqb a b.

(** [x in ["LogicalComponent", "LogicalActor"]] and the like. *)
Definition str_in (x : string) (l : list string) : bool := existsb (str_eqb x) l.

(** [x if x else None] on a group that may not have taken part. *)
Definition truthy (o : option string) : option string :=
  match o with
  | Some EmptyString => None
  | _ => o
  end.

(** ** The store of dictionaries

    A node is a Python [dict] with the keys [type], [name], [alias],
    [description] and [parts]; a key that is not set is [None] here, and the
    dummy root has its [name] set to Python's [None].  [parts] lists the
    addresses of the children. *)

Record Dict : Type := mkDict {
  d_type : option string;
  d_name : option string;
  d_alias : option string;
  d_description : option string;
  d_parts : option (list nat)
}.

(** [{"name": None, "parts": []}] *)
Definition root_dict : Dict := mkDict None None None None (Some []).

(** [d.setdefault("parts", []).append(child)] *)
Definition append_part (child : nat) (d : Dict) : Dict :=
  mkDict (d_type d) (d_name d) (d_alias d) (d_description d)
         (Some (default [] (d_parts d) ++ [child])).

(** [d["description"] = desc] *)
Definition set_description (desc : string) (d : Dict) : Dict :=
  mkDict (d_type d) (d_name d) (d_alias d) (Some desc) (d_parts d).

(** The parser's variables: the store, the scope stack (its head is
    [stack[-1]], its last entry the sentinel), [prev_indent], and what has
    been printed so far, one entry per call of [print]. *)
Record PState : Type := mkPState {
  heap : list Dict;
  stack : list (nat * nat);
  prev_indent : nat;
  stdout : list string
}.

Definition init : PState := mkPState [root_dict] [(0, 0)] 0 [].

(** A new dictionary is linked into the one on top of the stack; the
    address it gets is the size of the store.  [push] tells whether the
    pair [(indent, node)] is appended to the stack.  An empty stack makes
    [stack[-1]] raise, which is [None]. *)
Definition attach (node : Dict) (push : option nat) (stk : list (nat * nat))
    (st : PState) (prev : nat) : option PState :=
  match stk with
  | [] => None
  | (_, parent) :: _ =>
      let a := length (heap st) in
      Some (mkPState
              (alter (append_part a) parent (heap st ++ [node]))
              (match push with Some i => (i, a) :: stk | None => stk end)
              prev
              (stdout st))
  end.

(** [stack[-1][1]["description"] = desc] *)
Definition describe (desc : string) (stk : list (nat * nat)) (st : PState)
    (prev : nat) : option PState :=
  match stk with
  | [] => None
  | (_, top) :: _ =>
      Some (mkPState (alter (set_description desc) top (heap st)) stk prev (stdout st))
  end.

(** [print("Warning: Unhandled line:", line)] *)
Definition warning (line : string) : string := "Warning: Unhandled line: " +:+ line.

Definition warn (line : string) (stk : list (nat * nat)) (st : PState)
    (prev : nat) : option PState :=
  Some (mkPState (heap st) stk prev (stdout st ++ [warning line])).

(** ** The tree the renderers read

    Every dictionary below the root carries a [type] and a [name]; the root
    is the only one without. *)

Inductive Node : Type :=
  mkNode (ntype : string) (name : string) (alias : option string)
         (description : option string) (parts : option (list Node)).

Definition ntype (n : Node) : string := let (t, _, _, _, _) := n in t.
Definition name (n : Node) : string := let (_, x, _, _, _) := n in x.
Definition alias (n : Node) : option string := let (_, _, a, _, _) := n in a.
Definition description (n : Node) : option string := let (_, _, _, d, _) := n in d.
Definition parts (n : Node) : option (list Node) := let (_, _, _, _, p) := n in p.

(** [node.get("parts", [])] *)
Definition get_parts (n : Node) : list Node := default [] (parts n).

Record Tree : Type := mkTree {
  root_description : option string;
  root_parts : option (list Node)
}.

(** [tree.get("parts", [])] *)
Definition top_level (t : Tree) : list Node := default [] (root_parts t).

(** Reading the tree under an address off the store.  The addresses of
    children are larger than their parent's, so a fuel of the size of the
    store is enough (see [reify_total] below). *)
Fixpoint reify_node (fuel : nat) (h : list Dict) (a : nat) : option Node :=
  match fuel with
  | 0 => None
  | S fuel' =>
      d ← h !! a;
      t ← d_type d;
      n ← d_name d;
      ps ← match d_parts d with
           | None => Some None
           | Some cs => Some <$> mapM (reify_node fuel' h) cs
           end;
      Some (mkNode t n (d_alias d) (d_description d) ps)
  end.

Definition reify (h : list Dict) : option Tree :=
  d ← h !! 0;
  ps ← match d_parts d with
       | None => Some None
       | Some cs => Some <$> mapM (reify_node (length h) h) cs
       end;
  Some (mkTree (d_description d) ps).

(** [while len(stack) > 1 and stack[-1][0] >= indent: stack.pop()] *)
Fixpoint pop_scopes (indent : nat) (stk : list (nat * nat)) : list (nat * nat) :=
  match stk with
  | (i, _) :: (_ :: _) as rest => if indent <=? i then pop_scopes indent rest else stk
  | _ => stk
  end.

(** ** SysML2Mermaid.py

    *** The parser *)

Module SysML2Mermaid.

(** The body of [for line in lines].  A string method called on a group
    that did not take part raises; the bind on [group m n] is that. *)
Definition step (st : PState) (line : string) : option PState :=
  if is_blank line then Some st
  else
    let indent := indent_of line in
    let stk :=
      if indent <=? prev_indent st then pop_scopes indent (stack st) else stack st in
    match re_match package_pattern line with
    | Some m =>
        g ← group m 1;
        let name := strip (strip_dq g) in
        let alias := truthy (truthy (group m 2)) in
        attach (mkDict (Some "Package") (Some name) alias None (Some []))
               (Some indent) stk st indent
    | None =>
    match re_match part_pattern line with
    | Some m =>
        g ← group m 1;
        let name := strip g in
        let alias := truthy (truthy (group m 2)) in
        t ← group m 3;
        let part_type := strip t in
        attach (mkDict (Some part_type) (Some name) alias None
                       (if bool_decide (part_type ∈ ["LogicalComponent"; "LogicalFunction"; "LogicalActor"])
                        then Some [] else None))
               (Some indent) stk st indent
    | None =>
    match re_match actor_pattern line with
    | Some m =>
        g ← group m 1;
        let name := strip (strip_dq g) in
        let alias := truthy (truthy (group m 2)) in
        attach (mkDict (Some "LogicalActor") (Some name) alias None None)
               (Some indent) stk st indent
    | None =>
    match re_match description_pattern line with
    | Some m =>
        g ← group m 1;
        describe (strip g) stk st indent
    | None => warn line stk st indent
    end end end end.

Fixpoint run (st : PState) (lines : list string) : option PState :=
  match lines with
  | [] => Some st
  | line :: rest => st' ← step st line; run st' rest
  end.

Definition exec (text : string) : option PState := run init (splitlines text).

(** What the function returns: the root, read off the store. *)
Definition parse_indented_model (text : string) : option Tree :=
  st ← exec text; reify (heap st).

(** What the function has printed when it returns. *)
Definition printed (text : string) : option (list string) :=
  stdout <$> exec text.

(** *** The flowchart renderer *)

(** One [<tr>] line of the two label helpers of SysML2Mermaid.py. *)
Definition tr (width height : nat) (text : string) : string :=
  "  <tr><td fixedsize=" +:+ quoted "true" +:+ " width=" +:+ quoted (pretty width)
  +:+ " height=" +:+ quoted (pretty height) +:+ " align=" +:+ quoted "center" +:+ ">"
  +:+ text +:+ "</td></tr>".

Definition table_open : string :=
  "<table border=" +:+ quoted "1" +:+ " cellspacing=" +:+ quoted "0"
  +:+ " cellpadding=" +:+ quoted "2" +:+ ">".

Definition html_label_two_compartment (top_text bottom_text : string)
    (width top_height bottom_height : nat) : string :=
  table_open +:+ nls +:+ tr width top_height top_text +:+ nls
  +:+ tr width bottom_height bottom_text +:+ nls +:+ "</table>".

Definition html_label_bottom_only (text : string)
    (width top_height bottom_height : nat) : string :=
  table_open +:+ nls +:+ tr width top_height "" +:+ nls
  +:+ tr width bottom_height text +:+ nls +:+ "</table>".

(** [process_node]: what one call appends to [lines], in order. *)
Fixpoint process_node (node : Node) (level : nat) : list string :=
  match node with
  | mkNode typ name _ description parts =>
      let spacing := times "    " level in
      let node_id := replace_space name in
      let children :=
        match parts with
        | Some cs => flat_map (fun child => process_node child (level + 1)) cs
        | None => []
        end in
      (if str_eqb typ "Package" then
         [spacing +:+ "subgraph " +:+ node_id +:+ "[" +:+ name +:+ "]"]
         ++ children ++ [spacing +:+ "end"]
       else if str_eqb typ "LogicalFunction" then
         let label :=
           html_label_two_compartment name (default "" description) 120 15 30 in
         [spacing +:+ node_id +:+ "[" +:+ label +:+ "]"]
       else if str_in typ ["LogicalComponent"; "LogicalActor"] then
         let label := html_label_bottom_only name 150 10 40 in
         [spacing +:+ node_id +:+ "[" +:+ label +:+ "]"]
       else
         [spacing +:+ node_id +:+ "[" +:+ name +:+ "]"])
      ++ children
  end.

Definition flowchart_lines (tree : Tree) : list string :=
  ["flowchart TD"] ++ flat_map (fun child => process_node child 1) (top_level tree).

Definition build_mermaid_flowchart_from_tree (tree : Tree) : string :=
  str_join nls (flowchart_lines tree).

End SysML2Mermaid.

(** ** SysML2dot.py

    *** The parser *)

Module SysML2dot.

Definition step (st : PState) (line : string) : option PState :=
  if is_blank line then Some st
  else
    let indent := indent_of line in
    let stk :=
      if indent <=? prev_indent st then pop_scopes indent (stack st) else stack st in
    match re_match package_pattern line with
    | Some m =>
        g ← group m 1;
        let name := strip (strip_dq g) in
        let alias := truthy (truthy (group m 2)) in
        attach (mkDict (Some "Package") (Some name) alias None (Some []))
               (Some indent) stk st indent
    | None =>
    match re_match part_pattern line with
    | Some m =>
        g ← group m 1;
        let name := strip g in
        let alias := truthy (truthy (group m 2)) in
        t ← group m 3;
        let part_type := strip t in
        attach (mkDict (Some part_type) (Some name) alias None
                       (if bool_decide (part_type ∈ ["LogicalComponent"; "LogicalFunction"; "LogicalActor"])
                        then Some [] else None))
               (Some indent) stk st indent
    | None =>
    match re_match actor_pattern line with
    | Some m =>
        g ← group m 1;
        let name := strip (strip_dq g) in
        let alias := truthy (truthy (group m 2)) in
        attach (mkDict (Some "LogicalActor") (Some name) alias None None)
               (Some indent) stk st indent
    | None =>
    match re_match description_pattern line with
    | Some m =>
        g ← group m 1;
        describe (strip g) stk st indent
    | None => warn line stk st indent
    end end end end.

Fixpoint run (st : PState) (lines : list string) : option PState :=
  match lines with
  | [] => Some st
  | line :: rest => st' ← step st line; run st' rest
  end.

Definition exec (text : string) : option PState := run init (splitlines text).

Definition parse_indented_model (text : string) : option Tree :=
  st ← exec text; reify (heap st).

Definition printed (text : string) : option (list string) :=
  stdout <$> exec text.

(** *** The cluster-graph renderer *)

(** One [<TR>] line of the two label helpers of SysML2dot.py. *)
Definition TR (width height : nat) (text : string) : string :=
  "  <TR><TD FIXEDSIZE=" +:+ quoted "true" +:+ " WIDTH=" +:+ quoted (pretty width)
  +:+ " HEIGHT=" +:+ quoted (pretty height) +:+ " ALIGN=" +:+ quoted "CENTER" +:+ ">"
  +:+ text +:+ "</TD></TR>".

Definition TABLE_open : string :=
  "<<TABLE BORDER=" +:+ quoted "0" +:+ " CELLBORDER=" +:+ quoted "1"
  +:+ " CELLSPACING=" +:+ quoted "0" +:+ " CELLPADDING=" +:+ quoted "2" +:+ ">".

Definition html_label_two_compartment (top_text bottom_text : string)
    (width top_height bottom_height : nat) : string :=
  TABLE_open +:+ nls +:+ TR width top_height top_text +:+ nls
  +:+ TR width bottom_height bottom_text +:+ nls +:+ "</TABLE>>".

Definition html_label_bottom_only (text : string)
    (width top_height bottom_height : nat) : string :=
  TABLE_open +:+ nls +:+ TR width top_height "" +:+ nls
  +:+ TR width bottom_height text +:+ nls +:+ "</TABLE>>".

(** [next_id]: the counter is a local of [build_dot_from_tree]; it is
    passed along here. *)
Definition next_id (node_counter : nat) : string * nat :=
  let node_counter := node_counter + 1 in
  ("id" +:+ pretty node_counter, node_counter).

(** [generate_dot(node, indent)] at a value of the counter: the
    representative node, the lines, and the counter afterwards. *)
Fixpoint generate_dot (node : Node) (indent : nat) (node_counter : nat)
    : string * list string * nat :=
  match node with
  | mkNode typ name _ description parts =>
      let spacing := times " " indent in
      let '(id1, c1) := next_id node_counter in
      let cluster_id := "cluster_" +:+ id1 in
      let '(rep_node, c2) := next_id c1 in
      let nest :=
        fix nest (children : list Node) (c : nat) : list string * nat :=
          match children with
          | [] => ([], c)
          | child :: rest =>
              let '(_, child_lines, c') := generate_dot child (indent + 4) c in
              let '(more, c'') := nest rest c' in
              (child_lines ++ more, c'')
          end in
      let leaf_component :=
        let label := html_label_bottom_only name 150 10 40 in
        [spacing +:+ "    " +:+ rep_node
           +:+ " [shape=none, style=filled, fillcolor=lightblue, label=" +:+ label +:+ "];"] in
      let '(inner, c3) :=
        if str_eqb typ "LogicalFunction" then
          let label :=
            html_label_two_compartment name (default "" description) 120 15 30 in
          ([spacing +:+ "    " +:+ rep_node
              +:+ " [shape=none, style=filled, fillcolor=lightgreen, label=" +:+ label +:+ "];"],
           c2)
        else if str_eqb typ "LogicalComponent" then
          match parts with
          | Some children =>
              match children with
              | _ :: _ =>
                  let '(nested, c) := nest children c2 in
                  ([spacing +:+ "    label = " +:+ quoted name +:+ ";";
                    spacing +:+ "    style=filled;";
                    spacing +:+ "    fillcolor=lightblue;";
                    spacing +:+ "    margin=10;";
                    spacing +:+ "    " +:+ rep_node +:+ " [shape=none, label=" +:+ quoted "" +:+ "];"]
                   ++ nested, c)
              | [] => (leaf_component, c2)
              end
          | None => (leaf_component, c2)
          end
        else if str_eqb typ "LogicalActor" then
          let label := html_label_bottom_only name 120 10 40 in
          ([spacing +:+ "    " +:+ rep_node
              +:+ " [shape=none, style=filled, fillcolor=lightblue, fixedsize=true, label="
              +:+ label +:+ "];"],
           c2)
        else if str_eqb typ "Package" then
          let head :=
            [spacing +:+ "    label = " +:+ quoted name +:+ ";";
             spacing +:+ "    " +:+ rep_node +:+ " [shape=none, label=" +:+ quoted "" +:+ "];"] in
          match parts with
          | Some children =>
              let '(nested, c) := nest children c2 in (head ++ nested, c)
          | None => (head, c2)
          end
        else
          ([spacing +:+ "    " +:+ rep_node +:+ " [label=" +:+ quoted name +:+ "];"], c2) in
      (rep_node,
       [spacing +:+ "subgraph " +:+ cluster_id +:+ " {"] ++ inner ++ [spacing +:+ "}"],
       c3)
  end.

(** The variables of the loop over the top-level children. *)
Record Top : Type := mkTop {
  lines : list string;
  counter : nat;
  top_functions : option string;
  top_architecture : option string
}.

(** The body of [for child in tree.get("parts", [])]. *)
Definition visit (st : Top) (child : Node) : Top :=
  let '(rep, child_lines, c) := generate_dot child 4 (counter st) in
  let child_name := strip (name child) in
  let tf :=
    if str_eqb child_name "DroneFunctions" then Some rep else top_functions st in
  let ta :=
    if str_eqb child_name "DroneFunctions" then top_architecture st
    else if str_eqb child_name "DroneLogicalArchitecture" then Some rep
    else top_architecture st in
  mkTop (lines st ++ child_lines) c tf ta.

Definition preamble : list string :=
  [ "digraph G {";
    "    graph [layout=osage, splines=ortho, rankdir=TB, compound=true, size="
      +:+ quoted "8,4!" +:+ ", ratio=0.5, stylesheet=" +:+ quoted "mystyle.css" +:+ "];";
    "    node [fontname=" +:+ quoted "Helvetica" +:+ ", fontsize=10];";
    "" ].

(** [f'    {a} -> {b} [style=invis];'] *)
Definition invisible_edge (a b : string) : string :=
  "    " +:+ a +:+ " -> " +:+ b +:+ " [style=invis];".

(** [if top_functions and top_architecture: lines.append(...)] *)
Definition ordering_edge (st : Top) : list string :=
  match truthy (top_functions st), truthy (top_architecture st) with
  | Some a, Some b => [invisible_edge a b]
  | _, _ => []
  end.

(** The state after the loop; the counter starts at 0 in every call. *)
Definition traverse (tree : Tree) : Top :=
  fold_left visit (top_level tree) (mkTop preamble 0 None None).

Definition dot_lines (tree : Tree) : list string :=
  let st := traverse tree in
  lines st ++ ordering_edge st ++ ["}"].

Definition build_dot_from_tree (tree : Tree) : string :=
  str_join nls (dot_lines tree).

End SysML2dot.

(** ** SysML2UML.py

    *** The parser

    This one has no [prev_indent]; the field keeps its initial value. *)

Module SysML2UML.

(** [while stack and indent < stack[-1][0]: stack.pop()] *)
Fixpoint pop_deeper (indent : nat) (stk : list (nat * nat)) : list (nat * nat) :=
  match stk with
  | (i, _) :: rest => if indent <? i then pop_deeper indent rest else stk
  | [] => []
  end.

(** [line.rstrip().endswith("{")] *)
Definition opens_scope (line : string) : bool := endswith_char (rstrip line) "{".

Definition is_close (content : string) : bool := String.eqb content "}".

Definition step (st : PState) (line : string) : option PState :=
  if is_blank line then Some st
  else
    let indent := indent_of line in
    let content := strip line in
    let stk := pop_deeper indent (stack st) in
    let push := if opens_scope line then Some (indent + 1) else None in
    match re_match package_pattern line with
    | Some m =>
        g ← group m 1;
        let name := strip_dq g in
        let alias := truthy (truthy (group m 2)) in
        attach (mkDict (Some "Package") (Some name) alias None (Some []))
               push stk st (prev_indent st)
    | None =>
    match re_match part_pattern line with
    | Some m =>
        name ← group m 1;
        let alias := truthy (truthy (group m 2)) in
        part_type ← group m 3;
        attach (mkDict (Some part_type) (Some name) alias None
                       (if bool_decide (part_type ∈ ["LogicalComponent"; "LogicalFunction"; "LogicalActor"])
                        then Some [] else None))
               push stk st (prev_indent st)
    | None =>
    match re_match actor_pattern line with
    | Some m =>
        g ← group m 1;
        let name := strip_dq g in
        let alias := truthy (truthy (group m 2)) in
        attach (mkDict (Some "LogicalActor") (Some name) alias None None)
               None stk st (prev_indent st)
    | None =>
    match re_match description_pattern line with
    | Some m =>
        desc ← group m 1;
        describe desc stk st (prev_indent st)
    | None =>
        if is_close content then Some (mkPState (heap st) stk (prev_indent st) (stdout st))
        else warn line stk st (prev_indent st)
    end end end end.

Fixpoint run (st : PState) (lines : list string) : option PState :=
  match lines with
  | [] => Some st
  | line :: rest => st' ← step st line; run st' rest
  end.

Definition exec (text : string) : option PState := run init (splitlines text).

Definition parse_indented_model (text : string) : option Tree :=
  st ← exec text; reify (heap st).

Definition printed (text : string) : option (list string) :=
  stdout <$> exec text.

(** *** The containment-diagram renderer *)

Definition is_functions (child : Node) : bool :=
  startswith (strip (name child)) "DroneFunctions".

Definition reorder_children (children : list Node) : list Node :=
  List.filter is_functions children
  ++ List.filter (fun child => negb (is_functions child)) children.

(** [lines.extend(generate_plantuml(child, ...))] over [children] given as a
    selection ([keep]) from [cs]: the children of the node are rendered
    where they stand in [cs], which keeps the recursion below structural. *)
Definition extend_selected (render : Node -> list string) (keep : Node -> bool)
    (cs : list Node) : list string :=
  flat_map (fun child => if keep child then render child else []) cs.

(** [f'"{name}"' + (f' as {alias}' if alias else '')] *)
Definition format_element (name : string) (alias : option string) : string :=
  quoted name +:+
  match truthy alias with
  | Some a => " as " +:+ a
  | None => ""
  end.

(** In the [Package] case the source renders [reorder_children(children)];
    [generate_plantuml_package] below states the function in that form. *)
Fixpoint generate_plantuml (node : Node) (indent : nat) : list string :=
  match node with
  | mkNode node_type name alias description parts =>
      let indent_str := times "    " indent in
      let render := fun child => generate_plantuml child (indent + 1) in
      if str_eqb node_type "Package" then
        [match alias with
         | Some a => indent_str +:+ "package " +:+ format_element name (Some a) +:+ " {"
         | None => indent_str +:+ "package " +:+ quoted name +:+ " {"
         end]
        ++ match parts with
           | Some children =>
               if startswith (strip name) "DroneDevelopment"
               then extend_selected render is_functions children
                    ++ extend_selected render (fun child => negb (is_functions child)) children
               else flat_map render children
           | None => []
           end
        ++ [indent_str +:+ "}"]
      else if str_eqb node_type "LogicalComponent" then
        let text := format_element name alias +:+ " <<logicalComponent>>" in
        match parts with
        | Some children =>
            match children with
            | _ :: _ =>
                [indent_str +:+ "rectangle " +:+ text +:+ " {"]
                ++ flat_map render children
                ++ [indent_str +:+ "}"]
            | [] => [indent_str +:+ "rectangle " +:+ text]
            end
        | None => [indent_str +:+ "rectangle " +:+ text]
        end
      else if str_eqb node_type "LogicalFunction" then
        let text := format_element name alias +:+ " <<logicalFunction>>" in
        let desc := default "" description in
        [indent_str +:+ "class " +:+ text +:+ " {";
         indent_str +:+ "    description = " +:+ quoted desc;
         indent_str +:+ "}"]
      else if str_eqb node_type "LogicalActor" then
        let text := format_element name alias +:+ " <<logicalActor>>" in
        [indent_str +:+ "rectangle " +:+ text]
      else
        [indent_str +:+ "package " +:+ quoted name]
  end.

Definition header : list string :=
  [ "@startuml";
    "'==================================================";
    "' Define Profile Styles with Stereotypes";
    "'==================================================";
    "";
    "allowmixing";
    "' Class for Logical Functions with custom formatting";
    "skinparam class {";
    "  BackgroundColor<<logicalFunction>> LightGreen";
    "  BorderColor<<logicalFunction>> DarkGreen";
    "  FontStyle<<logicalFunction>> Bold";
    "  FontColor<<logicalFunction>> Black";
    "}";
    "";
    "' Rectangle for Logical Components";
    "skinparam rectangle {";
    "  BackgroundColor<<logicalComponent>> LightSteelBlue";
    "  BorderColor<<logicalComponent>> DarkBlue";
    "  FontStyle<<logicalComponent>> Bold";
    "  FontColor<<logicalComponent>> Black";
    "}";
    "";
    "' Rectangle for Logical Actors";
    "skinparam rectangle {";
    "  BackgroundColor<<logicalActor>> LightBlue";
    "  BorderColor<<logicalActor>> Blue";
    "  FontStyle<<logicalActor>> Bold";
    "  FontColor<<logicalactor>> Black";
    "}";
    "";
    "'==================================================";
    "' Generated SysML Diagram";
    "'==================================================" ].

Definition body (tree : Tree) : list string :=
  flat_map (fun part => generate_plantuml part 0) (top_level tree).

Definition footer : list string := ["@enduml"].

Definition build_plantuml_from_tree (tree : Tree) : string :=
  str_join nls (header ++ body tree ++ footer).

End SysML2UML.

(** ** Vocabulary of the statements *)

(** The groups that take part in every match of a pattern. *)
Fixpoint sure (r : regex) (n : nat) : bool :=
  match r with
  | Seq r1 r2 => sure r1 n || sure r2 n
  | Grp m r' => (m =? n) || sure r' n
  | _ => false
  end.

(** What a non-blank line makes the parser of SysML2Mermaid.py (and of
    SysML2dot.py) do once the scopes are closed: link a new dictionary,
    set a description, or print a warning. *)
Inductive action : Type :=
| Create (d : Dict)
| Describe (desc : string)
| Warn.

Definition part_slot (part_type : string) : option (list nat) :=
  if bool_decide (part_type ∈ ["LogicalComponent"; "LogicalFunction"; "LogicalActor"])
  then Some [] else None.

Definition action_of (line : string) : option action :=
  match re_match package_pattern line with
  | Some m =>
      g ← group m 1;
      Some (Create (mkDict (Some "Package") (Some (strip (strip_dq g)))
                            (truthy (truthy (group m 2))) None (Some [])))
  | None =>
  match re_match part_pattern line with
  | Some m =>
      g ← group m 1;
      t ← group m 3;
      Some (Create (mkDict (Some (strip t)) (Some (strip g))
                            (truthy (truthy (group m 2))) None (part_slot (strip t))))
  | None =>
  match re_match actor_pattern line with
  | Some m =>
      g ← group m 1;
      Some (Create (mkDict (Some "LogicalActor") (Some (strip (strip_dq g)))
                            (truthy (truthy (group m 2))) None None))
  | None =>
  match re_match description_pattern line with
  | Some m => g ← group m 1; Some (Describe (strip g))
  | None => Some Warn
  end end end end.

(** A line that matches none of the four patterns. *)
Definition unmatched (line : string) : bool :=
  match re_match package_pattern line, re_match part_pattern line,
        re_match actor_pattern line, re_match description_pattern line with
  | None, None, None, None => true
  | _, _, _, _ => false
  end.

(** A non-blank line that matches none of the four patterns. *)
Definition unhandled (line : string) : bool := negb (is_blank line) && unmatched line.

(** A line that matches the package, the part or the actor pattern. *)
Definition declares (line : string) : bool :=
  match re_match package_pattern line, re_match part_pattern line,
        re_match actor_pattern line with
  | None, None, None => false
  | _, _, _ => true
  end.

(** The stack a line is processed with: [stack] after
    [if indent <= prev_indent: while ...: stack.pop()]. *)
Definition scopes_for (st : PState) (line : string) : list (nat * nat) :=
  if indent_of line <=? prev_indent st
  then pop_scopes (indent_of line) (stack st) else stack st.

Definition perform (a : action) (line : string) (stk : list (nat * nat))
    (st : PState) : option PState :=
  match a with
  | Create d => attach d (Some (indent_of line)) stk st (indent_of line)
  | Describe desc => describe desc stk st (indent_of line)
  | Warn => warn line stk st (indent_of line)
  end.

(** A dictionary as the parser creates it: typed, named, and with no
    child yet. *)
Definition fresh (d : Dict) : Prop :=
  is_Some (d_type d) ∧ is_Some (d_name d) ∧
  d_description d = None ∧ (d_parts d = None ∨ d_parts d = Some []).

Definition sentinel : nat * nat := (0, 0).

(** Recorded indents strictly decrease from the top of the stack down. *)
Fixpoint descending (open : list (nat * nat)) : Prop :=
  match open with
  | [] => True
  | e :: rest => Forall (fun e' => e'.1 < e.1) rest ∧ descending rest
  end.

(** Children have larger addresses than their parent, and every dictionary
    but the root has a type and a name. *)
Definition heap_ok (h : list Dict) : Prop :=
  ∀ a d, h !! a = Some d →
    (0 < a → is_Some (d_type d) ∧ is_Some (d_name d)) ∧
    (∀ cs c, d_parts d = Some cs → c ∈ cs → a < c < length h).

(** Of the stack [stk], a line of width [w] closes the entries [closed] and
    leaves [kept] above the sentinel. *)
Definition closes (w : nat) (stk closed kept : list (nat * nat)) : Prop :=
  stk = closed ++ kept ++ [sentinel] ∧
  Forall (fun e => w ≤ e.1) closed ∧
  Forall (fun e => e.1 < w) kept.

(** Between the stores [h] and [h'] the address [child] has been appended
    to the [parts] of the dictionary at [parent]. *)
Definition linked (h h' : list Dict) (parent child : nat) : Prop :=
  ∃ pd, h !! parent = Some pd ∧ h' !! parent = Some (append_part child pd).

(** The diagnostic as the specification words it. *)
Definition diagnostic (line : string) : string := "Unhandled line: " +:+ line.

(** The invariant of the loop of the two indentation parsers. *)
Record wf (st : PState) : Prop := mkWf {
  wf_stack : ∃ open, stack st = open ++ [sentinel] ∧ descending open ∧
                     Forall (fun e => e.1 ≤ prev_indent st) open;
  wf_addr : Forall (fun e => e.2 < length (heap st)) (stack st);
  wf_heap : heap_ok (heap st)
}.

(** A top-level child whose name, trimmed as the loop of
    [build_dot_from_tree] trims it, is [x]. *)
Definition named (x : string) (child : Node) : bool := str_eqb (strip (name child)) x.

(** The state the loop of [build_dot_from_tree] starts in. *)
Definition start : SysML2dot.Top := SysML2dot.mkTop SysML2dot.preamble 0 None None.

(** The representative node [child] gets when it is visited after the
    children [pre]. *)
Definition rep_after (pre : list Node) (child : Node) : string :=
  (SysML2dot.generate_dot child 4
     (SysML2dot.counter (fold_left SysML2dot.visit pre start))).1.1.

(** The line that opens a package block in [generate_plantuml]. *)
Definition package_open (indent_str name : string) (alias : option string) : string :=
  match alias with
  | Some a => indent_str +:+ "package " +:+ SysML2UML.format_element name (Some a) +:+ " {"
  | None => indent_str +:+ "package " +:+ quoted name +:+ " {"
  end.

(** No character of the class [p] in front. *)
Definition no_lead (p : ascii -> bool) (s : string) : Prop :=
  match s with
  | String c _ => p c = false
  | EmptyString => True
  end.

(** Every name in the store is free of leading and trailing whitespace. *)
Definition names_trimmed (h : list Dict) : Prop :=
  ∀ a d n, h !! a = Some d → d_name d = Some n → strip n = n.

(** ** The renderers as calls in a running process

    Two of the renderers keep a variable that their nested function
    changes: [next_id] increments [node_counter] of [build_dot_from_tree]
    through [nonlocal], and [process_node] appends to [lines] of
    [build_mermaid_flowchart_from_tree].  Here these variables live in
    cells of the process.  The assignment that creates the variable
    ([node_counter = 0], [lines = []]) is in the body of the renderer, so it
    runs once per call and takes a new cell; the cells of earlier calls
    stay where they are.  Using a cell that does not exist is [None], as
    using an unbound variable raises.  [build_plantuml_from_tree] has no
    such variable: the lists of [generate_plantuml] are locals that it
    returns, so its calls leave the cells alone. *)

Module Process.

Record Cells : Type := mkCells {
  counters : list nat;
  buffers : list (list string)
}.

(** [nonlocal node_counter; node_counter += 1; return f"id{node_counter}"] *)
Definition next_id (cell : nat) (p : Cells) : option (string * Cells) :=
  node_counter ← counters p !! cell;
  let node_counter := node_counter + 1 in
  Some ("id" +:+ pretty node_counter,
        mkCells (<[cell := node_counter]> (counters p)) (buffers p)).

(** [generate_dot(node, indent)], drawing its identifiers from the cell of
    the call of [build_dot_from_tree] it belongs to. *)
Fixpoint generate_dot (cell : nat) (node : Node) (indent : nat) (p : Cells)
    : option (string * list string * Cells) :=
  match node with
  | mkNode typ name _ description parts =>
      let spacing := times " " indent in
      '(id1, p1) ← next_id cell p;
      let cluster_id := "cluster_" +:+ id1 in
      '(rep_node, p2) ← next_id cell p1;
      let nest :=
        fix nest (children : list Node) (p : Cells) : option (list string * Cells) :=
          match children with
          | [] => Some ([], p)
          | child :: rest =>
              '(_, child_lines, p') ← generate_dot cell child (indent + 4) p;
              '(more, p'') ← nest rest p';
              Some (child_lines ++ more, p'')
          end in
      let leaf_component :=
        let label := SysML2dot.html_label_bottom_only name 150 10 40 in
        [spacing +:+ "    " +:+ rep_node
           +:+ " [shape=none, style=filled, fillcolor=lightblue, label=" +:+ label +:+ "];"] in
      '(inner, p3) ←
        (if str_eqb typ "LogicalFunction" then
           let label :=
             SysML2dot.html_label_two_compartment name (default "" description) 120 15 30 in
           Some ([spacing +:+ "    " +:+ rep_node
                    +:+ " [shape=none, style=filled, fillcolor=lightgreen, label="
                    +:+ label +:+ "];"],
                 p2)
         else if str_eqb typ "LogicalComponent" then
           match parts with
           | Some children =>
               match children with
               | _ :: _ =>
                   '(nested, p) ← nest children p2;
                   Some ([spacing +:+ "    label = " +:+ quoted name +:+ ";";
                          spacing +:+ "    style=filled;";
                          spacing +:+ "    fillcolor=lightblue;";
                          spacing +:+ "    margin=10;";
                          spacing +:+ "    " +:+ rep_node +:+ " [shape=none, label="
                            +:+ quoted "" +:+ "];"]
                         ++ nested, p)
               | [] => Some (leaf_component, p2)
               end
           | None => Some (leaf_component, p2)
           end
         else if str_eqb typ "LogicalActor" then
           let label := SysML2dot.html_label_bottom_only name 120 10 40 in
           Some ([spacing +:+ "    " +:+ rep_node
                    +:+ " [shape=none, style=filled, fillcolor=lightblue, fixedsize=true, label="
                    +:+ label +:+ "];"],
                 p2)
         else if str_eqb typ "Package" then
           let head :=
             [spacing +:+ "    label = " +:+ quoted name +:+ ";";
              spacing +:+ "    " +:+ rep_node +:+ " [shape=none, label="
                +:+ quoted "" +:+ "];"] in
           match parts with
           | Some children =>
               '(nested, p) ← nest children p2; Some (head ++ nested, p)
           | None => Some (head, p2)
           end
         else
           Some ([spacing +:+ "    " +:+ rep_node +:+ " [label=" +:+ quoted name +:+ "];"],
                 p2));
      Some (rep_node,
            [spacing +:+ "subgraph " +:+ cluster_id +:+ " {"] ++ inner ++ [spacing +:+ "}"],
            p3)
  end.

(** The locals of a call of [build_dot_from_tree] that only its own body
    assigns. *)
Record Locals : Type := mkLocals {
  lines : list string;
  top_functions : option string;
  top_architecture : option string
}.

(** [for child in tree.get("parts", []): ...] *)
Fixpoint visit_all (cell : nat) (children : list Node) (loc : Locals) (p : Cells)
    : option (Locals * Cells) :=
  match children with
  | [] => Some (loc, p)
  | child :: rest =>
      '(rep, child_lines, p') ← generate_dot cell child 4 p;
      let child_name := strip (name child) in
      let tf :=
        if str_eqb child_name "DroneFunctions" then Some rep else top_functions loc in
      let ta :=
        if str_eqb child_name "DroneFunctions" then top_architecture loc
        else if str_eqb child_name "DroneLogicalArchitecture" then Some rep
        else top_architecture loc in
      visit_all cell rest (mkLocals (lines loc ++ child_lines) tf ta) p'
  end.

(** A call of [build_dot_from_tree]: [node_counter = 0] takes a new
    cell. *)
Definition build_dot_from_tree (tree : Tree) (p : Cells) : option (string * Cells) :=
  let cell := length (counters p) in
  let p := mkCells (counters p ++ [0]) (buffers p) in
  '(loc, p) ← visit_all cell (top_level tree) (mkLocals SysML2dot.preamble None None) p;
  let edge :=
    match truthy (top_functions loc), truthy (top_architecture loc) with
    | Some a, Some b => [SysML2dot.invisible_edge a b]
    | _, _ => []
    end in
  Some (str_join nls (lines loc ++ edge ++ ["}"]), p).

(** [lines.append(l)] on the list of a call of
    [build_mermaid_flowchart_from_tree]. *)
Definition append (cell : nat) (l : string) (p : Cells) : option Cells :=
  ls ← buffers p !! cell;
  Some (mkCells (counters p) (<[cell := ls ++ [l]]> (buffers p))).

(** [process_node(node, level)], appending to the list of the call it
    belongs to. *)
Fixpoint process_node (cell : nat) (node : Node) (level : nat) (p : Cells)
    : option Cells :=
  match node with
  | mkNode typ name _ description parts =>
      let spacing := times "    " level in
      let node_id := replace_space name in
      let children :=
        fix children (cs : list Node) (p : Cells) : option Cells :=
          match cs with
          | [] => Some p
          | child :: rest =>
              p' ← process_node cell child (level + 1) p; children rest p'
          end in
      p1 ←
        (if str_eqb typ "Package" then
           p ← append cell (spacing +:+ "subgraph " +:+ node_id +:+ "[" +:+ name +:+ "]") p;
           p ← match parts with
               | Some cs => children cs p
               | None => Some p
               end;
           append cell (spacing +:+ "end") p
         else if str_eqb typ "LogicalFunction" then
           let label :=
             SysML2Mermaid.html_label_two_compartment name (default "" description) 120 15 30 in
           append cell (spacing +:+ node_id +:+ "[" +:+ label +:+ "]") p
         else if str_in typ ["LogicalComponent"; "LogicalActor"] then
           let label := SysML2Mermaid.html_label_bottom_only name 150 10 40 in
           append cell (spacing +:+ node_id +:+ "[" +:+ label +:+ "]") p
         else
           append cell (spacing +:+ node_id +:+ "[" +:+ name +:+ "]") p);
      match parts with
      | Some cs => children cs p1
      | None => Some p1
      end
  end.

(** [for child in tree.get("parts", []): process_node(child, level=1)] *)
Fixpoint process_all (cell : nat) (children : list Node) (p : Cells) : option Cells :=
  match children with
  | [] => Some p
  | child :: rest => p' ← process_node cell child 1 p; process_all cell rest p'
  end.

(** A call of [build_mermaid_flowchart_from_tree]: [lines = []] takes a
    new cell. *)
Definition build_mermaid_flowchart_from_tree (tree : Tree) (p : Cells)
    : option (string * Cells) :=
  let cell := length (buffers p) in
  let p := mkCells (counters p) (buffers p ++ [[]]) in
  p ← append cell "flowchart TD" p;
  p ← process_all cell (top_level tree) p;
  ls ← buffers p !! cell;
  Some (str_join nls ls, p).

(** A call of [build_plantuml_from_tree]. *)
Definition build_plantuml_from_tree (tree : Tree) (p : Cells) : option (string * Cells) :=
  Some (SysML2UML.build_plantuml_from_tree tree, p).

(** [nest] and [children] above, named. *)
Definition nest_from (cell indent : nat)
    : list Node -> Cells -> option (list string * Cells) :=
  fix nest (children : list Node) (p : Cells) : option (list string * Cells) :=
    match children with
    | [] => Some ([], p)
    | child :: rest =>
        '(_, child_lines, p') ← generate_dot cell child (indent + 4) p;
        '(more, p'') ← nest rest p';
        Some (child_lines ++ more, p'')
    end.

Definition children_from (cell level : nat) : list Node -> Cells -> option Cells :=
  fix children (cs : list Node) (p : Cells) : option Cells :=
    match cs with
    | [] => Some p
    | child :: rest =>
        p' ← process_node cell child (level + 1) p; children rest p'
    end.

(** The cell [cell] of the counters set to [c]. *)
Definition set_counter (cell c : nat) (p : Cells) : Cells :=
  mkCells (<[cell := c]> (counters p)) (buffers p).

(** The lines [ls] appended to the cell [cell] of the buffers, which held
    [held]. *)
Definition extended (cell : nat) (held ls : list string) (p : Cells) : Cells :=
  mkCells (counters p) (<[cell := held ++ ls]> (buffers p)).

End Process.

(** What a call of [generate_dot] does to the cell of its counter is what
    the function does to the counter it is passed. *)
Definition follows_counter (cell : nat) (child : Node) : Prop :=
  ∀ indent p c, Process.counters p !! cell = Some c →
    Process.generate_dot cell child indent p =
    let '(rep, ls, c') := SysML2dot.generate_dot child indent c in
    Some (rep, ls, Process.set_counter cell c' p).

(** What a call of [process_node] appends to the cell of [lines] is the
    list the function of the node gives. *)
Definition follows_lines (cell : nat) (child : Node) : Prop :=
  ∀ level p held, Process.buffers p !! cell = Some held →
    Process.process_node cell child level p =
    Some (Process.extended cell held (SysML2Mermaid.process_node child level) p).

(** ** Vocabulary of the further properties *)

(** The tree with every [alias] key removed. *)
Fixpoint without_alias (n : Node) : Node :=
  match n with
  | mkNode t x _ d ps =>
      mkNode t x None d
        match ps with
        | Some cs => Some (map without_alias cs)
        | None => None
        end
  end.

Definition tree_without_alias (t : Tree) : Tree :=
  mkTree (root_description t) (map without_alias <$> root_parts t).

(** The nodes [generate_dot] writes a cluster for under [n]: [n] itself and,
    when [n] is a package or a logical component, what it writes under each
    of the children. *)
Fixpoint clusters (n : Node) : nat :=
  match n with
  | mkNode t _ _ _ ps =>
      S (if str_in t ["LogicalComponent"; "Package"]
         then match ps with
              | Some cs => list_sum (map clusters cs)
              | None => 0
              end
         else 0)
  end.

(** The loop [for child in node.get("parts", [])] of [generate_dot], as a
    function of its own. *)
Definition nest_from (indent : nat) : list Node -> nat -> list string * nat :=
  fix nest (children : list Node) (c : nat) : list string * nat :=
    match children with
    | [] => ([], c)
    | child :: rest =>
        let '(_, child_lines, c') := SysML2dot.generate_dot child (indent + 4) c in
        let '(more, c'') := nest rest c' in
        (child_lines ++ more, c'')
    end.

(** The tree without the children of the nodes that are neither a package
    nor a logical component. *)
Fixpoint pruned (n : Node) : Node :=
  match n with
  | mkNode t x a d ps =>
      mkNode t x a d
        match ps with
        | Some cs =>
            if str_in t ["LogicalComponent"; "Package"]
            then Some (map pruned cs) else None
        | None => None
        end
  end.

Definition tree_pruned (t : Tree) : Tree :=
  mkTree (root_description t) (map pruned <$> root_parts t).

(** The tree without the descriptions of the nodes that are not a logical
    function. *)
Fixpoint functions_described (n : Node) : Node :=
  match n with
  | mkNode t x a d ps =>
      mkNode t x a (if str_eqb t "LogicalFunction" then d else None)
        match ps with
        | Some cs => Some (map functions_described cs)
        | None => None
        end
  end.

Definition tree_functions_described (t : Tree) : Tree :=
  mkTree None (map functions_described <$> root_parts t).

Definition nonblank (line : string) : bool := negb (is_blank line).

(** The indent of the last non-blank line, [default] when there is none. *)
Definition last_indent (default : nat) (lines : list string) : nat :=
  match last (List.filter nonblank lines) with
  | Some line => indent_of line
  | None => default
  end.

(** What a non-blank line makes the parser of SysML2UML.py do once the
    deeper scopes are closed; [scope] tells whether the new node is pushed. *)
Inductive uml_action : Type :=
| UCreate (d : Dict) (scope : bool)
| UDescribe (desc : string)
| UClose
| UWarn.

Definition uml_action_of (line : string) : option uml_action :=
  match re_match package_pattern line with
  | Some m =>
      g ← group m 1;
      Some (UCreate (mkDict (Some "Package") (Some (strip_dq g))
                            (truthy (truthy (group m 2))) None (Some []))
                    (SysML2UML.opens_scope line))
  | None =>
  match re_match part_pattern line with
  | Some m =>
      g ← group m 1;
      t ← group m 3;
      Some (UCreate (mkDict (Some t) (Some g) (truthy (truthy (group m 2))) None
                            (part_slot t))
                    (SysML2UML.opens_scope line))
  | None =>
  match re_match actor_pattern line with
  | Some m =>
      g ← group m 1;
      Some (UCreate (mkDict (Some "LogicalActor") (Some (strip_dq g))
                            (truthy (truthy (group m 2))) None None)
                    false)
  | None =>
  match re_match description_pattern line with
  | Some m => g ← group m 1; Some (UDescribe g)
  | None => Some (if SysML2UML.is_close (strip line) then UClose else UWarn)
  end end end end.

Definition uml_perform (a : uml_action) (line : string) (stk : list (nat * nat))
    (st : PState) : option PState :=
  match a with
  | UCreate d scope =>
      attach d (if scope then Some (indent_of line + 1) else None) stk st (prev_indent st)
  | UDescribe desc => describe desc stk st (prev_indent st)
  | UClose => Some (mkPState (heap st) stk (prev_indent st) (stdout st))
  | UWarn => warn line stk st (prev_indent st)
  end.

(** The invariant of the loop of SysML2UML.py. *)
Record uml_wf (st : PState) : Prop := mkUmlWf {
  uml_wf_stack : ∃ open, stack st = open ++ [sentinel];
  uml_wf_addr : Forall (fun e => e.2 < length (heap st)) (stack st);
  uml_wf_heap : heap_ok (heap st)
}.

(** A non-blank line that matches none of the four patterns and is not a
    closing brace on its own. *)
Definition uml_unhandled (line : string) : bool :=
  nonblank line && unmatched line && negb (SysML2UML.is_close (strip line)).

(** A non-blank line that declares a node. *)
Definition declaring (line : string) : bool := nonblank line && declares line.

(** A store in which only the root has children. *)
Definition flat (st : PState) : Prop :=
  stack st = [sentinel] ∧
  (∃ d0, heap st !! 0 = Some d0 ∧ d_parts d0 = Some (seq 1 (length (heap st) - 1))) ∧
  ∀ a d, heap st !! a = Some d → 0 < a → d_parts d = None ∨ d_parts d = Some [].

(** The line holds a double quote. *)
Fixpoint has_dq (s : string) : bool :=
  match s with
  | EmptyString => false
  | String c s' => is_dq c || has_dq s'
  end.

(** A pattern without a capturing group. *)
Fixpoint groupless (r : regex) : bool :=
  match r with
  | Opt r' => groupless r'
  | Seq r1 r2 => groupless r1 && groupless r2
  | Grp _ _ => false
  | _ => true
  end.

(** The quoted name of a package or an actor, with the alias after it. *)
Definition quoted_name_and_alias : regex :=
  Grp 1 (Opt (Lit dq) +> Plus is_name_char +> Opt (Lit dq)) +> as_alias.

(** What a declaring line fixes of a node for good: its type, its name
    and its alias. *)
Definition key : Type := option string * option string * option string.

Definition dict_key (d : Dict) : key := (d_type d, d_name d, d_alias d).

(** The nodes of a tree, parents before children and siblings in order. *)
Fixpoint preorder (n : Node) : list key :=
  match n with
  | mkNode t x a _ ps =>
      (Some t, Some x, a) ::
        match ps with
        | Some cs => flat_map preorder cs
        | None => []
        end
  end.

Definition tree_preorder (t : Tree) : list key := flat_map preorder (top_level t).

(** The nodes the non-blank lines of a text declare, in the order of the
    lines. *)
Definition declared_keys (lines : list string) : list key :=
  flat_map (fun line =>
              if nonblank line
              then match action_of line with
                   | Some (Create d) => [dict_key d]
                   | _ => []
                   end
              else []) lines.

(** The keys of the dictionaries at the addresses [lo <= a < hi]. *)
Definition keys_between (h : list Dict) (lo hi : nat) : list key :=
  map dict_key (take (hi - lo) (drop lo h)).

(** The dictionaries at the addresses [lo <= a < hi] have their children
    below [hi]. *)
Definition sealed (h : list Dict) (lo hi : nat) : Prop :=
  ∀ a d, lo ≤ a → a < hi → h !! a = Some d →
    ∀ cs c, d_parts d = Some cs → c ∈ cs → a < c < hi.

(** The tree [n] is what [reify_node] reads at [c], whatever fuel it has
    from [hi - c] on. *)
Definition stored (h : list Dict) (hi : nat) (c : nat) (n : Node) : Prop :=
  ∀ fuel, hi - c ≤ fuel → reify_node fuel h c = Some n.

(** The closed children [cs] of the open node at [a]: they lie between
    [a] and [hi], and their trees list the addresses between [a] and [hi]
    in order. *)
Definition closed_children (h : list Dict) (a hi : nat) (cs : list nat) : Prop :=
  Forall (fun c => a < c < hi) cs ∧
  ∃ ns, Forall2 (stored h hi) cs ns ∧
        flat_map preorder ns = keys_between h (S a) hi.

(** The [parts] of an open node: its closed children, and after them the
    open node [upper] above it on the stack when there is one. *)
Definition parts_of_open (d : Dict) (cs : list nat) (upper : option nat) : Prop :=
  match upper with
  | Some u => d_parts d = Some (cs ++ [u])
  | None => default [] (d_parts d) = cs
  end.

(** The addresses on the stack, from the top down to the root: each open
    node is the last child of the one below it. *)
Fixpoint chain (h : list Dict) (hi : nat) (upper : option nat) (addrs : list nat) : Prop :=
  match addrs with
  | [] => False
  | a :: rest =>
      a < hi ∧ sealed h (S a) hi ∧
      (∃ d cs, h !! a = Some d ∧ parts_of_open d cs upper ∧ closed_children h a hi cs) ∧
      match rest with
      | [] => a = 0
      | _ :: _ => chain h a (Some a) rest
      end
  end.

(** The invariant of the loop that relates the stack to the store: the
    open nodes form a chain from the root, and what lies between them are
    the finished subtrees, stored in the order of their creation. *)
Definition ordered (st : PState) : Prop :=
  chain (heap st) (length (heap st)) None ((fun e => e.2) <$> stack st).

(** The nodes the non-blank lines of a text declare for the parser of
    SysML2UML.py, in the order of the lines. *)
Definition uml_declared_keys (lines : list string) : list key :=
  flat_map (fun line =>
              if nonblank line
              then match uml_action_of line with
                   | Some (UCreate d _) => [dict_key d]
                   | _ => []
                   end
              else []) lines.

(** Blocks in the text of a diagram: a line that ends in an opening brace
    opens one, a line that ends in a closing brace closes one.  [nesting]
    follows the depth through the lines; closing a block that is not open
    is [None]. *)
Fixpoint nesting (depth : nat) (ls : list string) : option nat :=
  match ls with
  | [] => Some depth
  | l :: rest =>
      if endswith_char l "{" then nesting (S depth) rest
      else if endswith_char l "}" then
        match depth with
        | 0 => None
        | S d => nesting d rest
        end
      else nesting depth rest
  end.

(** Every block is closed, and none is closed that was not opened. *)
Definition well_nested (ls : list string) : Prop := nesting 0 ls = Some 0.

(** Lines that leave every depth as they find it. *)
Definition level_kept (ls : list string) : Prop := ∀ d, nesting d ls = Some d.

(** Whether the parser of SysML2UML.py pushes the node a line declares: the
    line matches the package or the part pattern and ends, trailing
    whitespace apart, with an opening brace.  The actor branch has no
    push. *)
Definition uml_pushes (line : string) : bool :=
  match re_match package_pattern line, re_match part_pattern line with
  | None, None => false
  | _, _ => SysML2UML.opens_scope line
  end.

(** * Properties *)

(** ** Patterns *)

Lemma star_match_some {B : Type} (p : ascii -> bool) (s : string)
    (k : string -> option B) (res : B) :
  star_match p s k = Some res → ∃ s', k s' = Some res.
Proof.
  induction s as [|c s IH]; simpl; intros H; [eauto|].
  destruct (p c); [|eauto].
  destruct (star_match p s k) eqn:E; [|eauto].
  inversion H; subst. auto.
Qed.

Lemma group_cons (n m : nat) (x : string) (caps : captures) :
  is_Some (group caps m) → is_Some (group ((n, x) :: caps) m).
Proof. simpl. destruct (n =? m); eauto. Qed.

Lemma rmatch_some (r : regex) :
  ∀ s caps k res, rmatch r s caps k = Some res →
    ∃ s' caps', k s' caps' = Some res ∧
      (∀ n, is_Some (group caps n) → is_Some (group caps' n)) ∧
      (∀ n, sure r n = true → is_Some (group caps' n)).
Proof.
  induction r as [c|w|p|p|p|r IH|r1 IH1 r2 IH2|m r IH]; simpl; intros s caps k res H.
  - destruct s as [|x s]; [done|]. destruct (Ascii.eqb x c); [|done].
    exists s, caps. split_and!; auto; done.
  - destruct (drop_prefix w s) as [s'|]; [|done].
    exists s', caps. split_and!; auto; done.
  - destruct s as [|x s]; [done|]. destruct (p x); [|done].
    exists s, caps. split_and!; auto; done.
  - apply star_match_some in H as [s' H].
    exists s', caps. split_and!; auto; done.
  - destruct s as [|x s]; [done|]. destruct (p x); [|done].
    apply star_match_some in H as [s' H].
    exists s', caps. split_and!; auto; done.
  - destruct (rmatch r s caps k) eqn:E.
    + inversion H; subst. apply IH in E as (s' & caps' & ? & ? & ?).
      exists s', caps'. split_and!; auto; done.
    + exists s, caps. split_and!; auto; done.
  - apply IH1 in H as (s1 & caps1 & H & Hm1 & Hs1).
    apply IH2 in H as (s2 & caps2 & H & Hm2 & Hs2).
    exists s2, caps2. split_and!; auto.
    intros n Hn. apply orb_true_iff in Hn as [Hn|Hn]; auto.
  - apply IH in H as (s' & caps' & H & Hm & Hs).
    eexists s', _. split_and!; [exact H| |].
    + intros n Hn. apply group_cons; auto.
    + intros n Hn. apply orb_true_iff in Hn as [Hn|Hn].
      * apply Nat.eqb_eq in Hn as ->. simpl. rewrite Nat.eqb_refl. eauto.
      * apply group_cons; auto.
Qed.

Lemma re_match_group (r : regex) (line : string) (m : captures) (n : nat) :
  re_match r line = Some m → sure r n = true → is_Some (group m n).
Proof.
  intros H Hn. apply rmatch_some in H as (s' & caps' & H & _ & Hs).
  inversion H; subst. auto.
Qed.

Lemma action_of_total (line : string) : is_Some (action_of line).
Proof.
  unfold action_of.
  destruct (re_match package_pattern line) as [m|] eqn:E1.
  { destruct (re_match_group _ _ _ 1 E1 eq_refl) as [g ->]. simpl. eauto. }
  destruct (re_match part_pattern line) as [m|] eqn:E2.
  { destruct (re_match_group _ _ _ 1 E2 eq_refl) as [g ->].
    destruct (re_match_group _ _ _ 3 E2 eq_refl) as [t ->]. simpl. eauto. }
  destruct (re_match actor_pattern line) as [m|] eqn:E3.
  { destruct (re_match_group _ _ _ 1 E3 eq_refl) as [g ->]. simpl. eauto. }
  destruct (re_match description_pattern line) as [m|] eqn:E4.
  { destruct (re_match_group _ _ _ 1 E4 eq_refl) as [g ->]. simpl. eauto. }
  eauto.
Qed.

(** ** The loop of the indentation parsers *)

Lemma step_action (st : PState) (line : string) :
  SysML2Mermaid.step st line =
  if is_blank line then Some st
  else a ← action_of line; perform a line (scopes_for st line) st.
Proof.
  unfold SysML2Mermaid.step, action_of, scopes_for, perform, part_slot.
  destruct (is_blank line); [done|].
  destruct (re_match package_pattern line) as [m|].
  { destruct (group m 1); done. }
  destruct (re_match part_pattern line) as [m|].
  { destruct (group m 1); [|done]. destruct (group m 3); done. }
  destruct (re_match actor_pattern line) as [m|].
  { destruct (group m 1); done. }
  destruct (re_match description_pattern line) as [m|]; [|done].
  destruct (group m 1); done.
Qed.

Lemma dot_step_eq (st : PState) (line : string) :
  SysML2dot.step st line = SysML2Mermaid.step st line.
Proof. reflexivity. Qed.

Lemma dot_run_eq (lines : list string) :
  ∀ st, SysML2dot.run st lines = SysML2Mermaid.run st lines.
Proof.
  induction lines as [|line rest IH]; intros st; simpl; [done|].
  rewrite dot_step_eq. destruct (SysML2Mermaid.step st line); simpl; auto.
Qed.

Lemma pop_scopes_sentinel (w : nat) : pop_scopes w [sentinel] = [sentinel].
Proof. reflexivity. Qed.

Lemma pop_scopes_cons (w : nat) (e : nat * nat) (open : list (nat * nat)) :
  pop_scopes w (e :: open ++ [sentinel]) =
  if w <=? e.1 then pop_scopes w (open ++ [sentinel]) else e :: open ++ [sentinel].
Proof. destruct e as [i a]. simpl. destruct (open ++ [sentinel]) eqn:E; [|done].
  destruct open; discriminate. Qed.

(** On a stack whose indents decrease from the top, the loop removes
    exactly the entries that are not shallower than [w], and stops at the
    sentinel. *)
Lemma pop_scopes_split (w : nat) (open : list (nat * nat)) :
  descending open →
  ∃ closed kept, open = closed ++ kept ∧
    Forall (fun e => w ≤ e.1) closed ∧ Forall (fun e => e.1 < w) kept ∧
    descending kept ∧
    pop_scopes w (open ++ [sentinel]) = kept ++ [sentinel].
Proof.
  induction open as [|e open IH]; intros Hd.
  - exists [], []. split_and!; auto.
  - destruct Hd as [Hlt Hd]. rewrite <- app_comm_cons, pop_scopes_cons.
    destruct (w <=? e.1) eqn:E.
    + apply Nat.leb_le in E.
      destruct (IH Hd) as (closed & kept & -> & Hc & Hk & Hdk & Hp).
      exists (e :: closed), kept. split_and!; auto.
    + apply Nat.leb_gt in E.
      exists [], (e :: open). split_and!; auto; [|done].
      constructor; [done|]. eapply Forall_impl; [exact Hlt|]. simpl; lia.
Qed.

Lemma pop_scopes_shallow (w : nat) (open : list (nat * nat)) :
  Forall (fun e => e.1 < w) open → pop_scopes w (open ++ [sentinel]) = open ++ [sentinel].
Proof.
  intros H. destruct open as [|e open]; [done|].
  rewrite <- app_comm_cons, pop_scopes_cons. apply Forall_cons in H as [H _].
  apply Nat.leb_gt in H. by rewrite H.
Qed.

(** The test [indent <= prev_indent] never changes the outcome: a line
    deeper than the previous one finds no entry to remove. *)
Lemma scopes_for_pop (st : PState) (line : string) :
  wf st → scopes_for st line = pop_scopes (indent_of line) (stack st).
Proof.
  intros [(open & Hs & Hd & Hle) _ _]. unfold scopes_for.
  destruct (indent_of line <=? prev_indent st) eqn:E; [done|].
  apply Nat.leb_gt in E. rewrite Hs. symmetry. apply pop_scopes_shallow.
  eapply Forall_impl; [exact Hle|]. simpl; lia.
Qed.

Lemma scopes_for_split (st : PState) (line : string) :
  wf st →
  ∃ closed kept, stack st = closed ++ kept ++ [sentinel] ∧
    Forall (fun e => indent_of line ≤ e.1) closed ∧
    Forall (fun e => e.1 < indent_of line) kept ∧
    descending kept ∧
    scopes_for st line = kept ++ [sentinel].
Proof.
  intros Hwf. rewrite scopes_for_pop by done.
  destruct Hwf as [(open & Hs & Hd & Hle) _ _].
  destruct (pop_scopes_split (indent_of line) open Hd)
    as (closed & kept & -> & Hc & Hk & Hdk & Hp).
  exists closed, kept. rewrite Hs, Hp, <- app_assoc. auto.
Qed.

Lemma action_of_fresh (line : string) (d : Dict) :
  action_of line = Some (Create d) → fresh d.
Proof.
  unfold action_of, fresh, part_slot.
  destruct (re_match package_pattern line) as [m|].
  { destruct (group m 1); simpl; intros [= <-]; simpl; eauto 6. }
  destruct (re_match part_pattern line) as [m|].
  { destruct (group m 1); simpl; [|done]. destruct (group m 3); simpl; [|done].
    intros [= <-]; simpl. case_bool_decide; eauto 6. }
  destruct (re_match actor_pattern line) as [m|].
  { destruct (group m 1); simpl; intros [= <-]; simpl; eauto 6. }
  destruct (re_match description_pattern line) as [m|]; [|done].
  destruct (group m 1); simpl; done.
Qed.

Lemma heap_ok_describe (h : list Dict) (desc : string) (a : nat) :
  heap_ok h → heap_ok (alter (set_description desc) a h).
Proof.
  intros Hh x d. rewrite list_lookup_alter, length_alter.
  case_decide as E; [subst x|apply Hh].
  destruct (h !! a) as [d0|] eqn:E0; simpl; [|done].
  intros [= <-]. apply (Hh a d0 E0).
Qed.

Lemma heap_ok_attach (h : list Dict) (d : Dict) (parent : nat) :
  heap_ok h → parent < length h → fresh d →
  heap_ok (alter (append_part (length h)) parent (h ++ [d])).
Proof.
  intros Hh Hp (Ht & Hn & _ & Hparts) x dx.
  rewrite list_lookup_alter, length_alter, length_app. simpl.
  case_decide as E.
  - subst x. rewrite lookup_app_l by done.
    destruct (h !! parent) as [d0|] eqn:E0; simpl; [|done].
    intros [= <-]. destruct (Hh parent d0 E0) as [H1 H2]. split; [done|].
    simpl. intros cs c [= <-] Hc. apply elem_of_app in Hc as [Hc|Hc].
    + destruct (d_parts d0) as [cs0|] eqn:Ecs; simpl in Hc.
      * specialize (H2 cs0 c eq_refl Hc). lia.
      * by apply elem_of_nil in Hc.
    + apply list_elem_of_singleton in Hc as ->. lia.
  - intros Hx. apply lookup_app_Some in Hx as [Hx|[Hlen Hx]].
    + destruct (Hh x dx Hx) as [H1 H2]. split; [done|].
      intros cs c Hcs Hc. specialize (H2 cs c Hcs Hc). lia.
    + apply list_lookup_singleton_Some in Hx as [Hx ->].
      split; [done|]. intros cs c Hcs Hc.
      destruct Hparts as [Hparts|Hparts]; rewrite Hparts in Hcs; [done|].
      injection Hcs as <-. by apply elem_of_nil in Hc.
Qed.

Lemma scopes_head (kept : list (nat * nat)) :
  ∃ i a rest, kept ++ [sentinel] = (i, a) :: rest.
Proof.
  destruct kept as [|[i a] kept]; simpl; [exists 0, 0, []|exists i, a, (kept ++ [sentinel])]; done.
Qed.

(** A step on a state of the loop never raises and gives a state of the
    loop. *)
Lemma step_wf (st : PState) (line : string) :
  wf st → ∃ st', SysML2Mermaid.step st line = Some st' ∧ wf st'.
Proof.
  intros Hwf. rewrite step_action.
  destruct (is_blank line); [eauto|].
  destruct (action_of_total line) as [act Hact]. rewrite Hact. simpl.
  destruct (scopes_for_split st line Hwf) as (closed & kept & Hs & Hc & Hk & Hdk & ->).
  destruct (scopes_head kept) as (i & top & rest & Hhd).
  pose proof (wf_addr st Hwf) as Haddr. rewrite Hs in Haddr.
  apply Forall_app in Haddr as [_ Haddr].
  assert (Htop : top < length (heap st)).
  { rewrite Hhd in Haddr. by apply Forall_cons in Haddr as [? _]. }
  destruct act as [d|desc|]; simpl; rewrite Hhd; simpl; eexists; (split; [done|]).
  - apply action_of_fresh in Hact. rewrite <- Hhd. constructor; simpl.
    + exists ((indent_of line, length (heap st)) :: kept). split_and!; [done| |].
      * split; [|done]. done.
      * constructor; [done|]. eapply Forall_impl; [exact Hk|]. simpl; lia.
    + rewrite length_alter, length_app. simpl. constructor; [simpl; lia|].
      eapply Forall_impl; [exact Haddr|]. simpl; lia.
    + apply heap_ok_attach; [apply Hwf|done|done].
  - rewrite <- Hhd. constructor; simpl.
    + exists kept. split_and!; [done|done|].
      eapply Forall_impl; [exact Hk|]. simpl; lia.
    + by rewrite length_alter.
    + apply heap_ok_describe, Hwf.
  - rewrite <- Hhd. constructor; simpl.
    + exists kept. split_and!; [done|done|].
      eapply Forall_impl; [exact Hk|]. simpl; lia.
    + done.
    + apply Hwf.
Qed.

Lemma init_wf : wf init.
Proof.
  constructor; simpl.
  - exists []. split_and!; done.
  - repeat constructor.
  - intros [|a] d; simpl; [|done]. intros [= <-]. split; [lia|].
    simpl. intros cs c [= <-] Hc. by apply elem_of_nil in Hc.
Qed.

Lemma run_wf (lines : list string) :
  ∀ st, wf st → ∃ st', SysML2Mermaid.run st lines = Some st' ∧ wf st'.
Proof.
  induction lines as [|line rest IH]; intros st Hwf; simpl; [eauto|].
  destruct (step_wf st line Hwf) as (st1 & -> & Hwf1). simpl. auto.
Qed.

Lemma run_app (l1 l2 : list string) :
  ∀ st, SysML2Mermaid.run st (l1 ++ l2) =
        st' ← SysML2Mermaid.run st l1; SysML2Mermaid.run st' l2.
Proof.
  induction l1 as [|line rest IH]; intros st; simpl; [done|].
  destruct (SysML2Mermaid.step st line); simpl; auto.
Qed.

(** ** Reading the tree off the store *)

Lemma reify_node_total (h : list Dict) :
  heap_ok h →
  ∀ fuel a, 0 < a → a < length h → length h - a ≤ fuel →
    is_Some (reify_node fuel h a).
Proof.
  intros Hh fuel. induction fuel as [|fuel IH]; intros a Ha Hlt Hf; [lia|].
  simpl. destruct (lookup_lt_is_Some_2 h a Hlt) as [d Hd]. rewrite Hd. simpl.
  destruct (Hh a d Hd) as [Hnamed Hkids].
  destruct (Hnamed Ha) as [[t ->] [n ->]]. simpl.
  destruct (d_parts d) as [cs|] eqn:Ecs; simpl; [|eauto].
  assert (Hall : is_Some (mapM (reify_node fuel h) cs)).
  { apply mapM_is_Some_2, Forall_forall. intros c Hc. simpl.
    specialize (Hkids cs c eq_refl Hc). apply IH; lia. }
  destruct Hall as [ns ->]. simpl. eauto.
Qed.

Lemma reify_total (h : list Dict) :
  heap_ok h → 0 < length h → is_Some (reify h).
Proof.
  intros Hh Hlen. unfold reify.
  destruct (lookup_lt_is_Some_2 h 0 Hlen) as [d Hd]. rewrite Hd. simpl.
  destruct (Hh 0 d Hd) as [_ Hkids].
  destruct (d_parts d) as [cs|] eqn:Ecs; simpl; [|eauto].
  assert (Hall : is_Some (mapM (reify_node (length h) h) cs)).
  { apply mapM_is_Some_2, Forall_forall. intros c Hc. simpl.
    specialize (Hkids cs c eq_refl Hc). apply reify_node_total; [done|lia..]. }
  destruct Hall as [ns ->]. simpl. eauto.
Qed.

Lemma wf_heap_nonempty (st : PState) : wf st → 0 < length (heap st).
Proof.
  intros [(open & Hs & _) Haddr _]. rewrite Hs in Haddr.
  apply Forall_app in Haddr as [_ Haddr]. apply Forall_cons in Haddr as [H _].
  simpl in H. lia.
Qed.

(** The parser returns a tree on every text. *)
Lemma parse_total (text : string) :
  is_Some (SysML2Mermaid.parse_indented_model text).
Proof.
  unfold SysML2Mermaid.parse_indented_model, SysML2Mermaid.exec.
  destruct (run_wf (splitlines text) init init_wf) as (st & -> & Hwf). simpl.
  apply reify_total; [apply Hwf|by apply wf_heap_nonempty].
Qed.

(** ** What a line does *)

Lemma action_warn_iff (line : string) :
  action_of line = Some Warn ↔ unmatched line = true.
Proof.
  unfold action_of, unmatched.
  destruct (re_match package_pattern line) as [m|].
  { destruct (group m 1); simpl; split; done. }
  destruct (re_match part_pattern line) as [m|].
  { destruct (group m 1); simpl; [|split; done].
    destruct (group m 3); simpl; split; done. }
  destruct (re_match actor_pattern line) as [m|].
  { destruct (group m 1); simpl; split; done. }
  destruct (re_match description_pattern line) as [m|]; [|done].
  destruct (group m 1); simpl; split; done.
Qed.

Lemma action_declares (line : string) (a : action) :
  action_of line = Some a →
  declares line = match a with Create _ => true | _ => false end.
Proof.
  unfold action_of, declares.
  destruct (re_match package_pattern line) as [m|].
  { destruct (group m 1); simpl; [|done]. by intros [= <-]. }
  destruct (re_match part_pattern line) as [m|].
  { destruct (group m 1); simpl; [|done].
    destruct (group m 3); simpl; [|done]. by intros [= <-]. }
  destruct (re_match actor_pattern line) as [m|].
  { destruct (group m 1); simpl; [|done]. by intros [= <-]. }
  destruct (re_match description_pattern line) as [m|]; [|by intros [= <-]].
  destruct (group m 1); simpl; [|done]. by intros [= <-].
Qed.

Lemma step_stdout (st st' : PState) (line : string) :
  wf st → SysML2Mermaid.step st line = Some st' →
  stdout st' = stdout st ++ (if unhandled line then [warning line] else []).
Proof.
  intros Hwf. rewrite step_action. unfold unhandled.
  destruct (is_blank line); simpl.
  { intros [= <-]. by rewrite app_nil_r. }
  destruct (action_of_total line) as [act Hact]. rewrite Hact. simpl.
  destruct (scopes_for_split st line Hwf) as (closed & kept & _ & _ & _ & _ & ->).
  destruct (scopes_head kept) as (i & top & rest & ->).
  destruct act as [d|desc|]; simpl; intros [= <-]; simpl.
  - destruct (unmatched line) eqn:E; [|by rewrite app_nil_r].
    apply action_warn_iff in E. congruence.
  - destruct (unmatched line) eqn:E; [|by rewrite app_nil_r].
    apply action_warn_iff in E. congruence.
  - apply action_warn_iff in Hact. by rewrite Hact.
Qed.

Lemma run_stdout (lines : list string) :
  ∀ st st', wf st → SysML2Mermaid.run st lines = Some st' →
    stdout st' = stdout st ++ map warning (List.filter unhandled lines).
Proof.
  induction lines as [|line rest IH]; intros st st' Hwf; simpl.
  { intros [= <-]. by rewrite app_nil_r. }
  destruct (step_wf st line Hwf) as (st1 & Hstep & Hwf1). rewrite Hstep. simpl.
  intros Hrun. rewrite (IH st1 st' Hwf1 Hrun), (step_stdout st st1 line Hwf Hstep).
  rewrite <- app_assoc. f_equal. by destruct (unhandled line).
Qed.

(** C1, as amended: on every text the parser returns the tree alone, and
    what it has printed by then is one line
    [Warning: Unhandled line: <line>] for each non-blank line that matches
    none of the four patterns, in the order of the text; so the number of
    warnings printed is the number of such lines. *)
Theorem C1_unhandled_lines_are_printed (text : string) :
  is_Some (SysML2Mermaid.parse_indented_model text) ∧
  ∃ out, SysML2Mermaid.printed text = Some out ∧
    out = map warning (List.filter unhandled (splitlines text)) ∧
    length out = length (List.filter unhandled (splitlines text)).
Proof.
  split; [apply parse_total|].
  unfold SysML2Mermaid.printed, SysML2Mermaid.exec.
  destruct (run_wf (splitlines text) init init_wf) as (st & Hrun & Hwf).
  rewrite Hrun. simpl. eexists; split; [done|].
  rewrite (run_stdout _ _ _ init_wf Hrun). simpl.
  split; [done|]. by rewrite length_map.
Qed.

(** C1 as stated fails: the parser returns the tree and nothing else, and
    the diagnostic goes to the standard output under another wording. *)
Lemma C1_diagnostic_is_printed_not_returned :
  SysML2Mermaid.parse_indented_model "foo" = Some (mkTree None (Some [])) ∧
  SysML2Mermaid.printed "foo" = Some ["Warning: Unhandled line: foo"] ∧
  SysML2Mermaid.printed "foo"
    ≠ Some (map diagnostic (List.filter unhandled (splitlines "foo"))).
Proof.
  split; [reflexivity|]. split; [reflexivity|].
  vm_compute. discriminate.
Qed.

(** C2: before a non-blank line of width [w] is processed, the parser has
    removed from the stack exactly the entries whose recorded indent is
    [>= w], down to the sentinel, which stays; whatever [w] is, every
    entry left above the sentinel is shallower than [w].  The test on
    [prev_indent] does not change this.  A line that declares a node
    becomes a child of the entry then on top, the nearest open scope
    shallower than [w] or else the root: the dictionary the line creates
    is stored at a new address, that address is appended to the [parts] of
    the parent, which keeps its other keys, no other dictionary changes,
    and the new node is pushed.  A line that declares nothing adds no
    dictionary. *)
Theorem C2_scopes_closed_by_indentation (pre : list string) (line : string) :
  is_blank line = false →
  ∃ st st' closed kept,
    SysML2Mermaid.run init pre = Some st ∧
    SysML2Mermaid.step st line = Some st' ∧
    SysML2dot.step st line = Some st' ∧
    closes (indent_of line) (stack st) closed kept ∧
    pop_scopes (indent_of line) (stack st) = kept ++ [sentinel] ∧
    scopes_for st line = kept ++ [sentinel] ∧
    if declares line
    then ∃ i parent pd d,
           head (kept ++ [sentinel]) = Some (i, parent) ∧
           action_of line = Some (Create d) ∧
           heap st !! parent = Some pd ∧
           length (heap st') = S (length (heap st)) ∧
           heap st' !! length (heap st) = Some d ∧
           (∃ pd', heap st' !! parent = Some pd' ∧
                   d_parts pd' = Some (default [] (d_parts pd) ++ [length (heap st)]) ∧
                   last (default [] (d_parts pd')) = Some (length (heap st)) ∧
                   d_type pd' = d_type pd ∧ d_name pd' = d_name pd ∧
                   d_alias pd' = d_alias pd ∧ d_description pd' = d_description pd) ∧
           (∀ a, a ≠ parent → a < length (heap st) → heap st' !! a = heap st !! a) ∧
           linked (heap st) (heap st') parent (length (heap st)) ∧
           stack st' = (indent_of line, length (heap st)) :: kept ++ [sentinel]
    else stack st' = kept ++ [sentinel] ∧ length (heap st') = length (heap st).
Proof.
  intros Hblank.
  destruct (run_wf pre init init_wf) as (st & Hrun & Hwf).
  destruct (step_wf st line Hwf) as (st' & Hstep & _).
  destruct (scopes_for_split st line Hwf) as (closed & kept & Hs & Hc & Hk & _ & Hsc).
  exists st, st', closed, kept.
  split_and!; [done|done|by rewrite dot_step_eq|done|by rewrite <- scopes_for_pop|done|].
  rewrite step_action, Hblank in Hstep.
  destruct (action_of_total line) as [act Hact]. rewrite Hact in Hstep. simpl in Hstep.
  rewrite (action_declares line act Hact). rewrite Hsc in Hstep.
  destruct (scopes_head kept) as (i & top & rest & Hhd).
  pose proof (wf_addr st Hwf) as Haddr. rewrite Hs in Haddr.
  apply Forall_app in Haddr as [_ Haddr]. rewrite Hhd in Haddr, Hstep.
  apply Forall_cons in Haddr as [Htop _]. simpl in Htop.
  destruct act as [d|desc|]; simpl in Hstep; injection Hstep as <-; simpl;
    [|by rewrite length_alter|done].
  destruct (lookup_lt_is_Some_2 (heap st) top Htop) as [pd Hpd].
  assert (Hparent : alter (append_part (length (heap st))) top (heap st ++ [d]) !! top
                    = Some (append_part (length (heap st)) pd)).
  { by rewrite list_lookup_alter_eq, lookup_app_l, Hpd. }
  exists i, top, pd, d. split_and!.
  - by rewrite Hhd.
  - done.
  - done.
  - rewrite length_alter, length_app. simpl. lia.
  - rewrite list_lookup_alter_ne by lia. by rewrite list_lookup_middle.
  - exists (append_part (length (heap st)) pd). split_and!; [done|done| |done..].
    simpl. by rewrite last_snoc.
  - intros a Ha Hlt. rewrite list_lookup_alter_ne by done. by rewrite lookup_app_l.
  - by exists pd.
  - by rewrite Hhd.
Qed.

(** C2 at a part that follows a deeper part under a package. *)
Lemma C2_scopes_closed_witness :
  is_blank "  part X : T" = false ∧
  SysML2Mermaid.parse_indented_model
    (str_join nls ["package A"; "    part B : T"; "  part X : T"])
  = Some (mkTree None (Some [mkNode "Package" "A" None None
                               (Some [mkNode "T" "B" None None None;
                                      mkNode "T" "X" None None None])])) ∧
  ∃ st st' closed kept,
    SysML2Mermaid.run init ["package A"; "    part B : T"] = Some st ∧
    SysML2Mermaid.step st "  part X : T" = Some st' ∧
    SysML2dot.step st "  part X : T" = Some st' ∧
    closes 2 (stack st) closed kept ∧
    pop_scopes 2 (stack st) = kept ++ [sentinel] ∧
    scopes_for st "  part X : T" = kept ++ [sentinel] ∧
    ∃ i parent pd d,
      head (kept ++ [sentinel]) = Some (i, parent) ∧
      action_of "  part X : T" = Some (Create d) ∧
      heap st !! parent = Some pd ∧
      length (heap st') = S (length (heap st)) ∧
      heap st' !! length (heap st) = Some d ∧
      (∃ pd', heap st' !! parent = Some pd' ∧
              d_parts pd' = Some (default [] (d_parts pd) ++ [length (heap st)]) ∧
              last (default [] (d_parts pd')) = Some (length (heap st)) ∧
              d_type pd' = d_type pd ∧ d_name pd' = d_name pd ∧
              d_alias pd' = d_alias pd ∧ d_description pd' = d_description pd) ∧
      (∀ a, a ≠ parent → a < length (heap st) → heap st' !! a = heap st !! a) ∧
      linked (heap st) (heap st') parent (length (heap st)) ∧
      stack st' = (2, length (heap st)) :: kept ++ [sentinel].
Proof.
  split; [reflexivity|]. split; [reflexivity|].
  exact (C2_scopes_closed_by_indentation
           ["package A"; "    part B : T"] "  part X : T" eq_refl).
Defined.

(** A non-blank line closes scopes by its width and then performs its
    action on the stack that is left, whose top is a live address. *)
Lemma step_perform (st : PState) (line : string) (act : action) :
  wf st → is_blank line = false → action_of line = Some act →
  ∃ closed kept i top rest,
    closes (indent_of line) (stack st) closed kept ∧
    kept ++ [sentinel] = (i, top) :: rest ∧
    top < length (heap st) ∧
    SysML2Mermaid.step st line = perform act line ((i, top) :: rest) st.
Proof.
  intros Hwf Hblank Hact.
  destruct (scopes_for_split st line Hwf) as (closed & kept & Hs & Hc & Hk & _ & Hsc).
  destruct (scopes_head kept) as (i & top & rest & Hhd).
  exists closed, kept, i, top, rest. split_and!; [done..| |].
  - pose proof (wf_addr st Hwf) as Haddr. rewrite Hs in Haddr.
    apply Forall_app in Haddr as [_ Haddr]. rewrite Hhd in Haddr.
    by apply Forall_cons in Haddr as [? _].
  - rewrite step_action, Hblank, Hact. simpl. by rewrite Hsc, Hhd.
Qed.

Lemma declares_action (line : string) :
  declares line = true → ∃ d, action_of line = Some (Create d).
Proof.
  intros H. destruct (action_of_total line) as [act Hact].
  rewrite (action_declares line act Hact) in H. destruct act; eauto; done.
Qed.

Lemma closes_nothing (w i a : nat) (rest closed kept : list (nat * nat)) :
  i < w → closes w ((i, a) :: rest) closed kept → closed = [].
Proof.
  intros Hlt (Hs & Hc & _). destruct closed as [|e closed]; [done|].
  simpl in Hs. injection Hs as <- _. apply Forall_cons in Hc as [Hc _].
  simpl in Hc. lia.
Qed.

(** ** The flowchart renderer *)

(** A package writes its children between [subgraph] and [end], and then
    the loop that ends [process_node] writes them again. *)
Lemma process_node_package (name : string) (alias description : option string)
    (children : list Node) (level : nat) :
  let nested := flat_map (fun child => SysML2Mermaid.process_node child (level + 1)) children in
  SysML2Mermaid.process_node (mkNode "Package" name alias description (Some children)) level =
  ([times "    " level +:+ "subgraph " +:+ replace_space name +:+ "[" +:+ name +:+ "]"]
     ++ nested ++ [times "    " level +:+ "end"])
  ++ nested.
Proof. reflexivity. Qed.

(** C3 on a package with one part: the code writes the part once inside
    the subgraph and once more after its [end], where the claim has every
    child written exactly once. *)
Theorem C3_package_child_is_written_twice :
  let text := str_join nls ["package P"; "  part F : Sensor"] in
  SysML2Mermaid.parse_indented_model text
    = Some (mkTree None (Some [mkNode "Package" "P" None None
                                 (Some [mkNode "Sensor" "F" None None None])])) ∧
  SysML2Mermaid.flowchart_lines <$> SysML2Mermaid.parse_indented_model text
    = Some ["flowchart TD"; "    subgraph P[P]"; "        F[F]"; "    end"; "        F[F]"] ∧
  count_occ string_dec
    (default [] (SysML2Mermaid.flowchart_lines <$> SysML2Mermaid.parse_indented_model text))
    "        F[F]" = 2.
Proof. split_and!; reflexivity. Qed.

(** The scenario of the specification: the label of [Sense] is written
    twice, and so is the one of [Lidar]. *)
Lemma spec_scenario_labels_written_twice :
  let text :=
    str_join nls ["package DroneFunctions";
                  "  part Sense as S : LogicalFunction";
                  "    description = " +:+ quoted "Detect obstacles";
                  "package DroneLogicalArchitecture";
                  "  part Lidar : LogicalComponent"] in
  let out :=
    default [] (SysML2Mermaid.flowchart_lines <$> SysML2Mermaid.parse_indented_model text) in
  count_occ string_dec out
    ("        Sense["
     +:+ SysML2Mermaid.html_label_two_compartment "Sense" "Detect obstacles" 120 15 30
     +:+ "]") = 2 ∧
  count_occ string_dec out
    ("        Lidar[" +:+ SysML2Mermaid.html_label_bottom_only "Lidar" 150 10 40 +:+ "]") = 2.
Proof. split; vm_compute; reflexivity. Qed.

(** ** Which nodes open a scope *)

Lemma declared_slot (line : string) (d : Dict) :
  action_of line = Some (Create d) →
  d_parts d = Some [] →
  ∃ t, d_type d = Some t ∧
       str_in t ["Package"; "LogicalComponent"; "LogicalFunction"; "LogicalActor"] = true.
Proof.
  unfold action_of, part_slot.
  destruct (re_match package_pattern line) as [m|].
  { destruct (group m 1); simpl; [|done]. intros [= <-] _. simpl. eauto. }
  destruct (re_match part_pattern line) as [m|].
  { destruct (group m 1); simpl; [|done]. destruct (group m 3) as [t|]; simpl; [|done].
    intros [= <-]. simpl. case_bool_decide as E; [|done]. intros _.
    exists (strip t). split; [done|].
    apply elem_of_cons in E as [->|E]; [reflexivity|].
    apply elem_of_cons in E as [->|E]; [reflexivity|].
    apply elem_of_cons in E as [->|E]; [reflexivity|].
    by apply elem_of_nil in E. }
  destruct (re_match actor_pattern line) as [m|].
  { destruct (group m 1); simpl; [|done]. intros [= <-]. done. }
  destruct (re_match description_pattern line) as [m|]; [|done].
  destruct (group m 1); simpl; done.
Qed.

(** C4 as stated fails: a part of a type outside the four kinds is pushed
    and the deeper line below it becomes its child (in SysML2UML.py too,
    when its line ends with an opening brace). *)
Lemma C4_part_of_another_type_has_a_child :
  SysML2Mermaid.parse_indented_model
    (str_join nls ["part X : Sensor"; "  part Y : Motor"])
  = Some (mkTree None (Some [mkNode "Sensor" "X" None None
                               (Some [mkNode "Motor" "Y" None None None])])) ∧
  SysML2UML.parse_indented_model
    (str_join nls ["part X : Sensor {"; "  part Y : Motor"; "}"])
  = Some (mkTree None (Some [mkNode "Sensor" "X" None None
                               (Some [mkNode "Motor" "Y" None None None])])).
Proof. split; reflexivity. Qed.

(** ** Lines that declare nothing *)

Lemma unhandled_warn (line : string) :
  unhandled line = true → is_blank line = false ∧ action_of line = Some Warn.
Proof.
  unfold unhandled. intros H. apply andb_true_iff in H as [H1 H2].
  split; [by apply negb_true_iff|by apply action_warn_iff].
Qed.

(** C5, as amended: a non-blank line that matches none of the four
    patterns adds no node and changes no dictionary, and prints one
    warning; like every non-blank line it first closes the scopes whose
    recorded indent is [>=] its own width, so the stack is left as it was
    only when no open scope is that deep, and it becomes the previous
    line for the next one. *)
Theorem C5_unhandled_line_closes_scopes_only (pre : list string) (line : string) :
  unhandled line = true →
  ∃ st st' closed kept,
    SysML2Mermaid.run init pre = Some st ∧
    SysML2Mermaid.step st line = Some st' ∧
    heap st' = heap st ∧
    stdout st' = stdout st ++ [warning line] ∧
    prev_indent st' = indent_of line ∧
    closes (indent_of line) (stack st) closed kept ∧
    stack st' = kept ++ [sentinel] ∧
    stack st = closed ++ stack st' ∧
    (closed = [] → stack st' = stack st).
Proof.
  intros H. apply unhandled_warn in H as [Hblank Hact].
  destruct (run_wf pre init init_wf) as (st & Hrun & Hwf).
  destruct (step_perform st line _ Hwf Hblank Hact)
    as (closed & kept & i & top & rest & Hcl & Hhd & _ & Hstep).
  simpl in Hstep. unfold warn in Hstep.
  eexists st, _, closed, kept. split_and!; [done|exact Hstep|done..| | |]; simpl.
  - done.
  - destruct Hcl as (-> & _). by rewrite Hhd.
  - intros ->. destruct Hcl as (-> & _). by rewrite Hhd.
Qed.

(** C5 at a dedented line under two open packages. *)
Lemma C5_unhandled_line_witness :
  unhandled "foo" = true ∧
  ∃ st st' closed kept,
    SysML2Mermaid.run init ["package A"; "  package B"] = Some st ∧
    SysML2Mermaid.step st "foo" = Some st' ∧
    heap st' = heap st ∧
    stdout st' = stdout st ++ [warning "foo"] ∧
    prev_indent st' = indent_of "foo" ∧
    closes (indent_of "foo") (stack st) closed kept ∧
    stack st' = kept ++ [sentinel] ∧
    stack st = closed ++ stack st' ∧
    (closed = [] → stack st' = stack st).
Proof.
  split; [reflexivity|].
  apply (C5_unhandled_line_closes_scopes_only ["package A"; "  package B"] "foo").
  reflexivity.
Defined.

(** C5 as stated fails: a dedented line that matches no pattern empties
    the stack down to the sentinel, and the part that follows lands under
    the root instead of under the package that was open. *)
Lemma C5_dedented_unhandled_line_changes_the_stack :
  stack <$> SysML2Mermaid.run init ["package A"; "  package B"]
    = Some [(2, 2); (0, 1); (0, 0)] ∧
  stack <$> SysML2Mermaid.run init ["package A"; "  package B"; "foo"]
    = Some [(0, 0)] ∧
  SysML2Mermaid.parse_indented_model
    (str_join nls ["package A"; "  package B"; "    part C : T"])
  = Some (mkTree None (Some [mkNode "Package" "A" None None
            (Some [mkNode "Package" "B" None None
                     (Some [mkNode "T" "C" None None None])])])) ∧
  SysML2Mermaid.parse_indented_model
    (str_join nls ["package A"; "  package B"; "foo"; "    part C : T"])
  = Some (mkTree None (Some [mkNode "Package" "A" None None
                               (Some [mkNode "Package" "B" None None (Some [])]);
                             mkNode "T" "C" None None None])).
Proof. split_and!; reflexivity. Qed.

Lemma describes_action (line : string) (m : captures) (X : string) :
  declares line = false →
  re_match description_pattern line = Some m → group m 1 = Some X →
  action_of line = Some (Describe (strip X)).
Proof.
  unfold declares, action_of.
  destruct (re_match package_pattern line); [done|].
  destruct (re_match part_pattern line); [done|].
  destruct (re_match actor_pattern line); [done|].
  intros _ -> ->. done.
Qed.

(** C6, as amended: a line [description = "X"] never raises; it sets the
    description of the scope that is innermost once the scopes whose
    recorded indent is [>=] the line's own width are closed, that is the
    nearest preceding declaration still open at a strictly smaller indent,
    or the root when there is none, to [X] without its leading and
    trailing whitespace, whatever description was there before; nothing
    else changes. *)
Theorem C6_description_goes_to_the_innermost_open_scope
    (pre : list string) (line : string) (m : captures) (X : string) :
  is_blank line = false → declares line = false →
  re_match description_pattern line = Some m → group m 1 = Some X →
  ∃ st st' closed kept i target d,
    SysML2Mermaid.run init pre = Some st ∧
    SysML2Mermaid.step st line = Some st' ∧
    closes (indent_of line) (stack st) closed kept ∧
    head (kept ++ [sentinel]) = Some (i, target) ∧
    (kept = [] → target = 0) ∧
    heap st !! target = Some d ∧
    heap st' = <[target := set_description (strip X) d]> (heap st) ∧
    d_description (set_description (strip X) d) = Some (strip X) ∧
    stack st' = kept ++ [sentinel] ∧
    stdout st' = stdout st.
Proof.
  intros Hblank Hdecl Hm HX.
  pose proof (describes_action line m X Hdecl Hm HX) as Hact.
  destruct (run_wf pre init init_wf) as (st & Hrun & Hwf).
  destruct (step_perform st line _ Hwf Hblank Hact)
    as (closed & kept & i & top & rest & Hcl & Hhd & Htop & Hstep).
  simpl in Hstep.
  destruct (lookup_lt_is_Some_2 (heap st) top Htop) as [d Hd].
  eexists st, _, closed, kept, i, top, d.
  split_and!; [done|exact Hstep|done|by rewrite Hhd| |done| |done|by rewrite Hhd|done].
  - intros ->. simpl in Hhd. by injection Hhd as <- <- _.
  - simpl. rewrite list_insert_alter. apply list_alter_ext; [|done].
    intros d' Hd'. congruence.
Qed.

(** C6 at a description written at the indent of a part. *)
Lemma C6_description_witness :
  let line := "  description = " +:+ quoted "first" in
  is_blank line = false ∧ declares line = false ∧
  re_match description_pattern line = Some [(1, "first")] ∧
  group [(1, "first")] 1 = Some "first" ∧
  ∃ st st' closed kept i target d,
    SysML2Mermaid.run init ["package A"; "  part B : T"] = Some st ∧
    SysML2Mermaid.step st line = Some st' ∧
    closes (indent_of line) (stack st) closed kept ∧
    head (kept ++ [sentinel]) = Some (i, target) ∧
    (kept = [] → target = 0) ∧
    heap st !! target = Some d ∧
    heap st' = <[target := set_description (strip "first") d]> (heap st) ∧
    d_description (set_description (strip "first") d) = Some (strip "first") ∧
    stack st' = kept ++ [sentinel] ∧
    stdout st' = stdout st.
Proof.
  split_and!; [reflexivity..|].
  apply (C6_description_goes_to_the_innermost_open_scope
           ["package A"; "  part B : T"]
           ("  description = " +:+ quoted "first") [(1, "first")] "first");
    reflexivity.
Defined.

(** C6 as stated fails: a description at the indentation of the
    declaration before it is not given to that declaration but to the
    scope around it (the root for the package [A], the package for the
    part [B]); and the text is stored trimmed. *)
Lemma C6_description_at_the_same_indent_skips_the_declaration :
  SysML2Mermaid.parse_indented_model
    (str_join nls ["package A"; "description = " +:+ quoted "X"])
  = Some (mkTree (Some "X") (Some [mkNode "Package" "A" None None (Some [])])) ∧
  SysML2Mermaid.parse_indented_model
    (str_join nls ["package A"; "  part B : T"; "  description = " +:+ quoted "X"])
  = Some (mkTree None (Some [mkNode "Package" "A" None (Some "X")
                               (Some [mkNode "T" "B" None None None])])) ∧
  SysML2Mermaid.parse_indented_model
    (str_join nls ["package A"; "  description = " +:+ quoted " X "])
  = Some (mkTree None (Some [mkNode "Package" "A" None (Some "X") (Some [])])).
Proof. split_and!; reflexivity. Qed.

(** ** The cluster-graph renderer *)

Lemma str_eqb_eq (a b : string) : str_eqb a b = true ↔ a = b.
Proof. apply String.eqb_eq. Qed.

Lemma visit_functions (st : SysML2dot.Top) (child : Node) :
  SysML2dot.top_functions (SysML2dot.visit st child) =
  if named "DroneFunctions" child
  then Some (SysML2dot.generate_dot child 4 (SysML2dot.counter st)).1.1
  else SysML2dot.top_functions st.
Proof.
  unfold SysML2dot.visit, named.
  destruct (SysML2dot.generate_dot child 4 (SysML2dot.counter st)) as [[rep ls] c].
  simpl. by destruct (str_eqb (strip (name child)) "DroneFunctions").
Qed.

Lemma visit_architecture (st : SysML2dot.Top) (child : Node) :
  SysML2dot.top_architecture (SysML2dot.visit st child) =
  if named "DroneLogicalArchitecture" child
  then Some (SysML2dot.generate_dot child 4 (SysML2dot.counter st)).1.1
  else SysML2dot.top_architecture st.
Proof.
  unfold SysML2dot.visit, named.
  destruct (SysML2dot.generate_dot child 4 (SysML2dot.counter st)) as [[rep ls] c].
  simpl. destruct (str_eqb (strip (name child)) "DroneFunctions") eqn:E; [|done].
  apply str_eqb_eq in E. by rewrite E.
Qed.

(** After the loop a variable set at the children that satisfy [hit]
    holds what the last of them gave it. *)
Lemma last_hit (get : SysML2dot.Top -> option string) (hit : Node -> bool) :
  (∀ st child, get (SysML2dot.visit st child) =
     if hit child
     then Some (SysML2dot.generate_dot child 4 (SysML2dot.counter st)).1.1
     else get st) →
  ∀ cs st,
    if existsb hit cs
    then ∃ pre child post, cs = pre ++ child :: post ∧ hit child = true ∧
           existsb hit post = false ∧
           get (fold_left SysML2dot.visit cs st) =
           Some (SysML2dot.generate_dot child 4
                   (SysML2dot.counter (fold_left SysML2dot.visit pre st))).1.1
    else get (fold_left SysML2dot.visit cs st) = get st.
Proof.
  intros Hvisit cs. induction cs as [|c cs IH]; intros st; simpl; [done|].
  specialize (IH (SysML2dot.visit st c)).
  destruct (existsb hit cs) eqn:Ecs.
  - destruct IH as (pre & child & post & -> & Hhit & Hpost & Hget).
    rewrite orb_true_r. exists (c :: pre), child, post. by split_and!.
  - rewrite orb_false_r. rewrite IH, Hvisit.
    destruct (hit c) eqn:Ec; [|done].
    exists [], c, cs. by split_and!.
Qed.

(** The representative node is the second identifier a call draws. *)
Lemma generate_dot_rep (child : Node) (indent c : nat) :
  (SysML2dot.generate_dot child indent c).1.1 = "id" +:+ pretty (c + 1 + 1).
Proof.
  destruct child as [typ name alias description parts]. simpl.
  repeat first
    [ reflexivity
    | match goal with
      | |- context [let '(_, _) := ?x in _] => destruct x as [? ?]
      | |- context [if str_eqb ?a ?b then _ else _] => destruct (str_eqb a b)
      | |- context [match parts with Some _ => _ | None => _ end] => destruct parts as [[|? ?]|]
      end ].
Qed.

Lemma rep_truthy (child : Node) (indent c : nat) :
  truthy (Some (SysML2dot.generate_dot child indent c).1.1)
  = Some (SysML2dot.generate_dot child indent c).1.1.
Proof. by rewrite generate_dot_rep. Qed.

Lemma ordering_edge_cases (tree : Tree) :
  if existsb (named "DroneFunctions") (top_level tree)
     && existsb (named "DroneLogicalArchitecture") (top_level tree)
  then ∃ pre1 f post1 pre2 a post2,
         top_level tree = pre1 ++ f :: post1 ∧
         named "DroneFunctions" f = true ∧
         existsb (named "DroneFunctions") post1 = false ∧
         top_level tree = pre2 ++ a :: post2 ∧
         named "DroneLogicalArchitecture" a = true ∧
         existsb (named "DroneLogicalArchitecture") post2 = false ∧
         SysML2dot.ordering_edge (SysML2dot.traverse tree) =
           [SysML2dot.invisible_edge (rep_after pre1 f) (rep_after pre2 a)]
  else SysML2dot.ordering_edge (SysML2dot.traverse tree) = [].
Proof.
  unfold SysML2dot.ordering_edge, SysML2dot.traverse, rep_after.
  pose proof (last_hit SysML2dot.top_functions (named "DroneFunctions")
                visit_functions (top_level tree) start) as HF.
  pose proof (last_hit SysML2dot.top_architecture (named "DroneLogicalArchitecture")
                visit_architecture (top_level tree) start) as HA.
  fold start.
  destruct (existsb (named "DroneFunctions") (top_level tree)).
  - destruct HF as (pre1 & f & post1 & Hf1 & Hf2 & Hf3 & ->).
    rewrite rep_truthy.
    destruct (existsb (named "DroneLogicalArchitecture") (top_level tree)); simpl.
    + destruct HA as (pre2 & a & post2 & Ha1 & Ha2 & Ha3 & ->).
      rewrite rep_truthy.
      exists pre1, f, post1, pre2, a, post2. by split_and!.
    + by rewrite HA.
  - simpl. by rewrite HF.
Qed.

(** C7, as amended: the cluster-graph renderer compares the names of the
    top-level children after trimming their leading and trailing
    whitespace.  When one of them is [DroneFunctions] and one is
    [DroneLogicalArchitecture] under that comparison, it writes exactly
    one invisible edge, after the clusters and before the closing brace,
    from the representative node of the last child so named to that of
    the last child named the other way; when either name is missing it
    writes none. *)
Theorem C7_ordering_edge_between_the_two_packages (tree : Tree) :
  SysML2dot.dot_lines tree =
    SysML2dot.lines (SysML2dot.traverse tree)
    ++ SysML2dot.ordering_edge (SysML2dot.traverse tree) ++ ["}"] ∧
  if existsb (named "DroneFunctions") (top_level tree)
     && existsb (named "DroneLogicalArchitecture") (top_level tree)
  then ∃ pre1 f post1 pre2 a post2,
         top_level tree = pre1 ++ f :: post1 ∧
         named "DroneFunctions" f = true ∧
         existsb (named "DroneFunctions") post1 = false ∧
         top_level tree = pre2 ++ a :: post2 ∧
         named "DroneLogicalArchitecture" a = true ∧
         existsb (named "DroneLogicalArchitecture") post2 = false ∧
         SysML2dot.ordering_edge (SysML2dot.traverse tree) =
           [SysML2dot.invisible_edge (rep_after pre1 f) (rep_after pre2 a)]
  else SysML2dot.ordering_edge (SysML2dot.traverse tree) = [].
Proof.
  split; [reflexivity|apply ordering_edge_cases].
Qed.

(** C7 as stated fails on a tree whose top-level package is named
    [DroneFunctions] with a blank in front: no child is named exactly
    [DroneFunctions], and the edge is written all the same. *)
Lemma C7_padded_name_gets_the_edge :
  let tree :=
    mkTree None (Some [mkNode "Package" " DroneFunctions" None None (Some []);
                       mkNode "Package" "DroneLogicalArchitecture" None None (Some [])]) in
  existsb (fun child => str_eqb (name child) "DroneFunctions") (top_level tree) = false ∧
  SysML2dot.ordering_edge (SysML2dot.traverse tree)
    = ["    id2 -> id4 [style=invis];"].
Proof. split; reflexivity. Qed.

(** *** On the trees the parser builds *)

Lemma rstrip_with_idem (p : ascii -> bool) (s : string) :
  rstrip_with p (rstrip_with p s) = rstrip_with p s.
Proof.
  induction s as [|c s IH]; simpl; [done|].
  destruct (rstrip_with p s) as [|c' r] eqn:E.
  - destruct (p c) eqn:Ec; simpl; [done|]. by rewrite Ec.
  - simpl in IH |- *. by rewrite IH.
Qed.

Lemma lstrip_with_no_lead (p : ascii -> bool) (s : string) :
  no_lead p (lstrip_with p s).
Proof.
  induction s as [|c s IH]; simpl; [done|].
  destruct (p c) eqn:Ec; simpl; done.
Qed.

Lemma no_lead_lstrip_with (p : ascii -> bool) (s : string) :
  no_lead p s → lstrip_with p s = s.
Proof. destruct s as [|c s]; simpl; [done|]. by intros ->. Qed.

Lemma no_lead_rstrip_with (p : ascii -> bool) (s : string) :
  no_lead p s → no_lead p (rstrip_with p s).
Proof.
  destruct s as [|c s]; simpl; [done|]. intros Hc.
  destruct (rstrip_with p s); [by rewrite Hc|done].
Qed.

(** [s.strip().strip() == s.strip()] *)
Lemma strip_with_idem (p : ascii -> bool) (s : string) :
  strip_with p (strip_with p s) = strip_with p s.
Proof.
  unfold strip_with.
  rewrite (no_lead_lstrip_with p (rstrip_with p (lstrip_with p s))).
  - apply rstrip_with_idem.
  - apply no_lead_rstrip_with, lstrip_with_no_lead.
Qed.

Lemma action_of_name (line : string) (d : Dict) (n : string) :
  action_of line = Some (Create d) → d_name d = Some n → strip n = n.
Proof.
  unfold action_of.
  destruct (re_match package_pattern line) as [m|].
  { destruct (group m 1); simpl; [|done]. intros [= <-] [= <-]. apply strip_with_idem. }
  destruct (re_match part_pattern line) as [m|].
  { destruct (group m 1); simpl; [|done]. destruct (group m 3); simpl; [|done].
    intros [= <-] [= <-]. apply strip_with_idem. }
  destruct (re_match actor_pattern line) as [m|].
  { destruct (group m 1); simpl; [|done]. intros [= <-] [= <-]. apply strip_with_idem. }
  destruct (re_match description_pattern line) as [m|]; [|done].
  destruct (group m 1); simpl; done.
Qed.

Lemma names_trimmed_alter (f : Dict -> Dict) (i : nat) (h : list Dict) :
  (∀ d, d_name (f d) = d_name d) → names_trimmed h → names_trimmed (alter f i h).
Proof.
  intros Hf Hh a d n. rewrite list_lookup_alter.
  case_decide as E; [subst a|apply Hh].
  destruct (h !! i) as [d0|] eqn:E0; simpl; [|done].
  intros [= <-]. rewrite Hf. by apply (Hh i).
Qed.

Lemma names_trimmed_snoc (h : list Dict) (d : Dict) :
  names_trimmed h → (∀ n, d_name d = Some n → strip n = n) → names_trimmed (h ++ [d]).
Proof.
  intros Hh Hd a d' n Hlook. apply lookup_app_Some in Hlook as [Hlook|[_ Hlook]].
  - by apply (Hh a).
  - apply list_lookup_singleton_Some in Hlook as [_ ->]. apply Hd.
Qed.

Lemma step_names_trimmed (st st' : PState) (line : string) :
  SysML2Mermaid.step st line = Some st' →
  names_trimmed (heap st) → names_trimmed (heap st').
Proof.
  rewrite step_action. destruct (is_blank line); [by intros [= <-]|].
  destruct (action_of line) as [act|] eqn:Hact; simpl; [|done].
  destruct act as [d|desc|]; simpl; [| |by intros [= <-]];
    (destruct (scopes_for st line) as [|[i top] rest]; simpl; [done|]);
    intros [= <-] Hh; simpl.
  - apply names_trimmed_alter; [done|].
    apply names_trimmed_snoc; [done|]. intros n. by apply (action_of_name line).
  - by apply names_trimmed_alter.
Qed.

Lemma run_names_trimmed (lines : list string) :
  ∀ st st', SysML2Mermaid.run st lines = Some st' →
    names_trimmed (heap st) → names_trimmed (heap st').
Proof.
  induction lines as [|line rest IH]; intros st st'; simpl; [by intros [= <-]|].
  destruct (SysML2Mermaid.step st line) as [st1|] eqn:E; simpl; [|done].
  intros Hrun Hh. eapply IH; [done|]. by eapply step_names_trimmed.
Qed.

Lemma reify_node_name (fuel : nat) (h : list Dict) (a : nat) (node : Node) :
  reify_node fuel h a = Some node →
  ∃ d, h !! a = Some d ∧ d_name d = Some (name node).
Proof.
  destruct fuel as [|fuel]; simpl; [done|].
  destruct (h !! a) as [d|]; simpl; [|done].
  destruct (d_type d); simpl; [|done].
  destruct (d_name d) as [n|] eqn:En; simpl; [|done].
  destruct (match d_parts d with
            | Some cs => Some <$> mapM (reify_node fuel h) cs
            | None => Some None
            end); simpl; [|done].
  intros [= <-]. exists d. by split.
Qed.

(** The names of the top-level children of a parsed tree carry no
    leading or trailing whitespace. *)
Lemma parsed_names_are_trimmed (text : string) (tree : Tree) :
  SysML2dot.parse_indented_model text = Some tree →
  Forall (fun child => strip (name child) = name child) (top_level tree).
Proof.
  unfold SysML2dot.parse_indented_model, SysML2dot.exec. rewrite dot_run_eq.
  destruct (SysML2Mermaid.run init (splitlines text)) as [st|] eqn:Hrun; simpl; [|done].
  assert (Hh : names_trimmed (heap st)).
  { eapply run_names_trimmed; [done|]. intros [|a] d n; simpl; [|done]. by intros [= <-]. }
  unfold reify. destruct (heap st !! 0) as [d|]; simpl; [|done].
  destruct (d_parts d) as [cs|]; simpl; [|by intros [= <-]].
  destruct (mapM (reify_node (length (heap st)) (heap st)) cs) as [ns|] eqn:E; simpl; [|done].
  intros [= <-]. unfold top_level. simpl.
  apply mapM_Some_1 in E. induction E as [|c n cs ns Hc _ IH]; constructor; [|done].
  apply reify_node_name in Hc as (dc & Hdc & Hn). by apply (Hh c dc).
Qed.

Lemma named_exact (x : string) (cs : list Node) :
  Forall (fun child => strip (name child) = name child) cs →
  existsb (named x) cs = existsb (fun child => str_eqb (name child) x) cs.
Proof.
  induction 1 as [|c cs Hc _ IH]; simpl; [done|].
  unfold named at 1. by rewrite Hc, IH.
Qed.

(** On the trees the parser of SysML2dot.py builds, the edge is written
    exactly when a top-level child is named [DroneFunctions] and another
    [DroneLogicalArchitecture], letter for letter. *)
Lemma ordering_edge_on_parsed_trees (text : string) (tree : Tree) :
  SysML2dot.parse_indented_model text = Some tree →
  if existsb (fun child => str_eqb (name child) "DroneFunctions") (top_level tree)
     && existsb (fun child => str_eqb (name child) "DroneLogicalArchitecture")
          (top_level tree)
  then ∃ a b, SysML2dot.ordering_edge (SysML2dot.traverse tree)
              = [SysML2dot.invisible_edge a b]
  else SysML2dot.ordering_edge (SysML2dot.traverse tree) = [].
Proof.
  intros Hparse. apply parsed_names_are_trimmed in Hparse.
  rewrite <- !(named_exact _ _ Hparse).
  pose proof (ordering_edge_cases tree) as H.
  destruct (existsb (named "DroneFunctions") (top_level tree)
            && existsb (named "DroneLogicalArchitecture") (top_level tree)); [|done].
  destruct H as (? & ? & ? & ? & ? & ? & _ & _ & _ & _ & _ & _ & ->). eauto.
Qed.

(** ** The containment-diagram renderer *)

Lemma extend_selected_filter (render : Node -> list string) (keep : Node -> bool)
    (cs : list Node) :
  SysML2UML.extend_selected render keep cs = flat_map render (List.filter keep cs).
Proof.
  unfold SysML2UML.extend_selected.
  induction cs as [|c cs IH]; simpl; [done|].
  destruct (keep c); simpl; by rewrite IH.
Qed.

(** [generate_plantuml] on a package, in the words of the source. *)
Lemma generate_plantuml_package (name : string) (alias description : option string)
    (children : list Node) (indent : nat) :
  SysML2UML.generate_plantuml
    (mkNode "Package" name alias description (Some children)) indent =
  [package_open (times "    " indent) name alias]
  ++ flat_map (fun child => SysML2UML.generate_plantuml child (indent + 1))
       (if startswith (strip name) "DroneDevelopment"
        then SysML2UML.reorder_children children else children)
  ++ [times "    " indent +:+ "}"].
Proof.
  change (SysML2UML.generate_plantuml
            (mkNode "Package" name alias description (Some children)) indent)
    with ([package_open (times "    " indent) name alias]
          ++ (if startswith (strip name) "DroneDevelopment"
              then SysML2UML.extend_selected
                     (fun child => SysML2UML.generate_plantuml child (indent + 1))
                     SysML2UML.is_functions children
                   ++ SysML2UML.extend_selected
                        (fun child => SysML2UML.generate_plantuml child (indent + 1))
                        (fun child => negb (SysML2UML.is_functions child)) children
              else flat_map (fun child => SysML2UML.generate_plantuml child (indent + 1))
                     children)
          ++ [times "    " indent +:+ "}"]).
  destruct (startswith (strip name) "DroneDevelopment"); [|done].
  unfold SysML2UML.reorder_children.
  by rewrite flat_map_app, !extend_selected_filter.
Qed.

(** C8, as amended: a package whose name, trimmed of leading and trailing
    whitespace, begins with [DroneDevelopment] writes its children in two
    groups, those whose trimmed name begins with [DroneFunctions] first
    and the others after, each group in its declaration order; every
    other package, and every logical component, writes its children in
    declaration order.  The rule is looked up again at every package the
    recursion reaches, on that package's own name. *)
Theorem C8_reordering_at_the_development_package
    (pname : string) (alias description : option string)
    (children : list Node) (indent : nat) :
  let render := fun child => SysML2UML.generate_plantuml child (indent + 1) in
  let functions :=
    List.filter (fun child => startswith (strip (name child)) "DroneFunctions")
      children in
  let others :=
    List.filter (fun child => negb (startswith (strip (name child)) "DroneFunctions"))
      children in
  SysML2UML.generate_plantuml
    (mkNode "Package" pname alias description (Some children)) indent =
    [package_open (times "    " indent) pname alias]
    ++ flat_map render
         (if startswith (strip pname) "DroneDevelopment"
          then functions ++ others else children)
    ++ [times "    " indent +:+ "}"] ∧
  SysML2UML.generate_plantuml
    (mkNode "LogicalComponent" pname alias description (Some children)) indent =
    match children with
    | [] =>
        [times "    " indent +:+ "rectangle "
           +:+ SysML2UML.format_element pname alias +:+ " <<logicalComponent>>"]
    | _ :: _ =>
        [times "    " indent +:+ "rectangle "
           +:+ (SysML2UML.format_element pname alias +:+ " <<logicalComponent>>") +:+ " {"]
        ++ flat_map render children
        ++ [times "    " indent +:+ "}"]
    end.
Proof.
  split.
  - apply generate_plantuml_package.
  - destruct children; reflexivity.
Qed.

(** C8 as stated fails on what the parser of SysML2UML.py itself builds:
    the quoted name keeps its leading blank, so it does not begin with
    [DroneDevelopment], and the children are reordered all the same; and
    a logical function is written without the children it has. *)
Lemma C8_padded_development_package_is_reordered :
  let text :=
    str_join nls ["package " +:+ quoted " DroneDevelopment" +:+ " {";
                  "  package A {"; "  }";
                  "  package DroneFunctions {"; "  }"; "}"] in
  SysML2UML.parse_indented_model text
    = Some (mkTree None (Some [mkNode "Package" " DroneDevelopment" None None
              (Some [mkNode "Package" "A " None None (Some []);
                     mkNode "Package" "DroneFunctions " None None (Some [])])])) ∧
  startswith " DroneDevelopment" "DroneDevelopment" = false ∧
  SysML2UML.body <$> SysML2UML.parse_indented_model text
    = Some ["package " +:+ quoted " DroneDevelopment" +:+ " {";
            "    package " +:+ quoted "DroneFunctions " +:+ " {"; "    }";
            "    package " +:+ quoted "A " +:+ " {"; "    }";
            "}"] ∧
  SysML2UML.body <$> SysML2UML.parse_indented_model
      (str_join nls ["part F : LogicalFunction {"; "  part G : LogicalComponent"; "}"])
    = Some ["class " +:+ quoted "F" +:+ " <<logicalFunction>> {";
            "    description = " +:+ quoted "";
            "}"].
Proof. split_and!; reflexivity. Qed.

(** ** The two indentation parsers *)

(** C10: on every text the parser of SysML2dot.py returns the tree the
    parser of SysML2Mermaid.py returns (and prints the same warnings),
    and it does return one. *)
Theorem C10_the_two_indentation_parsers_agree (text : string) :
  SysML2dot.parse_indented_model text = SysML2Mermaid.parse_indented_model text ∧
  SysML2dot.printed text = SysML2Mermaid.printed text ∧
  is_Some (SysML2dot.parse_indented_model text).
Proof.
  assert (H : SysML2dot.exec text = SysML2Mermaid.exec text).
  { unfold SysML2dot.exec, SysML2Mermaid.exec. apply dot_run_eq. }
  unfold SysML2dot.parse_indented_model, SysML2dot.printed. rewrite H.
  split_and!; [done..|]. apply parse_total.
Qed.

(** * Further properties *)

(** ** Induction on trees *)

Lemma Node_induction (P : Node → Prop) :
  (∀ t x a d, P (mkNode t x a d None)) →
  (∀ t x a d cs, Forall P cs → P (mkNode t x a d (Some cs))) →
  ∀ n, P n.
Proof.
  intros Hleaf Hnode. fix IH 1. intros [t x a d [cs|]]; [|apply Hleaf].
  apply Hnode. revert cs. fix IHcs 1. intros [|c cs]; constructor; [apply IH|apply IHcs].
Qed.

(** ** Reordering the children of the development package *)

Lemma filter_filter_same {A : Type} (f : A → bool) (l : list A) :
  List.filter f (List.filter f l) = List.filter f l.
Proof.
  induction l as [|x l IH]; simpl; [done|].
  destruct (f x) eqn:E; simpl; [|done]. by rewrite E, IH.
Qed.

Lemma filter_filter_neg {A : Type} (f g : A → bool) (l : list A) :
  (∀ x, g x = true → f x = false) → List.filter f (List.filter g l) = [].
Proof.
  intros Hfg. induction l as [|x l IH]; simpl; [done|].
  destruct (g x) eqn:E; simpl; [|done]. by rewrite (Hfg x E).
Qed.

Lemma filter_sublist {A : Type} (f : A → bool) (l : list A) :
  sublist (List.filter f l) l.
Proof.
  induction l as [|x l IH]; simpl; [done|]. destruct (f x); by constructor.
Qed.

(** X1: [reorder_children] neither drops nor repeats a child: its result
    is a permutation of its argument, made of the children whose trimmed
    name begins with [DroneFunctions] followed by the others; each group is
    in the order of the argument, and reordering a second time changes
    nothing. *)
Theorem reorder_children_is_a_stable_partition (children : list Node) :
  SysML2UML.reorder_children children ≡ₚ children ∧
  length (SysML2UML.reorder_children children) = length children ∧
  (∃ functions others,
     SysML2UML.reorder_children children = functions ++ others ∧
     Forall (fun child => SysML2UML.is_functions child = true) functions ∧
     Forall (fun child => SysML2UML.is_functions child = false) others ∧
     sublist functions children ∧ sublist others children) ∧
  SysML2UML.reorder_children (SysML2UML.reorder_children children)
    = SysML2UML.reorder_children children.
Proof.
  unfold SysML2UML.reorder_children.
  assert (Hperm : List.filter SysML2UML.is_functions children
                  ++ List.filter (fun child => negb (SysML2UML.is_functions child)) children
                  ≡ₚ children).
  { induction children as [|c cs IH]; simpl; [done|].
    destruct (SysML2UML.is_functions c); simpl.
    - by rewrite IH.
    - by rewrite <- Permutation_middle, IH. }
  split_and!.
  - done.
  - by rewrite Hperm.
  - eexists _, _. split_and!; [done| | | |].
    + apply Forall_forall. intros x Hx. apply list_elem_of_In, filter_In in Hx. tauto.
    + apply Forall_forall. intros x Hx. apply list_elem_of_In, filter_In in Hx.
      destruct Hx as [_ Hx]. by apply negb_true_iff.
    + apply filter_sublist.
    + apply filter_sublist.
  - rewrite !List.filter_app, !filter_filter_same.
    rewrite (filter_filter_neg SysML2UML.is_functions
               (fun child => negb (SysML2UML.is_functions child))).
    2: { intros x Hx. by apply negb_true_iff. }
    rewrite (filter_filter_neg (fun child => negb (SysML2UML.is_functions child))
               SysML2UML.is_functions).
    2: { intros x Hx. by rewrite Hx. }
    by rewrite app_nil_r.
Qed.

(** ** The cluster-graph renderer, unfolded *)

(** [generate_dot] with its loop over the children named. *)
Lemma generate_dot_eq (typ name : string) (alias description : option string)
    (parts : option (list Node)) (indent node_counter : nat) :
  SysML2dot.generate_dot (mkNode typ name alias description parts) indent node_counter =
      let spacing := times " " indent in
      let '(id1, c1) := SysML2dot.next_id node_counter in
      let cluster_id := "cluster_" +:+ id1 in
      let '(rep_node, c2) := SysML2dot.next_id c1 in
      let nest := nest_from indent in
      let leaf_component :=
        let label := SysML2dot.html_label_bottom_only name 150 10 40 in
        [spacing +:+ "    " +:+ rep_node
           +:+ " [shape=none, style=filled, fillcolor=lightblue, label=" +:+ label +:+ "];"] in
      let '(inner, c3) :=
        if str_eqb typ "LogicalFunction" then
          let label :=
            SysML2dot.html_label_two_compartment name (default "" description) 120 15 30 in
          ([spacing +:+ "    " +:+ rep_node
              +:+ " [shape=none, style=filled, fillcolor=lightgreen, label=" +:+ label +:+ "];"],
           c2)
        else if str_eqb typ "LogicalComponent" then
          match parts with
          | Some children =>
              match children with
              | _ :: _ =>
                  let '(nested, c) := nest children c2 in
                  ([spacing +:+ "    label = " +:+ quoted name +:+ ";";
                    spacing +:+ "    style=filled;";
                    spacing +:+ "    fillcolor=lightblue;";
                    spacing +:+ "    margin=10;";
                    spacing +:+ "    " +:+ rep_node +:+ " [shape=none, label=" +:+ quoted "" +:+ "];"]
                   ++ nested, c)
              | [] => (leaf_component, c2)
              end
          | None => (leaf_component, c2)
          end
        else if str_eqb typ "LogicalActor" then
          let label := SysML2dot.html_label_bottom_only name 120 10 40 in
          ([spacing +:+ "    " +:+ rep_node
              +:+ " [shape=none, style=filled, fillcolor=lightblue, fixedsize=true, label="
              +:+ label +:+ "];"],
           c2)
        else if str_eqb typ "Package" then
          let head :=
            [spacing +:+ "    label = " +:+ quoted name +:+ ";";
             spacing +:+ "    " +:+ rep_node +:+ " [shape=none, label=" +:+ quoted "" +:+ "];"] in
          match parts with
          | Some children =>
              let '(nested, c) := nest children c2 in (head ++ nested, c)
          | None => (head, c2)
          end
        else
          ([spacing +:+ "    " +:+ rep_node +:+ " [label=" +:+ quoted name +:+ "];"], c2) in
      (rep_node,
       [spacing +:+ "subgraph " +:+ cluster_id +:+ " {"] ++ inner ++ [spacing +:+ "}"],
       c3).
Proof. reflexivity. Qed.

Lemma nest_from_cons (indent : nat) (child : Node) (rest : list Node) (c : nat) :
  nest_from indent (child :: rest) c =
  let '(_, child_lines, c') := SysML2dot.generate_dot child (indent + 4) c in
  let '(more, c'') := nest_from indent rest c' in
  (child_lines ++ more, c'').
Proof. reflexivity. Qed.

Lemma nest_from_counter (indent : nat) (cs : list Node) :
  Forall (fun child => ∀ i c, (SysML2dot.generate_dot child i c).2 = c + 2 * clusters child) cs →
  ∀ c, (nest_from indent cs c).2 = c + 2 * list_sum (map clusters cs).
Proof.
  induction 1 as [|child rest Hc _ IH]; intros c; [simpl; lia|].
  rewrite nest_from_cons. specialize (Hc (indent + 4) c).
  destruct (SysML2dot.generate_dot child (indent + 4) c) as [[rep ls] c'].
  specialize (IH c'). destruct (nest_from indent rest c') as [more c''].
  simpl in *. lia.
Qed.

Lemma clusters_eq (t x : string) (a d : option string) (ps : option (list Node)) :
  clusters (mkNode t x a d ps) =
  S (if str_eqb t "LogicalComponent" || (str_eqb t "Package" || false)
     then match ps with Some cs => list_sum (map clusters cs) | None => 0 end
     else 0).
Proof. reflexivity. Qed.

(** Every cluster draws two identifiers: one for itself and one for its
    representative node. *)
Lemma generate_dot_counter (n : Node) :
  ∀ indent c, (SysML2dot.generate_dot n indent c).2 = c + 2 * clusters n.
Proof.
  induction n as [t x a d|t x a d cs IH] using Node_induction; intros indent c;
    rewrite generate_dot_eq, clusters_eq; unfold SysML2dot.next_id.
  - destruct (str_eqb t "LogicalFunction") eqn:E1.
    { apply str_eqb_eq in E1 as ->. simpl. lia. }
    destruct (str_eqb t "LogicalComponent") eqn:E2; [simpl; lia|].
    destruct (str_eqb t "LogicalActor") eqn:E3; [simpl; destruct (str_eqb t "Package"); simpl; lia|].
    destruct (str_eqb t "Package") eqn:E4; simpl; lia.
  - pose proof (nest_from_counter indent cs IH (c + 1 + 1)) as Hn.
    destruct (str_eqb t "LogicalFunction") eqn:E1.
    { apply str_eqb_eq in E1 as ->. simpl. lia. }
    destruct (str_eqb t "LogicalComponent") eqn:E2.
    { destruct cs as [|c0 cs]; [simpl; lia|].
      destruct (nest_from indent (c0 :: cs) (c + 1 + 1)) as [nested c'] eqn:En.
      simpl in Hn |- *. lia. }
    destruct (str_eqb t "LogicalActor") eqn:E3.
    { apply str_eqb_eq in E3 as ->. simpl. lia. }
    destruct (str_eqb t "Package") eqn:E4; [|simpl; lia].
    destruct (nest_from indent cs (c + 1 + 1)) as [nested c'] eqn:En.
    simpl in Hn |- *. lia.
Qed.

Lemma visit_counter (st : SysML2dot.Top) (child : Node) :
  SysML2dot.counter (SysML2dot.visit st child)
  = (SysML2dot.generate_dot child 4 (SysML2dot.counter st)).2.
Proof.
  unfold SysML2dot.visit.
  by destruct (SysML2dot.generate_dot child 4 (SysML2dot.counter st)) as [[rep ls] c].
Qed.

Lemma traverse_counter (cs : list Node) :
  ∀ st, SysML2dot.counter (fold_left SysML2dot.visit cs st)
        = SysML2dot.counter st + 2 * list_sum (map clusters cs).
Proof.
  induction cs as [|c cs IH]; intros st; simpl; [lia|].
  rewrite IH, visit_counter, generate_dot_counter. lia.
Qed.

(** X2: a call of [generate_dot] at the counter [c] names its cluster
    [cluster_id(c+1)] and its representative node [id(c+2)], and leaves the
    counter at [c] plus twice the number of clusters it has written, so no
    identifier is drawn twice; after [build_dot_from_tree] has visited the
    top-level children the counter is twice the number of clusters of the
    graph. *)
Theorem generate_dot_draws_two_identifiers_per_cluster
    (n : Node) (indent c : nat) (tree : Tree) :
  (SysML2dot.generate_dot n indent c).1.1 = "id" +:+ pretty (c + 2) ∧
  head (SysML2dot.generate_dot n indent c).1.2
    = Some (times " " indent +:+ "subgraph cluster_id" +:+ pretty (c + 1) +:+ " {") ∧
  (SysML2dot.generate_dot n indent c).2 = c + 2 * clusters n ∧
  SysML2dot.counter (SysML2dot.traverse tree)
    = 2 * list_sum (map clusters (top_level tree)).
Proof.
  split_and!.
  - rewrite generate_dot_rep. by replace (c + 1 + 1) with (c + 2) by lia.
  - destruct n as [t x a d ps]. rewrite generate_dot_eq. unfold SysML2dot.next_id.
    by match goal with
       | |- context [let '(_, _) := ?e in _] => destruct e
       end.
  - apply generate_dot_counter.
  - unfold SysML2dot.traverse. by rewrite traverse_counter.
Qed.

(** X3: two top-level children never share their representative node, so
    the invisible edge never joins a node to itself. *)
Theorem top_level_representatives_are_distinct
    (pre mid : list Node) (first second : Node) :
  str_eqb (rep_after pre first) (rep_after (pre ++ first :: mid) second) = false.
Proof.
  unfold str_eqb. apply String.eqb_neq.
  unfold rep_after. rewrite !generate_dot_rep, !traverse_counter.
  rewrite map_app, list_sum_app. simpl.
  intros H. apply (inj (String.append "id")) in H.
  apply (inj pretty) in H.
  destruct first as [t x a d ps]. rewrite clusters_eq in H. lia.
Qed.

(** ** What the renderers do not read *)

Lemma process_node_eq (typ name : string) (alias description : option string)
    (parts : option (list Node)) (level : nat) :
  SysML2Mermaid.process_node (mkNode typ name alias description parts) level =
  let spacing := times "    " level in
  let node_id := replace_space name in
  let children :=
    match parts with
    | Some cs => flat_map (fun child => SysML2Mermaid.process_node child (level + 1)) cs
    | None => []
    end in
  (if str_eqb typ "Package" then
     [spacing +:+ "subgraph " +:+ node_id +:+ "[" +:+ name +:+ "]"]
     ++ children ++ [spacing +:+ "end"]
   else if str_eqb typ "LogicalFunction" then
     [spacing +:+ node_id +:+ "["
        +:+ SysML2Mermaid.html_label_two_compartment name (default "" description) 120 15 30
        +:+ "]"]
   else if str_in typ ["LogicalComponent"; "LogicalActor"] then
     [spacing +:+ node_id +:+ "["
        +:+ SysML2Mermaid.html_label_bottom_only name 150 10 40 +:+ "]"]
   else
     [spacing +:+ node_id +:+ "[" +:+ name +:+ "]"])
  ++ children.
Proof. reflexivity. Qed.

Lemma flat_map_map_ext {A B : Type} (f : A → list B) (g : A → A) (l : list A) :
  Forall (fun x => f (g x) = f x) l → flat_map f (map g l) = flat_map f l.
Proof. induction 1 as [|x l Hx _ IH]; simpl; [done|]. by rewrite Hx, IH. Qed.

Lemma process_node_without_alias (n : Node) :
  ∀ level, SysML2Mermaid.process_node (without_alias n) level
           = SysML2Mermaid.process_node n level.
Proof.
  induction n as [t x a d|t x a d cs IH] using Node_induction; intros level; [done|].
  change (without_alias (mkNode t x a d (Some cs)))
    with (mkNode t x None d (Some (map without_alias cs))).
  rewrite !process_node_eq. cbv zeta.
  rewrite flat_map_map_ext; [done|].
  eapply Forall_impl; [exact IH|]. intros c Hc. apply Hc.
Qed.

Lemma nest_from_without_alias (indent : nat) (cs : list Node) :
  Forall (fun child => ∀ i c, SysML2dot.generate_dot (without_alias child) i c
                              = SysML2dot.generate_dot child i c) cs →
  ∀ c, nest_from indent (map without_alias cs) c = nest_from indent cs c.
Proof.
  induction 1 as [|child rest Hc _ IH]; intros c; [done|].
  simpl map. rewrite !nest_from_cons, Hc.
  destruct (SysML2dot.generate_dot child (indent + 4) c) as [[rep ls] c'].
  by rewrite IH.
Qed.

Lemma generate_dot_without_alias (n : Node) :
  ∀ indent c, SysML2dot.generate_dot (without_alias n) indent c
              = SysML2dot.generate_dot n indent c.
Proof.
  induction n as [t x a d|t x a d cs IH] using Node_induction; intros indent c; [done|].
  change (without_alias (mkNode t x a d (Some cs)))
    with (mkNode t x None d (Some (map without_alias cs))).
  rewrite !generate_dot_eq. unfold SysML2dot.next_id. cbv beta iota zeta.
  rewrite (nest_from_without_alias indent cs IH).
  by destruct cs.
Qed.

(** X4: the flowchart and the cluster-graph renderers never read an
    alias: a tree and the same tree with every alias removed give the same
    text. *)
Theorem flowchart_and_cluster_graph_ignore_aliases (tree : Tree) :
  SysML2Mermaid.build_mermaid_flowchart_from_tree (tree_without_alias tree)
    = SysML2Mermaid.build_mermaid_flowchart_from_tree tree ∧
  SysML2dot.build_dot_from_tree (tree_without_alias tree)
    = SysML2dot.build_dot_from_tree tree.
Proof.
  destruct tree as [rd [cs|]]; [|done].
  unfold SysML2Mermaid.build_mermaid_flowchart_from_tree, SysML2Mermaid.flowchart_lines,
    SysML2dot.build_dot_from_tree, SysML2dot.dot_lines, SysML2dot.traverse,
    tree_without_alias, top_level. simpl.
  split.
  - rewrite flat_map_map_ext; [done|].
    apply Forall_forall. intros c _. apply process_node_without_alias.
  - assert (H : ∀ st, fold_left SysML2dot.visit (map without_alias cs) st
                      = fold_left SysML2dot.visit cs st).
    { induction cs as [|c cs IH]; intros st; simpl; [done|].
      rewrite <- IH. f_equal. unfold SysML2dot.visit.
      rewrite generate_dot_without_alias. by destruct c. }
    by rewrite H.
Qed.

Lemma generate_plantuml_component (pname : string) (alias description : option string)
    (children : list Node) (indent : nat) :
  SysML2UML.generate_plantuml
    (mkNode "LogicalComponent" pname alias description (Some children)) indent =
  match children with
  | [] =>
      [times "    " indent +:+ "rectangle "
         +:+ SysML2UML.format_element pname alias +:+ " <<logicalComponent>>"]
  | _ :: _ =>
      [times "    " indent +:+ "rectangle "
         +:+ (SysML2UML.format_element pname alias +:+ " <<logicalComponent>>") +:+ " {"]
      ++ flat_map (fun child => SysML2UML.generate_plantuml child (indent + 1)) children
      ++ [times "    " indent +:+ "}"]
  end.
Proof. destruct children; reflexivity. Qed.

Lemma pruned_name (n : Node) : name (pruned n) = name n.
Proof. by destruct n as [t x a d [cs|]]. Qed.

Lemma is_functions_pruned (n : Node) :
  SysML2UML.is_functions (pruned n) = SysML2UML.is_functions n.
Proof. unfold SysML2UML.is_functions. by rewrite pruned_name. Qed.

Lemma filter_map_ext {A : Type} (f : A → bool) (g : A → A) (l : list A) :
  (∀ x, f (g x) = f x) → List.filter f (map g l) = map g (List.filter f l).
Proof.
  intros Hfg. induction l as [|x l IH]; simpl; [done|].
  rewrite Hfg. destruct (f x); simpl; by rewrite IH.
Qed.

Lemma Forall_filter_bool {A : Type} (P : A → Prop) (f : A → bool) (l : list A) :
  Forall P l → Forall P (List.filter f l).
Proof.
  induction 1 as [|x l Hx _ IH]; simpl; [done|]. destruct (f x); [by constructor|done].
Qed.

Lemma reorder_children_pruned (cs : list Node) :
  SysML2UML.reorder_children (map pruned cs) = map pruned (SysML2UML.reorder_children cs).
Proof.
  unfold SysML2UML.reorder_children.
  rewrite map_app, !filter_map_ext; [done| |apply is_functions_pruned].
  intros x. by rewrite is_functions_pruned.
Qed.

Lemma generate_plantuml_pruned (n : Node) :
  ∀ indent, SysML2UML.generate_plantuml (pruned n) indent
            = SysML2UML.generate_plantuml n indent.
Proof.
  induction n as [t x a d|t x a d cs IH] using Node_induction; intros indent; [done|].
  destruct (str_eqb t "LogicalComponent") eqn:E1.
  { apply str_eqb_eq in E1 as ->.
    change (pruned (mkNode "LogicalComponent" x a d (Some cs)))
      with (mkNode "LogicalComponent" x a d (Some (map pruned cs))).
    rewrite !generate_plantuml_component.
    destruct cs as [|c cs]; [done|]. simpl map.
    change (pruned c :: map pruned cs) with (map pruned (c :: cs)).
    rewrite flat_map_map_ext; [done|].
    eapply Forall_impl; [exact IH|]. intros c' Hc'. apply Hc'. }
  destruct (str_eqb t "Package") eqn:E2.
  { apply str_eqb_eq in E2 as ->.
    change (pruned (mkNode "Package" x a d (Some cs)))
      with (mkNode "Package" x a d (Some (map pruned cs))).
    rewrite !generate_plantuml_package.
    destruct (startswith (strip x) "DroneDevelopment").
    - rewrite reorder_children_pruned, flat_map_map_ext; [done|].
      unfold SysML2UML.reorder_children. apply Forall_app. split;
        apply Forall_filter_bool; (eapply Forall_impl; [exact IH|]);
        intros c' Hc'; apply Hc'.
    - rewrite flat_map_map_ext; [done|].
      eapply Forall_impl; [exact IH|]. intros c' Hc'. apply Hc'. }
  unfold pruned, str_in. cbn [existsb]. rewrite E1, E2.
  simpl. rewrite E2, E1. reflexivity.
Qed.

Lemma nest_from_map_ext (g : Node → Node) (indent : nat) (cs : list Node) :
  Forall (fun child => ∀ i c, SysML2dot.generate_dot (g child) i c
                              = SysML2dot.generate_dot child i c) cs →
  ∀ c, nest_from indent (map g cs) c = nest_from indent cs c.
Proof.
  induction 1 as [|child rest Hc _ IH]; intros c; [done|].
  simpl map. rewrite !nest_from_cons, Hc.
  destruct (SysML2dot.generate_dot child (indent + 4) c) as [[rep ls] c'].
  by rewrite IH.
Qed.

Lemma generate_dot_pruned (n : Node) :
  ∀ indent c, SysML2dot.generate_dot (pruned n) indent c
              = SysML2dot.generate_dot n indent c.
Proof.
  induction n as [t x a d|t x a d cs IH] using Node_induction; intros indent c; [done|].
  destruct (str_eqb t "LogicalComponent") eqn:E1.
  { apply str_eqb_eq in E1 as ->.
    change (pruned (mkNode "LogicalComponent" x a d (Some cs)))
      with (mkNode "LogicalComponent" x a d (Some (map pruned cs))).
    rewrite !generate_dot_eq. unfold SysML2dot.next_id. cbv beta iota zeta.
    rewrite (nest_from_map_ext pruned indent cs IH). by destruct cs. }
  destruct (str_eqb t "Package") eqn:E2.
  { apply str_eqb_eq in E2 as ->.
    change (pruned (mkNode "Package" x a d (Some cs)))
      with (mkNode "Package" x a d (Some (map pruned cs))).
    rewrite !generate_dot_eq. unfold SysML2dot.next_id. cbv beta iota zeta.
    by rewrite (nest_from_map_ext pruned indent cs IH). }
  unfold pruned, str_in. cbn [existsb]. rewrite E1, E2. cbn [orb].
  rewrite !generate_dot_eq. by rewrite E1, E2.
Qed.

Lemma fold_visit_map_ext (g : Node → Node) (cs : list Node) :
  (∀ n i c, SysML2dot.generate_dot (g n) i c = SysML2dot.generate_dot n i c) →
  (∀ n, name (g n) = name n) →
  ∀ st, fold_left SysML2dot.visit (map g cs) st = fold_left SysML2dot.visit cs st.
Proof.
  intros Hg Hn. induction cs as [|c cs IH]; intros st; simpl; [done|].
  rewrite IH. f_equal. unfold SysML2dot.visit. by rewrite Hg, Hn.
Qed.

(** X5: the containment-diagram and the cluster-graph renderers write
    children under packages and logical components only: removing, all
    over the tree, the children of every node of another type (logical
    functions, logical actors, parts of any other type) changes neither
    text. *)
Theorem children_of_other_kinds_are_not_rendered (tree : Tree) :
  SysML2UML.build_plantuml_from_tree (tree_pruned tree)
    = SysML2UML.build_plantuml_from_tree tree ∧
  SysML2dot.build_dot_from_tree (tree_pruned tree)
    = SysML2dot.build_dot_from_tree tree.
Proof.
  destruct tree as [rd [cs|]]; [|done].
  unfold SysML2UML.build_plantuml_from_tree, SysML2UML.body,
    SysML2dot.build_dot_from_tree, SysML2dot.dot_lines, SysML2dot.traverse,
    tree_pruned, top_level. simpl.
  split.
  - rewrite flat_map_map_ext; [done|].
    apply Forall_forall. intros c _. apply generate_plantuml_pruned.
  - by rewrite (fold_visit_map_ext pruned cs generate_dot_pruned pruned_name).
Qed.

Lemma functions_described_name (n : Node) : name (functions_described n) = name n.
Proof. by destruct n as [t x a d [cs|]]. Qed.

Lemma reorder_children_map (g : Node → Node) (cs : list Node) :
  (∀ n, name (g n) = name n) →
  SysML2UML.reorder_children (map g cs) = map g (SysML2UML.reorder_children cs).
Proof.
  intros Hg.
  assert (H : ∀ n, SysML2UML.is_functions (g n) = SysML2UML.is_functions n).
  { intros n. unfold SysML2UML.is_functions. by rewrite Hg. }
  unfold SysML2UML.reorder_children.
  rewrite map_app, !filter_map_ext; [done| |done].
  intros n. by rewrite H.
Qed.

Lemma functions_described_eq (t x : string) (a d : option string)
    (ps : option (list Node)) :
  functions_described (mkNode t x a d ps) =
  mkNode t x a (if str_eqb t "LogicalFunction" then d else None)
    (map functions_described <$> ps).
Proof. by destruct ps. Qed.

Lemma process_node_functions_described (n : Node) :
  ∀ level, SysML2Mermaid.process_node (functions_described n) level
           = SysML2Mermaid.process_node n level.
Proof.
  assert (Hhead : ∀ t x a d ps ps' level,
    (match ps' with
     | Some cs => flat_map (fun child => SysML2Mermaid.process_node child (level + 1)) cs
     | None => []
     end
     = match ps with
       | Some cs => flat_map (fun child => SysML2Mermaid.process_node child (level + 1)) cs
       | None => []
       end) →
    SysML2Mermaid.process_node
      (mkNode t x a (if str_eqb t "LogicalFunction" then d else None) ps') level
    = SysML2Mermaid.process_node (mkNode t x a d ps) level).
  { intros t x a d ps ps' level Hkids. rewrite !process_node_eq. cbv zeta.
    rewrite Hkids. destruct (str_eqb t "Package"); [done|].
    by destruct (str_eqb t "LogicalFunction"). }
  induction n as [t x a d|t x a d cs IH] using Node_induction; intros level;
    rewrite functions_described_eq; apply Hhead; [done|].
  simpl. apply flat_map_map_ext.
  eapply Forall_impl; [exact IH|]. intros c Hc. apply Hc.
Qed.

Lemma generate_plantuml_functions_described (n : Node) :
  ∀ indent, SysML2UML.generate_plantuml (functions_described n) indent
            = SysML2UML.generate_plantuml n indent.
Proof.
  induction n as [t x a d|t x a d cs IH] using Node_induction; intros indent;
    rewrite functions_described_eq.
  - simpl. destruct (str_eqb t "Package"); [done|].
    destruct (str_eqb t "LogicalComponent"); [done|].
    by destruct (str_eqb t "LogicalFunction").
  - destruct (str_eqb t "LogicalComponent") eqn:E1.
    { apply str_eqb_eq in E1 as ->. simpl fmap. cbn [str_eqb String.eqb Ascii.eqb Bool.eqb].
      rewrite !generate_plantuml_component.
      destruct cs as [|c cs]; [done|].
      change (map functions_described (c :: cs))
        with (functions_described c :: map functions_described cs).
      change (functions_described c :: map functions_described cs)
        with (map functions_described (c :: cs)).
      rewrite flat_map_map_ext; [done|].
      eapply Forall_impl; [exact IH|]. intros c' Hc'. apply Hc'. }
    destruct (str_eqb t "Package") eqn:E2.
    { apply str_eqb_eq in E2 as ->. simpl fmap. cbn [str_eqb String.eqb Ascii.eqb Bool.eqb].
      rewrite !generate_plantuml_package.
      destruct (startswith (strip x) "DroneDevelopment").
      - rewrite (reorder_children_map _ _ functions_described_name),
          flat_map_map_ext; [done|].
        unfold SysML2UML.reorder_children. apply Forall_app. split;
          apply Forall_filter_bool; (eapply Forall_impl; [exact IH|]);
          intros c' Hc'; apply Hc'.
      - rewrite flat_map_map_ext; [done|].
        eapply Forall_impl; [exact IH|]. intros c' Hc'. apply Hc'. }
    simpl. rewrite E2, E1. by destruct (str_eqb t "LogicalFunction").
Qed.

Lemma generate_dot_functions_described (n : Node) :
  ∀ indent c, SysML2dot.generate_dot (functions_described n) indent c
              = SysML2dot.generate_dot n indent c.
Proof.
  induction n as [t x a d|t x a d cs IH] using Node_induction; intros indent c;
    rewrite functions_described_eq, !generate_dot_eq;
    unfold SysML2dot.next_id; cbv beta iota zeta.
  - by destruct (str_eqb t "LogicalFunction").
  - simpl fmap. cbv beta iota zeta.
    rewrite (nest_from_map_ext functions_described indent cs IH).
    destruct (str_eqb t "LogicalFunction"); [done|]. by destruct cs.
Qed.

(** X6: a description is written for logical functions only.  Erasing
    the description of the root and of every node of another type, all
    over the tree, changes the text of none of the three renderers. *)
Theorem only_logical_functions_show_their_description (tree : Tree) :
  SysML2Mermaid.build_mermaid_flowchart_from_tree (tree_functions_described tree)
    = SysML2Mermaid.build_mermaid_flowchart_from_tree tree ∧
  SysML2UML.build_plantuml_from_tree (tree_functions_described tree)
    = SysML2UML.build_plantuml_from_tree tree ∧
  SysML2dot.build_dot_from_tree (tree_functions_described tree)
    = SysML2dot.build_dot_from_tree tree.
Proof.
  destruct tree as [rd [cs|]]; [|done].
  unfold SysML2Mermaid.build_mermaid_flowchart_from_tree, SysML2Mermaid.flowchart_lines,
    SysML2UML.build_plantuml_from_tree, SysML2UML.body,
    SysML2dot.build_dot_from_tree, SysML2dot.dot_lines, SysML2dot.traverse,
    tree_functions_described, top_level. simpl.
  split_and!.
  - rewrite flat_map_map_ext; [done|].
    apply Forall_forall. intros c _. apply process_node_functions_described.
  - rewrite flat_map_map_ext; [done|].
    apply Forall_forall. intros c _. apply generate_plantuml_functions_described.
  - by rewrite (fold_visit_map_ext functions_described cs
                  generate_dot_functions_described functions_described_name).
Qed.

(** ** Blank lines and the depth of the stack *)

(** X7: the three parsers skip blank (whitespace-only) lines altogether:
    from any state, a run over some lines ends as the run over the
    non-blank ones among them. *)
Theorem blank_lines_are_skipped (lines : list string) (st : PState) :
  SysML2Mermaid.run st lines = SysML2Mermaid.run st (List.filter nonblank lines) ∧
  SysML2dot.run st lines = SysML2dot.run st (List.filter nonblank lines) ∧
  SysML2UML.run st lines = SysML2UML.run st (List.filter nonblank lines).
Proof.
  assert (H : SysML2Mermaid.run st lines
              = SysML2Mermaid.run st (List.filter nonblank lines)).
  { revert st. induction lines as [|line rest IH]; intros st; simpl; [done|].
    unfold nonblank at 1. destruct (is_blank line) eqn:E; simpl.
    + unfold SysML2Mermaid.step at 1. rewrite E. simpl. apply IH.
    + destruct (SysML2Mermaid.step st line); simpl; [apply IH|done]. }
  split_and!; [exact H|etrans; [apply dot_run_eq|]; etrans; [exact H|]; symmetry; apply dot_run_eq|].
  clear H. revert st. induction lines as [|line rest IH]; intros st; simpl; [done|].
  unfold nonblank at 1. destruct (is_blank line) eqn:E; simpl.
  - unfold SysML2UML.step at 1. rewrite E. simpl. apply IH.
  - destruct (SysML2UML.step st line); simpl; [apply IH|done].
Qed.

Lemma descending_length (open : list (nat * nat)) :
  ∀ m, descending open → Forall (fun e => e.1 ≤ m) open → length open ≤ m + 1.
Proof.
  induction open as [|e open IH]; intros m Hd Hm; simpl; [lia|].
  destruct Hd as [Hlt Hd]. apply Forall_cons in Hm as [He _].
  destruct open as [|e' open']; [simpl; lia|].
  assert (0 < e.1) by (apply Forall_cons in Hlt as [? _]; lia).
  specialize (IH (e.1 - 1) Hd). simpl in IH |- *.
  assert (length open' ≤ e.1 - 1 + 1 - 1); [|lia].
  enough (S (length open') ≤ e.1 - 1 + 1) by lia. apply IH.
  eapply Forall_impl; [exact Hlt|]. simpl. lia.
Qed.

Lemma step_prev_indent (st st' : PState) (line : string) :
  wf st → SysML2Mermaid.step st line = Some st' →
  prev_indent st' = if is_blank line then prev_indent st else indent_of line.
Proof.
  intros Hwf. destruct (is_blank line) eqn:Hb.
  { unfold SysML2Mermaid.step. rewrite Hb. by intros [= <-]. }
  destruct (action_of_total line) as [act Hact].
  destruct (step_perform st line act Hwf Hb Hact) as (? & ? & ? & ? & ? & _ & _ & _ & ->).
  destruct act; simpl; by intros [= <-].
Qed.

Lemma run_prev_indent (lines : list string) :
  ∀ st st', wf st → SysML2Mermaid.run st lines = Some st' →
    prev_indent st' = last_indent (prev_indent st) lines.
Proof.
  unfold last_indent.
  induction lines as [|line rest IH]; intros st st' Hwf; simpl; [by intros [= <-]|].
  destruct (step_wf st line Hwf) as (st1 & Hstep & Hwf1). rewrite Hstep. simpl.
  intros Hrun. rewrite (IH st1 st' Hwf1 Hrun), (step_prev_indent st st1 line Hwf Hstep).
  unfold nonblank at 2. destruct (is_blank line); simpl; [done|].
  destruct (List.filter nonblank rest) as [|l ls]; [done|].
  change (last (line :: l :: ls)) with (last (l :: ls)).
  destruct (last (l :: ls)) eqn:E; [done|]. by apply last_None in E.
Qed.

(** X8: whatever the text, the scope stack never holds more entries than
    the width of the indentation of the last non-blank line plus two: the
    recorded indents strictly decrease from the top, none exceeds that
    width, and the sentinel is at the bottom. *)
Theorem scope_stack_is_bounded_by_the_indentation (lines : list string) :
  ∃ st open,
    SysML2Mermaid.run init lines = Some st ∧
    SysML2dot.run init lines = Some st ∧
    stack st = open ++ [sentinel] ∧
    descending open ∧
    prev_indent st = last_indent 0 lines ∧
    Forall (fun e => e.1 ≤ last_indent 0 lines) open ∧
    length (stack st) ≤ last_indent 0 lines + 2.
Proof.
  destruct (run_wf lines init init_wf) as (st & Hrun & Hwf).
  pose proof (run_prev_indent lines init st init_wf Hrun) as Hprev. simpl in Hprev.
  destruct (wf_stack st Hwf) as (open & Hs & Hd & Hle). rewrite Hprev in Hle.
  exists st, open. split_and!; try done.
  rewrite Hs, length_app. simpl.
  pose proof (descending_length open _ Hd Hle). lia.
Qed.

(** ** The loop of SysML2UML.py *)

Lemma uml_step_action (st : PState) (line : string) :
  SysML2UML.step st line =
  if is_blank line then Some st
  else a ← uml_action_of line;
       uml_perform a line (SysML2UML.pop_deeper (indent_of line) (stack st)) st.
Proof.
  unfold SysML2UML.step, uml_action_of, uml_perform, part_slot.
  destruct (is_blank line); [done|].
  destruct (re_match package_pattern line) as [m|].
  { destruct (group m 1); done. }
  destruct (re_match part_pattern line) as [m|].
  { destruct (group m 1); [|done]. destruct (group m 3); done. }
  destruct (re_match actor_pattern line) as [m|].
  { destruct (group m 1); done. }
  destruct (re_match description_pattern line) as [m|].
  { destruct (group m 1); done. }
  simpl. by destruct (SysML2UML.is_close (strip line)).
Qed.

Lemma uml_action_of_total (line : string) : is_Some (uml_action_of line).
Proof.
  unfold uml_action_of.
  destruct (re_match package_pattern line) as [m|] eqn:E1.
  { destruct (re_match_group _ _ _ 1 E1 eq_refl) as [g ->]. simpl. eauto. }
  destruct (re_match part_pattern line) as [m|] eqn:E2.
  { destruct (re_match_group _ _ _ 1 E2 eq_refl) as [g ->].
    destruct (re_match_group _ _ _ 3 E2 eq_refl) as [t ->]. simpl. eauto. }
  destruct (re_match actor_pattern line) as [m|] eqn:E3.
  { destruct (re_match_group _ _ _ 1 E3 eq_refl) as [g ->]. simpl. eauto. }
  destruct (re_match description_pattern line) as [m|] eqn:E4.
  { destruct (re_match_group _ _ _ 1 E4 eq_refl) as [g ->]. simpl. eauto. }
  eauto.
Qed.

Lemma uml_action_of_fresh (line : string) (d : Dict) (scope : bool) :
  uml_action_of line = Some (UCreate d scope) → fresh d.
Proof.
  unfold uml_action_of, fresh, part_slot.
  destruct (re_match package_pattern line) as [m|].
  { destruct (group m 1); simpl; intros [= <- _]; simpl; eauto 6. }
  destruct (re_match part_pattern line) as [m|].
  { destruct (group m 1); simpl; [|done]. destruct (group m 3); simpl; [|done].
    intros [= <- _]; simpl. case_bool_decide; eauto 6. }
  destruct (re_match actor_pattern line) as [m|].
  { destruct (group m 1); simpl; intros [= <- _]; simpl; eauto 6. }
  destruct (re_match description_pattern line) as [m|].
  { destruct (group m 1); simpl; done. }
  by destruct (SysML2UML.is_close (strip line)).
Qed.

(** The loop [while stack and indent < stack[-1][0]] stops at the sentinel
    at the latest: its recorded indent is 0. *)
Lemma pop_deeper_split (w : nat) (open : list (nat * nat)) :
  ∃ closed kept, open = closed ++ kept ∧
    Forall (fun e => w < e.1) closed ∧
    SysML2UML.pop_deeper w (open ++ [sentinel]) = kept ++ [sentinel].
Proof.
  induction open as [|[i a] open IH]; simpl.
  - exists [], []. by split_and!.
  - destruct (w <? i) eqn:E.
    + destruct IH as (closed & kept & -> & Hc & Hp).
      exists ((i, a) :: closed), kept. split_and!; [done| |done].
      constructor; [|done]. by apply Nat.ltb_lt in E.
    + exists [], ((i, a) :: open). by split_and!.
Qed.

Lemma uml_step_wf (st : PState) (line : string) :
  uml_wf st → ∃ st', SysML2UML.step st line = Some st' ∧ uml_wf st'.
Proof.
  intros Hwf. rewrite uml_step_action.
  destruct (is_blank line); [eauto|].
  destruct (uml_action_of_total line) as [act Hact]. rewrite Hact. simpl.
  destruct (uml_wf_stack st Hwf) as (open & Hs).
  destruct (pop_deeper_split (indent_of line) open) as (closed & kept & -> & _ & Hp).
  rewrite Hs, Hp.
  destruct (scopes_head kept) as (i & top & rest & Hhd).
  pose proof (uml_wf_addr st Hwf) as Haddr. rewrite Hs, <- app_assoc in Haddr.
  apply Forall_app in Haddr as [_ Haddr].
  assert (Htop : top < length (heap st)).
  { rewrite Hhd in Haddr. by apply Forall_cons in Haddr as [? _]. }
  destruct act as [d scope|desc| |]; simpl; rewrite Hhd; simpl; eexists; (split; [done|]);
    rewrite <- Hhd.
  - apply uml_action_of_fresh in Hact. constructor; simpl.
    + destruct scope; [|by eexists].
      by exists ((indent_of line + 1, length (heap st)) :: kept).
    + rewrite length_alter, length_app. simpl.
      assert (Forall (fun e => e.2 < length (heap st) + 1) (kept ++ [sentinel])).
      { eapply Forall_impl; [exact Haddr|]. simpl; lia. }
      destruct scope; [|done]. constructor; [simpl; lia|done].
    + apply heap_ok_attach; [apply Hwf|done|done].
  - constructor; simpl; [by eexists|by rewrite length_alter|].
    apply heap_ok_describe, Hwf.
  - constructor; simpl; [by eexists|done|apply Hwf].
  - constructor; simpl; [by eexists|done|apply Hwf].
Qed.

Lemma init_uml_wf : uml_wf init.
Proof.
  constructor; [by exists []|apply init_wf|apply init_wf].
Qed.

Lemma uml_run_wf (lines : list string) :
  ∀ st, uml_wf st → ∃ st', SysML2UML.run st lines = Some st' ∧ uml_wf st'.
Proof.
  induction lines as [|line rest IH]; intros st Hwf; simpl; [eauto|].
  destruct (uml_step_wf st line Hwf) as (st1 & -> & Hwf1). simpl. auto.
Qed.

Lemma uml_action_warn_iff (line : string) :
  uml_action_of line = Some UWarn ↔
  unmatched line = true ∧ SysML2UML.is_close (strip line) = false.
Proof.
  unfold uml_action_of, unmatched.
  destruct (re_match package_pattern line) as [m|].
  { destruct (group m 1); simpl; split; try done; by intros []. }
  destruct (re_match part_pattern line) as [m|].
  { destruct (group m 1); simpl; [|split; try done; by intros []].
    destruct (group m 3); simpl; split; try done; by intros []. }
  destruct (re_match actor_pattern line) as [m|].
  { destruct (group m 1); simpl; split; try done; by intros []. }
  destruct (re_match description_pattern line) as [m|].
  { destruct (group m 1); simpl; split; try done; by intros []. }
  destruct (SysML2UML.is_close (strip line)); split; try done; by intros [].
Qed.

Lemma uml_step_stdout (st st' : PState) (line : string) :
  uml_wf st → SysML2UML.step st line = Some st' →
  stdout st' = stdout st ++ (if uml_unhandled line then [warning line] else []).
Proof.
  intros Hwf. rewrite uml_step_action. unfold uml_unhandled, nonblank.
  destruct (is_blank line); simpl.
  { intros [= <-]. by rewrite app_nil_r. }
  destruct (uml_action_of_total line) as [act Hact]. rewrite Hact. simpl.
  destruct (uml_wf_stack st Hwf) as (open & Hs).
  destruct (pop_deeper_split (indent_of line) open) as (closed & kept & -> & _ & Hp).
  rewrite Hs, Hp. destruct (scopes_head kept) as (i & top & rest & ->).
  assert (Hnot : act ≠ UWarn →
            unmatched line && negb (SysML2UML.is_close (strip line)) = false).
  { intros Hne. destruct (unmatched line && negb (SysML2UML.is_close (strip line))) eqn:E;
      [|done].
    apply andb_true_iff in E as [E1 E2]. apply negb_true_iff in E2.
    destruct Hne. pose proof (proj2 (uml_action_warn_iff line) (conj E1 E2)). congruence. }
  destruct act as [d scope|desc| |]; simpl; intros [= <-]; simpl;
    try (rewrite Hnot by done; by rewrite app_nil_r).
  apply uml_action_warn_iff in Hact as [-> ->]. done.
Qed.

Lemma uml_run_stdout (lines : list string) :
  ∀ st st', uml_wf st → SysML2UML.run st lines = Some st' →
    stdout st' = stdout st ++ map warning (List.filter uml_unhandled lines).
Proof.
  induction lines as [|line rest IH]; intros st st' Hwf; simpl.
  { intros [= <-]. by rewrite app_nil_r. }
  destruct (uml_step_wf st line Hwf) as (st1 & Hstep & Hwf1). rewrite Hstep. simpl.
  intros Hrun. rewrite (IH st1 st' Hwf1 Hrun), (uml_step_stdout st st1 line Hwf Hstep).
  rewrite <- app_assoc. f_equal. by destruct (uml_unhandled line).
Qed.

(** X9: the parser of SysML2UML.py never raises and returns a tree on
    every text: its loop pops on [indent < stack[-1][0]] with no test on
    the length of the stack, but the sentinel, recorded at indent 0, is
    never popped, so [stack[-1]] is always there. *)
Theorem uml_parser_never_raises (text : string) :
  is_Some (SysML2UML.parse_indented_model text) ∧
  ∃ st open, SysML2UML.exec text = Some st ∧ stack st = open ++ [sentinel].
Proof.
  unfold SysML2UML.parse_indented_model, SysML2UML.exec.
  destruct (uml_run_wf (splitlines text) init init_uml_wf) as (st & Hrun & Hwf).
  rewrite Hrun. simpl.
  destruct (uml_wf_stack st Hwf) as (open & Hs). split; [|by exists st, open].
  apply reify_total; [apply Hwf|].
  pose proof (uml_wf_addr st Hwf) as Haddr. rewrite Hs in Haddr.
  apply Forall_app in Haddr as [_ Haddr]. apply Forall_cons in Haddr as [H _].
  simpl in H. lia.
Qed.

(** X10: the parser of SysML2UML.py prints exactly one warning,
    [Warning: Unhandled line: <line>], per non-blank line that matches
    none of the four patterns and is not a closing brace on its own, in
    the order of the text; a line that is only a closing brace is silent. *)
Theorem uml_warnings_spare_the_closing_brace (text : string) :
  SysML2UML.printed text
    = Some (map warning (List.filter uml_unhandled (splitlines text))).
Proof.
  unfold SysML2UML.printed, SysML2UML.exec.
  destruct (uml_run_wf (splitlines text) init init_uml_wf) as (st & Hrun & Hwf).
  rewrite Hrun. simpl. by rewrite (uml_run_stdout _ _ _ init_uml_wf Hrun).
Qed.

Lemma uml_action_scope (line : string) (d : Dict) :
  uml_action_of line = Some (UCreate d true) → SysML2UML.opens_scope line = true.
Proof.
  unfold uml_action_of.
  destruct (re_match package_pattern line) as [m|].
  { destruct (group m 1); simpl; [|done]. by intros [= _ ->]. }
  destruct (re_match part_pattern line) as [m|].
  { destruct (group m 1); simpl; [|done]. destruct (group m 3); simpl; [|done].
    by intros [= _ ->]. }
  destruct (re_match actor_pattern line) as [m|].
  { destruct (group m 1); simpl; done. }
  destruct (re_match description_pattern line) as [m|].
  { destruct (group m 1); simpl; done. }
  by destruct (SysML2UML.is_close (strip line)).
Qed.

Lemma uml_action_declares (line : string) (a : uml_action) :
  uml_action_of line = Some a →
  declares line = match a with UCreate _ _ => true | _ => false end.
Proof.
  unfold uml_action_of, declares.
  destruct (re_match package_pattern line) as [m|].
  { destruct (group m 1); simpl; [|done]. by intros [= <-]. }
  destruct (re_match part_pattern line) as [m|].
  { destruct (group m 1); simpl; [|done].
    destruct (group m 3); simpl; [|done]. by intros [= <-]. }
  destruct (re_match actor_pattern line) as [m|].
  { destruct (group m 1); simpl; [|done]. by intros [= <-]. }
  destruct (re_match description_pattern line) as [m|].
  { destruct (group m 1); simpl; [|done]. by intros [= <-]. }
  intros [= <-]. by destruct (SysML2UML.is_close (strip line)).
Qed.

Lemma uml_step_flat (st st' : PState) (line : string) :
  flat st → SysML2UML.opens_scope line = false →
  SysML2UML.step st line = Some st' →
  flat st' ∧ length (heap st') = length (heap st) + (if declaring line then 1 else 0).
Proof.
  intros (Hs & (d0 & Hd0 & Hparts) & Hleaf) Hopen. rewrite uml_step_action.
  unfold declaring, nonblank.
  destruct (is_blank line); simpl.
  { intros [= <-]. split; [by split_and!; eauto|lia]. }
  destruct (uml_action_of line) as [act|] eqn:Hact; simpl; [|done].
  rewrite (uml_action_declares line act Hact), Hs. simpl.
  assert (Hlen : 0 < length (heap st)) by (by eapply lookup_lt_Some).
  destruct act as [d [|]|desc| |]; simpl; intros [= <-]; unfold flat; simpl.
  - apply uml_action_scope in Hact. congruence.
  - apply uml_action_of_fresh in Hact as (_ & _ & _ & Hfresh).
    rewrite !length_alter, !length_app. simpl. split; [|lia].
    split_and!; [done| |].
    + exists (append_part (length (heap st)) d0). split.
      * by rewrite list_lookup_alter_eq, lookup_app_l, Hd0.
      * simpl. rewrite Hparts. simpl. f_equal.
        replace (length (heap st) + 1 - 1) with (S (length (heap st) - 1)) by lia.
        rewrite seq_S. f_equal. f_equal. lia.
    + intros a da Hda Ha. rewrite list_lookup_alter_ne in Hda by lia.
      apply lookup_app_Some in Hda as [Hda|[_ Hda]]; [by eapply Hleaf|].
      by apply list_lookup_singleton_Some in Hda as [_ <-].
  - rewrite length_alter. split; [|lia]. split_and!; [done| |].
    + exists (set_description desc d0). by rewrite list_lookup_alter_eq, Hd0.
    + intros a da Hda Ha. rewrite list_lookup_alter_ne in Hda by lia. by eapply Hleaf.
  - split; [by split_and!; eauto|lia].
  - split; [by split_and!; eauto|lia].
Qed.

Lemma uml_run_flat (lines : list string) :
  Forall (fun line => SysML2UML.opens_scope line = false) lines →
  ∀ st st', flat st → SysML2UML.run st lines = Some st' →
    flat st' ∧ length (heap st') = length (heap st) + length (List.filter declaring lines).
Proof.
  induction 1 as [|line rest Hline _ IH]; intros st st' Hflat; simpl.
  { intros [= <-]. split; [done|lia]. }
  destruct (SysML2UML.step st line) as [st1|] eqn:Hstep; simpl; [|done].
  destruct (uml_step_flat st st1 line Hflat Hline Hstep) as [Hflat1 Hlen1].
  intros Hrun. destruct (IH st1 st' Hflat1 Hrun) as [Hflat' Hlen'].
  split; [done|]. rewrite Hlen', Hlen1. destruct (declaring line); simpl; lia.
Qed.

Lemma reify_node_leaf (fuel : nat) (h : list Dict) (a : nat) (node : Node) :
  reify_node fuel h a = Some node →
  ∃ d, h !! a = Some d ∧
       (d_parts d = None ∨ d_parts d = Some [] → get_parts node = []).
Proof.
  destruct fuel as [|fuel]; simpl; [done|].
  destruct (h !! a) as [d|]; simpl; [|done].
  destruct (d_type d); simpl; [|done].
  destruct (d_name d); simpl; [|done].
  destruct (d_parts d) as [[|c cs]|] eqn:E; simpl.
  - intros [= <-]. eauto.
  - destruct (reify_node fuel h c); simpl; [|done].
    destruct (mapM (reify_node fuel h) cs); simpl; [|done].
    intros [= <-]. exists d. split; [done|]. intros [H|H]; congruence.
  - intros [= <-]. eauto.
Qed.

(** X11: the parser of SysML2UML.py nests on braces only.  When no line
    of the text ends with an opening brace, whatever the indentation, the
    tree is flat: every declared node is a child of the root, there are as
    many of them as non-blank lines that declare a node, and none has a
    child. *)
Theorem uml_tree_is_flat_without_braces (text : string) (tree : Tree) :
  Forall (fun line => SysML2UML.opens_scope line = false) (splitlines text) →
  SysML2UML.parse_indented_model text = Some tree →
  Forall (fun child => get_parts child = []) (top_level tree) ∧
  length (top_level tree) = length (List.filter declaring (splitlines text)).
Proof.
  intros Hlines. unfold SysML2UML.parse_indented_model, SysML2UML.exec.
  destruct (SysML2UML.run init (splitlines text)) as [st|] eqn:Hrun; simpl; [|done].
  assert (Hinit : flat init).
  { split_and!; [done|by exists root_dict|]. intros [|a] d; simpl; [lia|done]. }
  destruct (uml_run_flat _ Hlines init st Hinit Hrun)
    as [(_ & (d0 & Hd0 & Hparts) & Hleaf) Hlen].
  unfold reify. rewrite Hd0. simpl. rewrite Hparts. simpl.
  destruct (mapM (reify_node (length (heap st)) (heap st)) (seq 1 (length (heap st) - 1)))
    as [ns|] eqn:E; simpl; [|done].
  intros [= <-]. unfold top_level. simpl.
  pose proof (length_mapM _ _ _ E) as Hns. rewrite length_seq in Hns.
  split; [|simpl in Hlen; lia].
  apply mapM_Some_1 in E.
  assert (Hpos : Forall (fun a => 0 < a) (seq 1 (length (heap st) - 1))).
  { apply Forall_forall. intros a Ha. apply list_elem_of_In, in_seq in Ha. lia. }
  clear Hns Hparts. revert Hpos.
  induction E as [|a n cs ns' Ha _ IH]; intros Hpos; [done|].
  apply Forall_cons in Hpos as [Hpos1 Hpos2]. constructor; [|by apply IH].
  apply reify_node_leaf in Ha as (d & Hd & Hn). apply Hn. by eapply Hleaf.
Qed.

(** X11 on three indented lines without a brace. *)
Lemma uml_tree_is_flat_witness :
  let text := str_join nls ["package A"; "  part B : LogicalComponent"; "    actor C"] in
  Forall (fun line => SysML2UML.opens_scope line = false) (splitlines text) ∧
  SysML2UML.parse_indented_model text
    = Some (mkTree None (Some [mkNode "Package" "A" None None (Some []);
                               mkNode "LogicalComponent" "B" None None (Some []);
                               mkNode "LogicalActor" "C" None None None])) ∧
  Forall (fun child => get_parts child = [])
    [mkNode "Package" "A" None None (Some []);
     mkNode "LogicalComponent" "B" None None (Some []);
     mkNode "LogicalActor" "C" None None None] ∧
  3 = length (List.filter declaring (splitlines text)).
Proof.
  assert (H1 : Forall (fun line => SysML2UML.opens_scope line = false)
                 (splitlines
                    (str_join nls ["package A"; "  part B : LogicalComponent"; "    actor C"]))).
  { vm_compute. repeat constructor. }
  split; [exact H1|]. split; [reflexivity|].
  exact (uml_tree_is_flat_without_braces
           (str_join nls ["package A"; "  part B : LogicalComponent"; "    actor C"])
           _ H1 eq_refl).
Defined.

(** ** Names that are not quoted *)

Lemma star_match_greedy {B : Type} (p : ascii → bool) (s : string)
    (k : string → option B) (r : B) :
  k (lstrip_with p s) = Some r → star_match p s k = Some r.
Proof.
  induction s as [|c s IH]; simpl; [done|].
  destruct (p c); [|done]. intros H. by rewrite (IH H).
Qed.

Lemma has_dq_lstrip (p : ascii → bool) (s : string) :
  has_dq s = false → has_dq (lstrip_with p s) = false.
Proof.
  induction s as [|c s IH]; simpl; [done|]. intros H.
  apply orb_false_iff in H as [Hc Hs]. destruct (p c); [auto|]. simpl. by rewrite Hc, Hs.
Qed.

Lemma has_dq_drop_prefix (w s s' : string) :
  drop_prefix w s = Some s' → has_dq s = false → has_dq s' = false.
Proof.
  revert s. induction w as [|a w IH]; intros s; simpl; [by intros [= <-]|].
  destruct s as [|b s]; [done|]. destruct (Ascii.eqb a b); [|done].
  intros H Hs. simpl in Hs. apply orb_false_iff in Hs as [_ Hs]. eauto.
Qed.

Lemma star_match_tail {B : Type} (p : ascii → bool) (s : string)
    (k : string → option B) (res : B) :
  star_match p s k = Some res → has_dq s = false →
  ∃ s', k s' = Some res ∧ has_dq s' = false.
Proof.
  induction s as [|c s IH]; simpl; intros H Hs; [eauto|].
  destruct (p c); [|eauto].
  destruct (star_match p s k) eqn:E; [|eauto].
  inversion H; subst. apply orb_false_iff in Hs as [_ Hs]. auto.
Qed.

(** Where a pattern without groups hands over to what follows it, no
    group has been added and the text left holds no more quotes than the
    text it started on. *)
Lemma rmatch_groupless (r : regex) :
  groupless r = true →
  ∀ s caps k res, rmatch r s caps k = Some res → has_dq s = false →
    ∃ s', k s' caps = Some res ∧ has_dq s' = false.
Proof.
  induction r as [c|w|p|p|p|r IH|r1 IH1 r2 IH2|m r IH]; simpl; intros Hg s caps k res H Hs.
  - destruct s as [|x s]; [done|]. destruct (Ascii.eqb x c); [|done].
    simpl in Hs. apply orb_false_iff in Hs as [_ Hs]. eauto.
  - destruct (drop_prefix w s) as [s'|] eqn:E; [|done].
    exists s'. split; [done|]. by eapply has_dq_drop_prefix.
  - destruct s as [|x s]; [done|]. destruct (p x); [|done].
    simpl in Hs. apply orb_false_iff in Hs as [_ Hs]. eauto.
  - by apply star_match_tail in H.
  - destruct s as [|x s]; [done|]. destruct (p x); [|done].
    simpl in Hs. apply orb_false_iff in Hs as [_ Hs].
    by apply star_match_tail in H.
  - destruct (rmatch r s caps k) eqn:E; [|eauto].
    inversion H; subst. eauto.
  - apply andb_true_iff in Hg as [Hg1 Hg2].
    destruct (IH1 Hg1 _ _ _ _ H Hs) as (s1 & H1 & Hs1). eauto.
  - done.
Qed.

Lemma name_char_not_space (c : ascii) : is_name_char c = false → is_space c = false.
Proof.
  unfold is_name_char. intros H. apply orb_false_iff in H as [_ H]. done.
Qed.

Lemma lstrip_with_head (p : ascii → bool) (s : string) :
  match lstrip_with p s with
  | String c _ => p c = false
  | EmptyString => True
  end.
Proof. apply lstrip_with_no_lead. Qed.

(** After a name that is not quoted there is no alias to read: the class
    of the name has taken the blanks and the letters of [as]. *)
Lemma quoted_name_and_alias_unquoted (s : string) (caps m : captures) :
  has_dq s = false →
  rmatch quoted_name_and_alias s caps (fun _ caps' => Some caps') = Some m →
  ∃ g, m = (1, g) :: caps.
Proof.
  intros Hs. unfold quoted_name_and_alias, as_alias. cbn [rmatch].
  destruct s as [|x s]; [done|].
  simpl in Hs. apply orb_false_iff in Hs as [Hx Hs].
  assert (Hne : Ascii.eqb x dq = false).
  { destruct (Ascii.eqb x dq) eqn:E; [|done]. apply Ascii.eqb_eq in E as ->. done. }
  rewrite Hne. destruct (is_name_char x) eqn:Ex; [|done].
  pose proof (has_dq_lstrip is_name_char s Hs) as Ht.
  pose proof (lstrip_with_head is_name_char s) as Hhead.
  destruct (lstrip_with is_name_char s) as [|c t] eqn:Et; intros H.
  - rewrite (star_match_greedy _ _ _ ((1, consumed (String x s) "") :: caps)) in H.
    + injection H as <-. eauto.
    + by rewrite Et.
  - rewrite (star_match_greedy _ _ _ ((1, consumed (String x s) (String c t)) :: caps)) in H.
    + injection H as <-. eauto.
    + rewrite Et. simpl in Ht. apply orb_false_iff in Ht as [Hc Ht].
      assert (Hcq : Ascii.eqb c dq = false).
      { destruct (Ascii.eqb c dq) eqn:E; [|done]. apply Ascii.eqb_eq in E as ->. done. }
      rewrite Hcq. cbn [star_match]. rewrite (name_char_not_space c Hhead).
      cbn [drop_prefix].
      destruct (Ascii.eqb "a" c) eqn:Ea; [|done].
      apply Ascii.eqb_eq in Ea as <-. done.
Qed.

Lemma name_pattern_unquoted (kw line : string) (m : captures) :
  has_dq line = false →
  re_match (Star is_space +> Str kw +> Plus is_space +> quoted_name_and_alias) line = Some m →
  ∃ g, m = [(1, g)].
Proof.
  intros Hs H. unfold re_match in H. cbn [rmatch] in H.
  apply star_match_tail in H as (s1 & H & Hs1); [|done].
  destruct (drop_prefix kw s1) as [s2|] eqn:E2; [|done].
  pose proof (has_dq_drop_prefix _ _ _ E2 Hs1) as Hs2.
  destruct s2 as [|x s2]; [done|]. destruct (is_space x); [|done].
  simpl in Hs2. apply orb_false_iff in Hs2 as [_ Hs2].
  apply star_match_tail in H as (s3 & H & Hs3); [|done].
  by apply (quoted_name_and_alias_unquoted s3 [] m Hs3).
Qed.

Lemma package_unquoted (line : string) (m : captures) :
  has_dq line = false → re_match package_pattern line = Some m → group m 2 = None.
Proof.
  intros Hs H. by destruct (name_pattern_unquoted "package" line m Hs H) as [g ->].
Qed.

Lemma actor_unquoted (line : string) (m : captures) :
  has_dq line = false → re_match actor_pattern line = Some m → group m 2 = None.
Proof.
  intros Hs H. by destruct (name_pattern_unquoted "actor" line m Hs H) as [g ->].
Qed.

(** X12: a package or an actor gets an alias only when its name is
    quoted.  On a line without a double quote the class of the name takes
    the blanks and the letters of [as <alias>] too, so the second group
    never takes part: the node is created without alias, by the parser of
    SysML2Mermaid.py and SysML2dot.py and by the one of SysML2UML.py; only
    a part line may still carry one. *)
Theorem unquoted_names_take_no_alias (line : string) :
  has_dq line = false →
  (∀ m, re_match package_pattern line = Some m → group m 2 = None) ∧
  (∀ m, re_match actor_pattern line = Some m → group m 2 = None) ∧
  (∀ d, action_of line = Some (Create d) → is_Some (d_alias d) →
        re_match package_pattern line = None ∧ is_Some (re_match part_pattern line)) ∧
  (∀ d scope, uml_action_of line = Some (UCreate d scope) → is_Some (d_alias d) →
        re_match package_pattern line = None ∧ is_Some (re_match part_pattern line)).
Proof.
  intros Hs. split_and!.
  - intros m. by apply package_unquoted.
  - intros m. by apply actor_unquoted.
  - intros d. unfold action_of.
    destruct (re_match package_pattern line) as [m|] eqn:E1.
    { rewrite (package_unquoted line m Hs E1).
      destruct (group m 1); simpl; [|done]. intros [= <-] [? [=]]. }
    destruct (re_match part_pattern line) as [m|] eqn:E2; [eauto|].
    destruct (re_match actor_pattern line) as [m|] eqn:E3.
    { rewrite (actor_unquoted line m Hs E3).
      destruct (group m 1); simpl; [|done]. intros [= <-] [? [=]]. }
    destruct (re_match description_pattern line) as [m|]; [|done].
    destruct (group m 1); simpl; done.
  - intros d scope. unfold uml_action_of.
    destruct (re_match package_pattern line) as [m|] eqn:E1.
    { rewrite (package_unquoted line m Hs E1).
      destruct (group m 1); simpl; [|done]. intros [= <- _] [? [=]]. }
    destruct (re_match part_pattern line) as [m|] eqn:E2; [eauto|].
    destruct (re_match actor_pattern line) as [m|] eqn:E3.
    { rewrite (actor_unquoted line m Hs E3).
      destruct (group m 1); simpl; [|done]. intros [= <- _] [? [=]]. }
    destruct (re_match description_pattern line) as [m|].
    { destruct (group m 1); simpl; done. }
    by destruct (SysML2UML.is_close (strip line)).
Qed.

(** X12 on [package Foo as F]: the name is [Foo as F] and there is no
    alias. *)
Lemma unquoted_names_witness :
  has_dq "package Foo as F" = false ∧
  action_of "package Foo as F"
    = Some (Create (mkDict (Some "Package") (Some "Foo as F") None None (Some []))) ∧
  re_match package_pattern "package Foo as F" = Some [(1, "Foo as F")] ∧
  group [(1, "Foo as F")] 2 = None.
Proof.
  split; [reflexivity|]. split; [reflexivity|]. split; [reflexivity|].
  exact (proj1 (unquoted_names_take_no_alias "package Foo as F" eq_refl)
           [(1, "Foo as F")] eq_refl).
Defined.

(** ** The order of the nodes in the tree *)

Lemma keys_between_app (h : list Dict) (lo mid hi : nat) :
  lo ≤ mid → mid ≤ hi →
  keys_between h lo mid ++ keys_between h mid hi = keys_between h lo hi.
Proof.
  intros H1 H2. unfold keys_between. rewrite <- map_app. f_equal.
  replace (hi - lo) with ((mid - lo) + (hi - mid)) by lia.
  rewrite <- take_take_drop, drop_drop. do 3 f_equal. lia.
Qed.

Lemma keys_between_one (h : list Dict) (a : nat) (d : Dict) :
  h !! a = Some d → keys_between h a (S a) = [dict_key d].
Proof.
  intros H. unfold keys_between. replace (S a - a) with 1 by lia.
  rewrite <- (take_drop_middle h a d H) at 1.
  rewrite drop_app_length'; [done|].
  rewrite length_take. apply lookup_lt_Some in H. lia.
Qed.

Lemma keys_between_ext (h h' : list Dict) (lo hi : nat) :
  (∀ x, lo ≤ x → x < hi → dict_key <$> h' !! x = dict_key <$> h !! x) →
  keys_between h' lo hi = keys_between h lo hi.
Proof.
  intros H. unfold keys_between. apply list_eq. intros i.
  rewrite !list_lookup_fmap, !lookup_take, !lookup_drop.
  destruct (decide (i < hi - lo)) as [Hi|Hi]; [|done].
  apply H; lia.
Qed.

(** Reading a sealed stretch of the store depends on that stretch only. *)
Lemma reify_node_agree (h h' : list Dict) (lo hi : nat) :
  sealed h lo hi →
  (∀ x, lo ≤ x → x < hi → h' !! x = h !! x) →
  ∀ fuel a, lo ≤ a → a < hi → reify_node fuel h' a = reify_node fuel h a.
Proof.
  intros Hsealed Hagree fuel. induction fuel as [|fuel IH]; intros a Hlo Hhi; [done|].
  simpl. rewrite (Hagree a Hlo Hhi).
  destruct (h !! a) as [d|] eqn:Hd; simpl; [|done].
  destruct (d_type d); simpl; [|done].
  destruct (d_name d); simpl; [|done].
  destruct (d_parts d) as [cs|] eqn:Hcs; [|done].
  rewrite (Forall_mapM_ext (reify_node fuel h') (reify_node fuel h) cs); [done|].
  apply Forall_forall. intros c Hc.
  pose proof (Hsealed a d Hlo Hhi Hd cs c Hcs Hc). apply IH; lia.
Qed.

Lemma stored_agree (h h' : list Dict) (lo hi c : nat) (n : Node) :
  sealed h lo hi →
  (∀ x, lo ≤ x → x < hi → h' !! x = h !! x) →
  lo ≤ c → c < hi → stored h hi c n → stored h' hi c n.
Proof.
  intros Hsealed Hagree Hlo Hhi Hst fuel Hfuel.
  rewrite (reify_node_agree h h' lo hi); auto.
Qed.

Lemma sealed_agree (h h' : list Dict) (lo hi : nat) :
  (∀ x, lo ≤ x → x < hi → h' !! x = h !! x) → sealed h lo hi → sealed h' lo hi.
Proof.
  intros Hagree Hsealed a d Hlo Hhi Hd. rewrite Hagree in Hd by done. by eapply Hsealed.
Qed.

Lemma closed_children_agree (h h' : list Dict) (a hi : nat) (cs : list nat) :
  sealed h (S a) hi →
  (∀ x, a < x → x < hi → h' !! x = h !! x) →
  closed_children h a hi cs → closed_children h' a hi cs.
Proof.
  intros Hsealed Hagree (Hcs & ns & Hns & Hpre). split; [done|].
  exists ns. split.
  - clear Hpre. induction Hns as [|c n cs ns Hc _ IH]; [done|].
    apply Forall_cons in Hcs as [Hc1 Hcs]. constructor; [|by apply IH].
    apply (stored_agree h h' (S a) hi); auto; lia.
  - rewrite Hpre. symmetry. apply keys_between_ext.
    intros x Hx1 Hx2. rewrite Hagree; [done|lia|done].
Qed.

(** A chain below [hi] depends on the store below [hi] only. *)
Lemma chain_agree (h h' : list Dict) (addrs : list nat) :
  ∀ hi upper,
    (∀ x, x < hi → h' !! x = h !! x) →
    chain h hi upper addrs → chain h' hi upper addrs.
Proof.
  induction addrs as [|a rest IH]; intros hi upper Hagree; [done|].
  intros (Ha & Hsealed & (d & cs & Hd & Hparts & Hclosed) & Hrest).
  split_and!.
  - done.
  - eapply sealed_agree; [|done]. intros x _ Hx. by apply Hagree.
  - exists d, cs. split_and!; [by rewrite Hagree|done|].
    eapply closed_children_agree; [done| |done]. intros x _ Hx. by apply Hagree.
  - destruct rest as [|b rest]; [done|]. apply IH; [|done].
    intros x Hx. apply Hagree. lia.
Qed.

Lemma stored_mono (h : list Dict) (hi hi' c : nat) (n : Node) :
  hi ≤ hi' → stored h hi c n → stored h hi' c n.
Proof. intros H Hs fuel Hf. apply Hs. lia. Qed.

Lemma stored_children (h : list Dict) (hi a : nat) (cs : list nat) (ns : list Node)
    (fuel : nat) :
  Forall (fun c => a < c < hi) cs → Forall2 (stored h hi) cs ns → hi - a ≤ S fuel →
  mapM (reify_node fuel h) cs = Some ns.
Proof.
  intros Hb H Hf. apply mapM_Some_2.
  induction H as [|c n cs ns Hc _ IH]; constructor.
  - apply Forall_cons in Hb as [Hb _]. apply Hc. lia.
  - apply Forall_cons in Hb as [_ Hb]. by apply IH.
Qed.

(** Closing the node on top of the stack makes it the last finished child
    of the node below it. *)
Lemma chain_pop (h : list Dict) (hi a b : nat) (rest : list nat) :
  heap_ok h → chain h hi None (a :: b :: rest) → chain h hi None (b :: rest).
Proof.
  intros Hh (Ha & Hsa & (da & csa & Hda & Hpa & Hfa & nsa & Hnsa & Hka)
             & Hb & Hsb & (db & csb & Hdb & Hpb & Hfb & nsb & Hnsb & Hkb) & Hrest).
  simpl in Hpa, Hpb.
  destruct (Hh a da Hda) as [Hnamed _].
  destruct Hnamed as [[t Ht] [x Hx]]; [lia|].
  set (na := mkNode t x (d_alias da) (d_description da)
                    (match d_parts da with Some _ => Some nsa | None => None end)).
  assert (Hstored : stored h hi a na).
  { intros fuel Hf. destruct fuel as [|fuel]; [lia|]. simpl.
    rewrite Hda. simpl. rewrite Ht, Hx. simpl. subst na.
    destruct (d_parts da) as [cs|] eqn:Ecs; simpl in Hpa; [|done]. subst cs.
    rewrite (stored_children h hi a csa nsa fuel); [done|done|done|lia]. }
  assert (Hpre : preorder na = dict_key da :: flat_map preorder nsa).
  { subst na. unfold dict_key. simpl. rewrite Ht, Hx. f_equal.
    destruct (d_parts da) as [cs|] eqn:Ecs; simpl in Hpa; [done|]. subst csa.
    by apply Forall2_nil_inv_l in Hnsa as ->. }
  split_and!.
  - lia.
  - intros y d Hlo Hhi Hd cs c Hcs Hc.
    destruct (decide (y < a)) as [Hy|Hy].
    { pose proof (Hsb y d Hlo Hy Hd cs c Hcs Hc). lia. }
    destruct (decide (y = a)) as [->|Hya].
    { rewrite Hda in Hd. injection Hd as <-. rewrite Hcs in Hpa. simpl in Hpa. subst cs.
      rewrite Forall_forall in Hfa. apply Hfa in Hc. lia. }
    assert (Hlo' : S a ≤ y) by lia.
    apply (Hsa y d Hlo' Hhi Hd cs c Hcs Hc).
  - exists db, (csb ++ [a]). unfold closed_children. split_and!.
    + done.
    + simpl. by rewrite Hpb.
    + apply Forall_app. split.
      * eapply Forall_impl; [exact Hfb|]. simpl. lia.
      * constructor; [lia|done].
    + exists (nsb ++ [na]). split.
      * apply Forall2_app.
        -- eapply Forall2_impl; [exact Hnsb|]. intros c n. apply stored_mono. lia.
        -- by constructor.
      * rewrite flat_map_app, Hkb. cbn [flat_map]. rewrite app_nil_r, Hpre, Hka.
        rewrite cons_middle, <- (keys_between_one h a da Hda).
        rewrite (keys_between_app h a (S a) hi) by lia.
        apply keys_between_app; lia.
  - done.
Qed.

Lemma chain_pops (h : list Dict) (hi : nat) (closed rest : list nat) :
  heap_ok h → rest ≠ [] → chain h hi None (closed ++ rest) → chain h hi None rest.
Proof.
  intros Hh Hne. induction closed as [|a closed IH]; [done|].
  intros H. apply IH. simpl in H.
  destruct (closed ++ rest) as [|b l] eqn:E.
  { by destruct closed, rest. }
  by apply (chain_pop h hi a b l).
Qed.

(** Updating the dictionary on top of the stack without touching the
    finished children. *)
Lemma chain_alter_top (h : list Dict) (hi : nat) (upper upper' : option nat)
    (p : nat) (rest : list nat) (f : Dict → Dict) :
  (∀ d cs, parts_of_open d cs upper → parts_of_open (f d) cs upper') →
  chain h hi upper (p :: rest) → chain (alter f p h) hi upper' (p :: rest).
Proof.
  intros Hf (Hp & Hs & (d & cs & Hd & Hparts & Hcl) & Hrest).
  assert (Hagree : ∀ x, x ≠ p → alter f p h !! x = h !! x).
  { intros x Hx. rewrite list_lookup_alter. by case_decide. }
  split_and!.
  - done.
  - eapply sealed_agree; [|done]. intros x Hx _. apply Hagree. lia.
  - exists (f d), cs. split_and!.
    + rewrite list_lookup_alter. case_decide; [|done]. by rewrite Hd.
    + by apply Hf.
    + eapply closed_children_agree; [done| |done]. intros x Hx _. apply Hagree. lia.
  - destruct rest as [|b rest]; [done|]. eapply chain_agree; [|done].
    intros x Hx. apply Hagree. lia.
Qed.

(** A new node is linked under the top of the stack and pushed. *)
Lemma chain_attach (h : list Dict) (d : Dict) (p : nat) (rest : list nat) :
  fresh d → chain h (length h) None (p :: rest) →
  chain (alter (append_part (length h)) p (h ++ [d])) (S (length h)) None
        (length h :: p :: rest).
Proof.
  intros (_ & _ & _ & Hparts) H.
  assert (Hp : p < length h) by apply H.
  assert (H1 : chain (h ++ [d]) (length h) None (p :: rest)).
  { eapply chain_agree; [|done]. intros x Hx. by rewrite lookup_app_l. }
  apply (chain_alter_top _ _ None (Some (length h)) p rest (append_part (length h))) in H1.
  2:{ intros d0 cs. simpl. by intros ->. }
  split_and!.
  - lia.
  - intros a d0 Ha1 Ha2. lia.
  - exists d, []. unfold closed_children. split_and!.
    + rewrite list_lookup_alter. case_decide; [lia|].
      by rewrite lookup_app_r, Nat.sub_diag.
    + simpl. by destruct Hparts as [->| ->].
    + done.
    + exists []. split; [done|]. unfold keys_between. by rewrite Nat.sub_diag.
  - done.
Qed.

(** The same for a node that is linked but not pushed: it is finished at
    once. *)
Lemma chain_leaf (h : list Dict) (d : Dict) (p : nat) (rest : list nat) :
  fresh d → chain h (length h) None (p :: rest) →
  chain (alter (append_part (length h)) p (h ++ [d])) (S (length h)) None (p :: rest).
Proof.
  intros Hfresh H.
  assert (Hok : ∀ a e, alter (append_part (length h)) p (h ++ [d]) !! a = Some e →
                       length h ≤ a → e = d ∧ a = length h).
  { intros a e. rewrite list_lookup_alter.
    assert (Hp : p < length h) by apply H.
    case_decide; [lia|]. intros Ha Hle.
    apply lookup_app_Some in Ha as [Ha|[_ Ha]].
    - apply lookup_lt_Some in Ha. lia.
    - apply list_lookup_singleton_Some in Ha as [Ha ->]. split; [done|lia]. }
  pose proof (chain_attach h d p rest Hfresh H) as (Hlt & _ & (d' & cs' & Hd' & Hp' & _) & Hrest).
  destruct (Hok _ _ Hd' ltac:(lia)) as [-> _].
  destruct Hfresh as (Ht & Hn & _ & Hparts).
  simpl in Hp'.
  destruct Hrest as (Hp & Hs & (dp & cs & Hdp & Hpp & Hfb & ns & Hns & Hk) & Hrest).
  simpl in Hpp.
  destruct Ht as [t Ht], Hn as [x Hn].
  set (h' := alter (append_part (length h)) p (h ++ [d])) in *.
  set (n := mkNode t x (d_alias d) (d_description d)
                   (match d_parts d with Some _ => Some [] | None => None end)).
  assert (Hstored : stored h' (S (length h)) (length h) n).
  { intros fuel Hf. destruct fuel as [|fuel]; [lia|]. simpl.
    rewrite Hd'. simpl. rewrite Ht, Hn. simpl. subst n.
    by destruct Hparts as [->| ->]. }
  assert (Hpre : preorder n = [dict_key d]).
  { subst n. unfold dict_key. simpl. rewrite Ht, Hn. f_equal.
    by destruct Hparts as [->| ->]. }
  split_and!.
  - lia.
  - intros y e Hlo Hhi He cs0 c Hcs Hc.
    destruct (decide (y < length h)) as [Hy|Hy].
    { pose proof (Hs y e Hlo Hy He cs0 c Hcs Hc). lia. }
    destruct (Hok _ _ He ltac:(lia)) as [-> ->].
    destruct Hparts as [Hparts|Hparts]; rewrite Hparts in Hcs; [done|].
    injection Hcs as <-. by apply elem_of_nil in Hc.
  - exists dp, (cs ++ [length h]). unfold closed_children. split_and!.
    + done.
    + simpl. by rewrite Hpp.
    + apply Forall_app. split.
      * eapply Forall_impl; [exact Hfb|]. simpl. lia.
      * constructor; [lia|done].
    + exists (ns ++ [n]). split.
      * apply Forall2_app.
        -- eapply Forall2_impl; [exact Hns|]. intros c m. apply stored_mono. lia.
        -- by constructor.
      * rewrite flat_map_app, Hk. cbn [flat_map]. rewrite app_nil_r, Hpre.
        rewrite <- (keys_between_one h' (length h) d Hd').
        apply keys_between_app; lia.
  - done.
Qed.

Lemma fmap_dict_key_alter (f : Dict → Dict) (a : nat) (h : list Dict) :
  (∀ d, dict_key (f d) = dict_key d) →
  dict_key <$> alter f a h = dict_key <$> h.
Proof.
  intros Hf. apply list_eq. intros i.
  rewrite !list_lookup_fmap, list_lookup_alter.
  case_decide; [subst i|done]. destruct (h !! a); simpl; [|done]. by rewrite Hf.
Qed.

Lemma declared_keys_cons (line : string) (rest : list string) :
  declared_keys (line :: rest) = declared_keys [line] ++ declared_keys rest.
Proof. unfold declared_keys. simpl. by rewrite app_nil_r. Qed.

(** A step of the indentation parsers keeps the stack and the store in
    step, and stores what the line declares after all that is there. *)
Lemma step_ordered (st st' : PState) (line : string) :
  wf st → ordered st → SysML2Mermaid.step st line = Some st' →
  ordered st' ∧
  dict_key <$> heap st' = (dict_key <$> heap st) ++ declared_keys [line].
Proof.
  intros Hwf Hord. rewrite step_action.
  unfold declared_keys, nonblank. simpl.
  destruct (is_blank line); simpl.
  { intros [= <-]. by rewrite app_nil_r. }
  destruct (action_of_total line) as [act Hact]. rewrite Hact. simpl.
  destruct (scopes_for_split st line Hwf) as (closed & kept & Hs & _ & _ & _ & ->).
  unfold ordered in Hord. rewrite Hs, fmap_app in Hord.
  apply chain_pops in Hord; [|apply Hwf|by destruct kept].
  destruct (scopes_head kept) as (i & top & rest & Hhd). rewrite Hhd in *.
  rewrite fmap_cons in Hord. cbn [snd] in Hord.
  destruct act as [d|desc|]; simpl; intros [= <-]; unfold ordered; simpl.
  - apply action_of_fresh in Hact.
    rewrite length_alter, length_app, Nat.add_1_r.
    split; [by apply chain_attach|].
    rewrite fmap_dict_key_alter by done. by rewrite fmap_app.
  - rewrite length_alter, app_nil_r.
    split; [|by apply fmap_dict_key_alter].
    apply (chain_alter_top (heap st) (length (heap st)) None None top
             ((fun e => e.2) <$> rest) (set_description desc)); [|done].
    by intros d cs.
  - by rewrite app_nil_r.
Qed.

Lemma init_ordered : ordered init.
Proof.
  unfold ordered. simpl. split; [lia|]. split; [intros a d Ha1 Ha2; lia|].
  split; [|done]. exists root_dict, []. split; [done|]. split; [done|].
  split; [done|]. by exists [].
Qed.

Lemma run_ordered (lines : list string) :
  ∀ st st', wf st → ordered st → SysML2Mermaid.run st lines = Some st' →
    wf st' ∧ ordered st' ∧
    dict_key <$> heap st' = (dict_key <$> heap st) ++ declared_keys lines.
Proof.
  induction lines as [|line rest IH]; intros st st' Hwf Hord; simpl.
  { intros [= <-]. by rewrite app_nil_r. }
  destruct (step_wf st line Hwf) as (st1 & Hstep & Hwf1). rewrite Hstep. simpl.
  destruct (step_ordered st st1 line Hwf Hord Hstep) as [Hord1 Hk1].
  intros Hrun. destruct (IH st1 st' Hwf1 Hord1 Hrun) as (Hwf' & Hord' & Hk').
  split_and!; [done..|].
  change (dict_key <$> heap st' =
          (dict_key <$> heap st) ++ declared_keys (line :: rest)).
  by rewrite Hk', Hk1, (declared_keys_cons line rest), app_assoc.
Qed.

(** When the loop is over, the root's children are the finished subtrees
    and list the whole store after the root. *)
Lemma ordered_reify (st : PState) :
  (∃ open, stack st = open ++ [sentinel]) → heap_ok (heap st) → ordered st →
  ∃ tree, reify (heap st) = Some tree ∧
          tree_preorder tree = drop 1 (dict_key <$> heap st).
Proof.
  intros (open & Hs) Hh Hord. unfold ordered in Hord.
  rewrite Hs, fmap_app in Hord.
  apply chain_pops in Hord; [|done..].
  destruct Hord as (Hlen & _ & (d & cs & Hd & Hp & Hb & ns & Hns & Hk) & _).
  simpl in Hp, Hd. unfold reify. simpl in *. rewrite Hd. simpl.
  assert (Hkeys : keys_between (heap st) 1 (length (heap st)) = drop 1 (dict_key <$> heap st)).
  { unfold keys_between. rewrite take_ge; [by rewrite fmap_drop|].
    rewrite length_drop. lia. }
  destruct (d_parts d) as [cs'|] eqn:Ecs; simpl in Hp; subst cs.
  - rewrite (stored_children (heap st) (length (heap st)) 0 cs' ns (length (heap st)));
      [|done|done|lia].
    simpl. eexists. split; [done|]. unfold tree_preorder, top_level. simpl.
    by rewrite Hk, Hkeys.
  - apply Forall2_nil_inv_l in Hns as ->. eexists. split; [done|].
    unfold tree_preorder, top_level. simpl. simpl in Hk. by rewrite <- Hkeys, <- Hk.
Qed.

(** X13.  The tree the two indentation parsers return lists, parents
    before children and children in order, exactly the nodes the lines of
    the text declare, in the order of the lines, each with the type, the
    name and the alias its line gives it: no declaration is lost, doubled
    or moved. *)
Theorem parsed_tree_lists_the_declarations_in_order (text : string) :
  ∃ tree,
    SysML2Mermaid.parse_indented_model text = Some tree ∧
    SysML2dot.parse_indented_model text = Some tree ∧
    tree_preorder tree = declared_keys (splitlines text).
Proof.
  assert (H : ∃ tree, SysML2Mermaid.parse_indented_model text = Some tree ∧
                      tree_preorder tree = declared_keys (splitlines text)).
  { unfold SysML2Mermaid.parse_indented_model, SysML2Mermaid.exec.
    destruct (run_wf (splitlines text) init init_wf) as (st & Hrun & Hwf).
    rewrite Hrun. simpl.
    destruct (run_ordered _ _ _ init_wf init_ordered Hrun) as (_ & Hord & Hk).
    destruct (ordered_reify st) as (tree & Htree & Hpre).
    - destruct (wf_stack st Hwf) as (open & Hs & _). eauto.
    - apply Hwf.
    - done.
    - exists tree. split; [done|]. by rewrite Hpre, Hk. }
  destruct H as (tree & Hm & Hpre). exists tree. split_and!; [done| |done].
  rewrite <- Hm. unfold SysML2dot.parse_indented_model, SysML2dot.exec,
    SysML2Mermaid.parse_indented_model, SysML2Mermaid.exec.
  by rewrite dot_run_eq.
Qed.

Lemma uml_declared_keys_cons (line : string) (rest : list string) :
  uml_declared_keys (line :: rest) = uml_declared_keys [line] ++ uml_declared_keys rest.
Proof. unfold uml_declared_keys. simpl. by rewrite app_nil_r. Qed.

(** The same for a step of SysML2UML.py, where a node without a trailing
    brace is linked without being pushed. *)
Lemma uml_step_ordered (st st' : PState) (line : string) :
  uml_wf st → ordered st → SysML2UML.step st line = Some st' →
  ordered st' ∧
  dict_key <$> heap st' = (dict_key <$> heap st) ++ uml_declared_keys [line].
Proof.
  intros Hwf Hord. rewrite uml_step_action.
  unfold uml_declared_keys, nonblank. simpl.
  destruct (is_blank line); simpl.
  { intros [= <-]. by rewrite app_nil_r. }
  destruct (uml_action_of_total line) as [act Hact]. rewrite Hact. simpl.
  destruct (uml_wf_stack st Hwf) as (open & Hs).
  destruct (pop_deeper_split (indent_of line) open) as (closed & kept & -> & _ & Hp).
  rewrite Hs, Hp.
  unfold ordered in Hord. rewrite Hs, <- app_assoc, fmap_app in Hord.
  apply chain_pops in Hord; [|apply Hwf|by destruct kept].
  destruct (scopes_head kept) as (i & top & rest & Hhd). rewrite Hhd in *.
  rewrite fmap_cons in Hord. cbn [snd] in Hord.
  destruct act as [d scope|desc| |]; simpl; intros [= <-]; unfold ordered; simpl.
  - apply uml_action_of_fresh in Hact.
    rewrite length_alter, length_app, Nat.add_1_r.
    split.
    + destruct scope; [by apply chain_attach|].
      exact (chain_leaf (heap st) d top ((fun e => e.2) <$> rest) Hact Hord).
    + rewrite fmap_dict_key_alter by done. by rewrite fmap_app.
  - rewrite length_alter, app_nil_r.
    split; [|by apply fmap_dict_key_alter].
    apply (chain_alter_top (heap st) (length (heap st)) None None top
             ((fun e => e.2) <$> rest) (set_description desc)); [|done].
    by intros d cs.
  - by rewrite app_nil_r.
  - by rewrite app_nil_r.
Qed.

Lemma uml_run_ordered (lines : list string) :
  ∀ st st', uml_wf st → ordered st → SysML2UML.run st lines = Some st' →
    uml_wf st' ∧ ordered st' ∧
    dict_key <$> heap st' = (dict_key <$> heap st) ++ uml_declared_keys lines.
Proof.
  induction lines as [|line rest IH]; intros st st' Hwf Hord; simpl.
  { intros [= <-]. by rewrite app_nil_r. }
  destruct (uml_step_wf st line Hwf) as (st1 & Hstep & Hwf1). rewrite Hstep. simpl.
  destruct (uml_step_ordered st st1 line Hwf Hord Hstep) as [Hord1 Hk1].
  intros Hrun. destruct (IH st1 st' Hwf1 Hord1 Hrun) as (Hwf' & Hord' & Hk').
  split_and!; [done..|].
  change (dict_key <$> heap st' =
          (dict_key <$> heap st) ++ uml_declared_keys (line :: rest)).
  by rewrite Hk', Hk1, (uml_declared_keys_cons line rest), app_assoc.
Qed.

(** X14.  The tree the parser of SysML2UML.py returns lists, parents
    before children and children in order, exactly the nodes the lines of
    the text declare, in the order of the lines, whether or not a line
    opens a scope with a brace. *)
Theorem uml_tree_lists_the_declarations_in_order (text : string) :
  ∃ tree,
    SysML2UML.parse_indented_model text = Some tree ∧
    tree_preorder tree = uml_declared_keys (splitlines text).
Proof.
  unfold SysML2UML.parse_indented_model, SysML2UML.exec.
  destruct (uml_run_wf (splitlines text) init init_uml_wf) as (st & Hrun & Hwf).
  rewrite Hrun. simpl.
  destruct (uml_run_ordered _ _ _ init_uml_wf init_ordered Hrun) as (_ & Hord & Hk).
  destruct (ordered_reify st) as (tree & Htree & Hpre).
  - apply Hwf.
  - apply Hwf.
  - done.
  - exists tree. split; [done|]. by rewrite Hpre, Hk.
Qed.

(** ** Blocks of the generated diagrams *)

Lemma endswith_char_app (a b : string) (c : ascii) :
  b ≠ EmptyString → endswith_char (a +:+ b) c = endswith_char b c.
Proof.
  intros Hb. induction a as [|x a IH]; [done|].
  change (String x a +:+ b) with (String x (a +:+ b)).
  rewrite <- IH. simpl. destruct (a +:+ b) eqn:E; [|done].
  destruct a; [|done]. by destruct b.
Qed.

Lemma app_nonempty_r (a b : string) : b ≠ EmptyString → a +:+ b ≠ EmptyString.
Proof. intros Hb. destruct a; [done|]. simpl. discriminate. Qed.

Ltac last_char :=
  repeat (rewrite endswith_char_app by (repeat apply app_nonempty_r; discriminate));
  try reflexivity.

Lemma nesting_app (l1 l2 : list string) :
  ∀ d, nesting d (l1 ++ l2) = d' ← nesting d l1; nesting d' l2.
Proof.
  induction l1 as [|l l1 IH]; intros d; simpl; [done|].
  destruct (endswith_char l "{"); [apply IH|].
  destruct (endswith_char l "}"); [|apply IH].
  destruct d; [done|apply IH].
Qed.

Lemma level_kept_nil : level_kept [].
Proof. by intros d. Qed.

Lemma level_kept_app (l1 l2 : list string) :
  level_kept l1 → level_kept l2 → level_kept (l1 ++ l2).
Proof. intros H1 H2 d. by rewrite nesting_app, H1; simpl. Qed.

Lemma level_kept_plain (l : string) :
  endswith_char l "{" = false → endswith_char l "}" = false → level_kept [l].
Proof. intros H1 H2 d. simpl. by rewrite H1, H2. Qed.

Lemma level_kept_block (o c : string) (inner : list string) :
  endswith_char o "{" = true →
  endswith_char c "{" = false → endswith_char c "}" = true →
  level_kept inner → level_kept ([o] ++ inner ++ [c]).
Proof.
  intros Ho Hc1 Hc2 Hin d. simpl. rewrite Ho, nesting_app, Hin. simpl.
  by rewrite Hc1, Hc2.
Qed.

Lemma level_kept_flat_map {A : Type} (f : A → list string) (l : list A) :
  Forall (fun x => level_kept (f x)) l → level_kept (flat_map f l).
Proof.
  induction 1 as [|x l Hx _ IH]; simpl; [apply level_kept_nil|].
  by apply level_kept_app.
Qed.

Lemma level_kept_selected (render : Node → list string) (keep : Node → bool)
    (cs : list Node) :
  Forall (fun child => level_kept (render child)) cs →
  level_kept (SysML2UML.extend_selected render keep cs).
Proof.
  intros H. apply level_kept_flat_map. eapply Forall_impl; [exact H|].
  intros child Hc. simpl. destruct (keep child); [done|apply level_kept_nil].
Qed.

(** Whatever the tree, [generate_plantuml] closes the blocks it opens. *)
Lemma generate_plantuml_level (n : Node) :
  ∀ indent, level_kept (SysML2UML.generate_plantuml n indent).
Proof.
  assert (Hkids : ∀ cs, Forall (fun c => ∀ i, level_kept (SysML2UML.generate_plantuml c i)) cs →
            ∀ i, Forall (fun c => level_kept (SysML2UML.generate_plantuml c i)) cs).
  { intros cs H i. eapply Forall_impl; [exact H|]. intros c Hc. apply Hc. }
  assert (Hcases : ∀ t x a d ps indent,
            (∀ cs, ps = Some cs →
                   Forall (fun c => ∀ i, level_kept (SysML2UML.generate_plantuml c i)) cs) →
            level_kept (SysML2UML.generate_plantuml (mkNode t x a d ps) indent)).
  { intros t x a d ps indent Hps. simpl.
    destruct (str_eqb t "Package").
    { apply level_kept_block.
      - destruct a; unfold SysML2UML.format_element; last_char.
      - last_char.
      - last_char.
      - destruct ps as [cs|]; [|apply level_kept_nil].
        specialize (Hps cs eq_refl).
        destruct (startswith (strip x) "DroneDevelopment").
        + apply level_kept_app; apply level_kept_selected; apply (Hkids cs Hps).
        + apply level_kept_flat_map, (Hkids cs Hps). }
    destruct (str_eqb t "LogicalComponent").
    { destruct ps as [[|c cs]|].
      - apply level_kept_plain; last_char.
      - apply level_kept_block; [last_char..|].
        specialize (Hps (c :: cs) eq_refl).
        apply (level_kept_flat_map _ (c :: cs)). by apply Hkids.
      - apply level_kept_plain; last_char. }
    destruct (str_eqb t "LogicalFunction").
    { apply (level_kept_block _ _ [_]); [last_char..|].
      apply level_kept_plain; unfold quoted; last_char. }
    destruct (str_eqb t "LogicalActor").
    { apply level_kept_plain; last_char. }
    apply level_kept_plain; unfold quoted; last_char. }
  induction n as [t x a d|t x a d cs IH] using Node_induction; intros indent;
    apply Hcases; [done|]. by intros cs' [= <-].
Qed.

Lemma nest_from_level (indent : nat) (cs : list Node) :
  Forall (fun child => ∀ i c, level_kept (SysML2dot.generate_dot child i c).1.2) cs →
  ∀ c, level_kept (nest_from indent cs c).1.
Proof.
  induction 1 as [|child rest Hc _ IH]; intros c; [apply level_kept_nil|].
  rewrite nest_from_cons. specialize (Hc (indent + 4) c).
  destruct (SysML2dot.generate_dot child (indent + 4) c) as [[rep ls] c'].
  specialize (IH c'). destruct (nest_from indent rest c') as [more c''].
  by apply level_kept_app.
Qed.

(** Whatever the tree, [generate_dot] closes the clusters it opens. *)
Lemma generate_dot_level (n : Node) :
  ∀ indent c, level_kept (SysML2dot.generate_dot n indent c).1.2.
Proof.
  assert (Hcases : ∀ t x a d ps indent c,
            (∀ cs, ps = Some cs →
                   Forall (fun child => ∀ i c, level_kept (SysML2dot.generate_dot child i c).1.2) cs) →
            level_kept (SysML2dot.generate_dot (mkNode t x a d ps) indent c).1.2).
  { intros t x a d ps indent c Hps. rewrite generate_dot_eq.
    unfold SysML2dot.next_id. cbv beta iota zeta.
    assert (Hplain : ∀ l, endswith_char l "{" = false → endswith_char l "}" = false →
              level_kept ([times " " indent +:+ "subgraph " +:+ "cluster_" +:+ "id" +:+ pretty (c + 1) +:+ " {"]
                          ++ [l] ++ [times " " indent +:+ "}"])).
    { intros l H1 H2. apply level_kept_block; [last_char..|]. by apply level_kept_plain. }
    assert (Hnest : ∀ cs head, ps = Some cs → level_kept head →
              level_kept ([times " " indent +:+ "subgraph " +:+ "cluster_" +:+ "id" +:+ pretty (c + 1) +:+ " {"]
                          ++ (head ++ (nest_from indent cs (c + 1 + 1)).1)
                          ++ [times " " indent +:+ "}"])).
    { intros cs head Hcs Hhead. apply level_kept_block; [last_char..|].
      apply level_kept_app; [done|]. apply nest_from_level. by apply Hps. }
    destruct (str_eqb t "LogicalFunction").
    { apply Hplain; last_char. }
    destruct (str_eqb t "LogicalComponent").
    { destruct ps as [[|child cs]|].
      - apply Hplain; last_char.
      - specialize (Hnest (child :: cs)).
        destruct (nest_from indent (child :: cs) (c + 1 + 1)) as [nested c'].
        apply Hnest; [done|].
        repeat (apply (level_kept_app [_]); [apply level_kept_plain; unfold quoted; last_char|]).
        apply level_kept_nil.
      - apply Hplain; last_char. }
    destruct (str_eqb t "LogicalActor").
    { apply Hplain; last_char. }
    destruct (str_eqb t "Package").
    { destruct ps as [cs|].
      - specialize (Hnest cs).
        destruct (nest_from indent cs (c + 1 + 1)) as [nested c'].
        apply Hnest; [done|].
        repeat (apply (level_kept_app [_]); [apply level_kept_plain; unfold quoted; last_char|]).
        apply level_kept_nil.
      - apply level_kept_block; [last_char..|].
        repeat (apply (level_kept_app [_]); [apply level_kept_plain; unfold quoted; last_char|]).
        apply level_kept_nil. }
    apply Hplain; unfold quoted; last_char. }
  induction n as [t x a d|t x a d cs IH] using Node_induction; intros indent c;
    apply Hcases; [done|]. by intros cs' [= <-].
Qed.

Lemma fold_visit_level (cs : list Node) :
  ∀ st, ∃ ls, SysML2dot.lines (fold_left SysML2dot.visit cs st) = SysML2dot.lines st ++ ls ∧
              level_kept ls.
Proof.
  induction cs as [|child cs IH]; intros st; simpl.
  { exists []. split; [by rewrite app_nil_r|apply level_kept_nil]. }
  destruct (IH (SysML2dot.visit st child)) as (ls & -> & Hls).
  unfold SysML2dot.visit.
  pose proof (generate_dot_level child 4 (SysML2dot.counter st)) as Hc.
  destruct (SysML2dot.generate_dot child 4 (SysML2dot.counter st)) as [[rep child_lines] c].
  simpl in *. exists (child_lines ++ ls). split; [by rewrite app_assoc|].
  by apply level_kept_app.
Qed.

Lemma nesting_steps (d d1 : nat) (l1 l2 : list string) :
  nesting d l1 = Some d1 → nesting d (l1 ++ l2) = nesting d1 l2.
Proof. intros H. by rewrite nesting_app, H. Qed.

(** X15.  Whatever the tree, the lines of the PlantUML diagram and the
    lines of the DOT graph are well nested: reading them in order, every
    line that ends in an opening brace is matched by a later line that ends
    in a closing brace, and no closing brace comes without its opening
    one. *)
Theorem generated_blocks_are_well_nested (tree : Tree) :
  well_nested (SysML2UML.header ++ SysML2UML.body tree ++ SysML2UML.footer) ∧
  well_nested (SysML2dot.dot_lines tree).
Proof.
  split; unfold well_nested.
  - assert (Hb : level_kept (SysML2UML.body tree)).
    { apply level_kept_flat_map, Forall_forall. intros part _.
      apply generate_plantuml_level. }
    rewrite (nesting_steps 0 0 SysML2UML.header) by reflexivity.
    by rewrite (nesting_steps 0 0 (SysML2UML.body tree)) by apply Hb.
  - unfold SysML2dot.dot_lines, SysML2dot.traverse.
    set (st := fold_left SysML2dot.visit (top_level tree)
                 (SysML2dot.mkTop SysML2dot.preamble 0 None None)).
    destruct (fold_visit_level (top_level tree) (SysML2dot.mkTop SysML2dot.preamble 0 None None))
      as (ls & Hls & Hkept).
    fold st in Hls. rewrite Hls. cbn [SysML2dot.lines].
    assert (He : level_kept (SysML2dot.ordering_edge st)).
    { unfold SysML2dot.ordering_edge.
      destruct (truthy _) as [a|]; [|apply level_kept_nil].
      destruct (truthy _) as [b|]; [|apply level_kept_nil].
      apply level_kept_plain; unfold SysML2dot.invisible_edge; last_char. }
    rewrite <- app_assoc.
    rewrite (nesting_steps 0 1 SysML2dot.preamble) by reflexivity.
    rewrite (nesting_steps 1 1 ls) by apply Hkept.
    by rewrite (nesting_steps 1 1 (SysML2dot.ordering_edge st)) by apply He.
Qed.

(** ** Which nodes open a scope, parser by parser *)

Lemma uml_declared_slot (line : string) (d : Dict) (scope : bool) :
  uml_action_of line = Some (UCreate d scope) →
  d_parts d = Some [] →
  ∃ t, d_type d = Some t ∧
       str_in t ["Package"; "LogicalComponent"; "LogicalFunction"; "LogicalActor"] = true.
Proof.
  unfold uml_action_of, part_slot.
  destruct (re_match package_pattern line) as [m|].
  { destruct (group m 1); simpl; [|done]. intros [= <- _] _. simpl. eauto. }
  destruct (re_match part_pattern line) as [m|].
  { destruct (group m 1); simpl; [|done]. destruct (group m 3) as [t|]; simpl; [|done].
    intros [= <- _]. simpl. case_bool_decide as E; [|done]. intros _.
    exists t. split; [done|].
    apply elem_of_cons in E as [->|E]; [reflexivity|].
    apply elem_of_cons in E as [->|E]; [reflexivity|].
    apply elem_of_cons in E as [->|E]; [reflexivity|].
    by apply elem_of_nil in E. }
  destruct (re_match actor_pattern line) as [m|].
  { destruct (group m 1); simpl; [|done]. intros [= <- _]. done. }
  destruct (re_match description_pattern line) as [m|].
  { destruct (group m 1); simpl; done. }
  by destruct (SysML2UML.is_close (strip line)).
Qed.

Lemma uml_action_pushes (line : string) (d : Dict) (scope : bool) :
  uml_action_of line = Some (UCreate d scope) → scope = uml_pushes line.
Proof.
  unfold uml_action_of, uml_pushes.
  destruct (re_match package_pattern line) as [m|].
  { destruct (group m 1); simpl; [|done]. by intros [= _ <-]. }
  destruct (re_match part_pattern line) as [m|].
  { destruct (group m 1); simpl; [|done]. destruct (group m 3); simpl; [|done].
    by intros [= _ <-]. }
  destruct (re_match actor_pattern line) as [m|].
  { destruct (group m 1); simpl; [|done]. by intros [= _ <-]. }
  destruct (re_match description_pattern line) as [m|].
  { destruct (group m 1); simpl; done. }
  by destruct (SysML2UML.is_close (strip line)).
Qed.

Lemma uml_declares_action (line : string) :
  declares line = true → ∃ d, uml_action_of line = Some (UCreate d (uml_pushes line)).
Proof.
  intros H. destruct (uml_action_of_total line) as [act Hact].
  rewrite (uml_action_declares line act Hact) in H.
  destruct act as [d scope| | |]; try done.
  exists d. by rewrite <- (uml_action_pushes line d scope Hact).
Qed.

(** A declaring line in SysML2UML.py: the deeper scopes are closed, the new
    dictionary is linked under the entry then on top, and pushed with
    [indent + 1] when [scope] holds. *)
Lemma pop_deeper_Forall (P : nat * nat → Prop) (w : nat) (stk : list (nat * nat)) :
  Forall P stk → Forall P (SysML2UML.pop_deeper w stk).
Proof.
  induction 1 as [|[i a] stk HP Hstk IH]; simpl; [done|].
  destruct (w <? i); [done|by constructor].
Qed.

Lemma uml_step_create (st : PState) (line : string) (d : Dict) (scope : bool) :
  uml_wf st → is_blank line = false → uml_action_of line = Some (UCreate d scope) →
  ∃ i top rest,
    SysML2UML.pop_deeper (indent_of line) (stack st) = (i, top) :: rest ∧
    top < length (heap st) ∧
    SysML2UML.step st line =
      Some (mkPState (alter (append_part (length (heap st))) top (heap st ++ [d]))
                     ((if scope then [(indent_of line + 1, length (heap st))] else [])
                      ++ (i, top) :: rest)
                     (prev_indent st) (stdout st)).
Proof.
  intros Hwf Hblank Hact. rewrite uml_step_action, Hblank, Hact. simpl.
  destruct (uml_wf_stack st Hwf) as (open & Hs).
  destruct (pop_deeper_split (indent_of line) open) as (closed & kept & -> & _ & Hp).
  rewrite Hs, Hp.
  destruct (scopes_head kept) as (i & top & rest & Hhd).
  pose proof (uml_wf_addr st Hwf) as Haddr. rewrite Hs, <- app_assoc in Haddr.
  apply Forall_app in Haddr as [_ Haddr]. rewrite Hhd in *.
  apply Forall_cons in Haddr as [Htop _].
  exists i, top, rest. split_and!; [done|done|]. by destruct scope.
Qed.

(** C4, as amended: a children slot is given at creation only to nodes of
    the kinds Package, LogicalComponent, LogicalFunction and LogicalActor,
    in every parser.  In SysML2Mermaid.py and SysML2dot.py every node a
    line declares, a part of any other type and an actor included, is
    pushed onto the scope stack with its indent, and a declaration that
    follows at a greater indent becomes its child, the slot being made
    then if the node had none.  In SysML2UML.py the node is pushed, with
    its indent plus one, exactly when its line is a package or a part line
    that ends with an opening brace, whatever its type, and an actor is
    never pushed: a pushed node gets the declaration that follows at a
    greater indent as its child, a node that is not pushed stays as it is
    and the declaration goes under an earlier node. *)
Theorem C4_every_declared_node_opens_a_scope (pre : list string) (l1 l2 : string) :
  is_blank l1 = false → is_blank l2 = false →
  declares l1 = true → declares l2 = true →
  indent_of l1 < indent_of l2 →
  (∃ d1 d2 st st1 st2,
    action_of l1 = Some (Create d1) ∧ action_of l2 = Some (Create d2) ∧
    (d_parts d1 = None ∨ d_parts d1 = Some []) ∧
    (d_parts d1 = Some [] →
       ∃ t, d_type d1 = Some t ∧
            str_in t ["Package"; "LogicalComponent"; "LogicalFunction"; "LogicalActor"] = true) ∧
    SysML2Mermaid.run init pre = Some st ∧
    SysML2Mermaid.step st l1 = Some st1 ∧
    SysML2Mermaid.step st1 l2 = Some st2 ∧
    SysML2dot.run init pre = Some st ∧
    SysML2dot.step st l1 = Some st1 ∧
    SysML2dot.step st1 l2 = Some st2 ∧
    heap st1 !! length (heap st) = Some d1 ∧
    head (stack st1) = Some (indent_of l1, length (heap st)) ∧
    heap st2 !! length (heap st) = Some (append_part (S (length (heap st))) d1) ∧
    d_parts (append_part (S (length (heap st))) d1) = Some [S (length (heap st))] ∧
    heap st2 !! S (length (heap st)) = Some d2 ∧
    stack st2 = (indent_of l2, S (length (heap st))) :: stack st1) ∧
  (∃ d1 d2 st st1 st2,
    uml_action_of l1 = Some (UCreate d1 (uml_pushes l1)) ∧
    uml_action_of l2 = Some (UCreate d2 (uml_pushes l2)) ∧
    (d_parts d1 = None ∨ d_parts d1 = Some []) ∧
    (d_parts d1 = Some [] →
       ∃ t, d_type d1 = Some t ∧
            str_in t ["Package"; "LogicalComponent"; "LogicalFunction"; "LogicalActor"] = true) ∧
    SysML2UML.run init pre = Some st ∧
    SysML2UML.step st l1 = Some st1 ∧
    SysML2UML.step st1 l2 = Some st2 ∧
    heap st1 !! length (heap st) = Some d1 ∧
    heap st2 !! S (length (heap st)) = Some d2 ∧
    if uml_pushes l1
    then stack st1 = (indent_of l1 + 1, length (heap st))
                       :: SysML2UML.pop_deeper (indent_of l1) (stack st) ∧
         heap st2 !! length (heap st) = Some (append_part (S (length (heap st))) d1) ∧
         d_parts (append_part (S (length (heap st))) d1) = Some [S (length (heap st))]
    else stack st1 = SysML2UML.pop_deeper (indent_of l1) (stack st) ∧
         heap st2 !! length (heap st) = Some d1 ∧
         ∃ parent pd, parent < length (heap st) ∧
                      heap st1 !! parent = Some pd ∧
                      heap st2 !! parent = Some (append_part (S (length (heap st))) pd)).
Proof.
  intros Hb1 Hb2 Hd1 Hd2 Hlt. split.
  - destruct (declares_action l1 Hd1) as [d1 Ha1].
    destruct (declares_action l2 Hd2) as [d2 Ha2].
    destruct (run_wf pre init init_wf) as (st & Hrun & Hwf).
    destruct (step_wf st l1 Hwf) as (st1 & Hstep1 & Hwf1).
    destruct (step_wf st1 l2 Hwf1) as (st2 & Hstep2 & _).
    exists d1, d2, st, st1, st2.
    pose proof (action_of_fresh l1 d1 Ha1) as (_ & _ & _ & Hslot).
    assert (Hdot : SysML2dot.run init pre = Some st).
    { etrans; [apply dot_run_eq|done]. }
    destruct (step_perform st l1 _ Hwf Hb1 Ha1)
      as (closed & kept & i & top & rest & _ & Hhd & Htop & Hp1).
    rewrite Hstep1 in Hp1. simpl in Hp1. injection Hp1 as ->.
    destruct (step_perform _ l2 _ Hwf1 Hb2 Ha2)
      as (closed2 & kept2 & i2 & top2 & rest2 & Hcl & Hhd2 & _ & Hp2).
    simpl in Hcl, Hp2.
    pose proof (closes_nothing _ _ _ _ _ _ Hlt Hcl) as ->.
    destruct Hcl as (Hs2 & _ & _). simpl in Hs2. rewrite Hhd2 in Hs2.
    injection Hs2 as <- <- <-.
    rewrite Hstep2 in Hp2. simpl in Hp2. injection Hp2 as ->. simpl.
    rewrite !length_alter, !length_app in Hstep2 |- *. simpl in Hstep2 |- *.
    replace (length (heap st) + 1) with (S (length (heap st))) in Hstep2 |- * by lia.
    assert (Hnew : alter (append_part (length (heap st))) top (heap st ++ [d1])
                     !! length (heap st) = Some d1).
    { rewrite list_lookup_alter_ne by lia. by rewrite list_lookup_middle. }
    split_and!; try done.
    + by eapply declared_slot.
    + rewrite list_lookup_alter_eq, lookup_app_l
        by (rewrite length_alter, length_app; simpl; lia).
      by rewrite Hnew.
    + destruct Hslot as [-> | ->]; reflexivity.
    + rewrite list_lookup_alter_ne by lia.
      rewrite lookup_app_r by (rewrite length_alter, length_app; simpl; lia).
      rewrite length_alter, length_app. simpl.
      by replace (S (length (heap st)) - (length (heap st) + 1)) with 0 by lia.
  - destruct (uml_declares_action l1 Hd1) as [d1 Ha1].
    destruct (uml_declares_action l2 Hd2) as [d2 Ha2].
    destruct (uml_run_wf pre init init_uml_wf) as (st & Hrun & Hwf).
    destruct (uml_step_wf st l1 Hwf) as (st1 & Hstep1 & Hwf1).
    destruct (uml_step_wf st1 l2 Hwf1) as (st2 & Hstep2 & _).
    exists d1, d2, st, st1, st2.
    pose proof (uml_action_of_fresh l1 d1 _ Ha1) as (_ & _ & _ & Hslot).
    destruct (uml_step_create st l1 d1 _ Hwf Hb1 Ha1) as (i & top & rest & Hpop & Htop & Hp1).
    rewrite Hstep1 in Hp1. injection Hp1 as ->.
    destruct (uml_step_create _ l2 d2 _ Hwf1 Hb2 Ha2)
      as (i2 & top2 & rest2 & Hpop2 & Htop2 & Hp2).
    rewrite Hstep2 in Hp2. injection Hp2 as ->.
    cbn [heap stack prev_indent stdout] in *. rewrite Hpop.
    rewrite !length_alter, !length_app in *. cbn [length] in *.
    replace (length (heap st) + 1) with (S (length (heap st))) in * by lia.
    assert (Hnew : alter (append_part (length (heap st))) top (heap st ++ [d1])
                     !! length (heap st) = Some d1).
    { rewrite list_lookup_alter_ne by lia. by rewrite list_lookup_middle. }
    assert (Hlen1 : length (alter (append_part (length (heap st))) top (heap st ++ [d1]))
                    = S (length (heap st))).
    { rewrite length_alter, length_app. simpl. lia. }
    assert (Hd2' : ∀ a, a ≤ length (heap st) →
              alter (append_part (S (length (heap st)))) a
                (alter (append_part (length (heap st))) top (heap st ++ [d1]) ++ [d2])
                !! S (length (heap st)) = Some d2).
    { intros a Ha. rewrite list_lookup_alter_ne by lia.
      rewrite lookup_app_r by lia. by rewrite Hlen1, Nat.sub_diag. }
    assert (Hcases : if uml_pushes l1 then top2 = length (heap st)
                     else top2 < length (heap st)).
    { destruct (uml_pushes l1).
      - simpl in Hpop2.
        assert (Hge : (indent_of l2 <? indent_of l1 + 1) = false) by (apply Nat.ltb_ge; lia).
        rewrite Hge in Hpop2. by injection Hpop2 as _ <- _.
      - simpl app in Hpop2.
        pose proof (uml_wf_addr st Hwf) as Haddr.
        apply (pop_deeper_Forall _ (indent_of l1)) in Haddr. rewrite Hpop in Haddr.
        apply (pop_deeper_Forall _ (indent_of l2)) in Haddr. rewrite Hpop2 in Haddr.
        by apply Forall_cons in Haddr as [? _]. }
    split_and!; try done.
    + by eapply uml_declared_slot.
    + apply Hd2'. destruct (uml_pushes l1); lia.
    + destruct (uml_pushes l1).
      * subst top2. split_and!; [done| |simpl; by destruct Hslot as [-> | ->]].
        rewrite list_lookup_alter_eq, lookup_app_l by lia. by rewrite Hnew.
      * split_and!; [done| |].
        -- rewrite list_lookup_alter_ne by lia. rewrite lookup_app_l by lia. done.
        -- destruct (lookup_lt_is_Some_2
                       (alter (append_part (length (heap st))) top (heap st ++ [d1])) top2)
             as [pd Hpd]; [lia|].
           exists top2, pd. split_and!; [done|done|].
           rewrite list_lookup_alter_eq, lookup_app_l by lia. by rewrite Hpd.
Qed.

(** C4 at a part of another type, with a brace, followed by a deeper
    actor: the actor becomes a child of the part in the three parsers. *)
Lemma C4_every_declared_node_witness :
  is_blank "part X : Sensor {" = false ∧ is_blank "  actor Y" = false ∧
  declares "part X : Sensor {" = true ∧ declares "  actor Y" = true ∧
  indent_of "part X : Sensor {" < indent_of "  actor Y" ∧
  uml_pushes "part X : Sensor {" = true ∧
  SysML2Mermaid.parse_indented_model (str_join nls ["package A"; "part X : Sensor {"; "  actor Y"])
  = Some (mkTree None (Some [mkNode "Package" "A" None None (Some []);
                             mkNode "Sensor" "X" None None
                               (Some [mkNode "LogicalActor" "Y" None None None])])) ∧
  SysML2UML.parse_indented_model (str_join nls ["package A"; "part X : Sensor {"; "  actor Y"])
  = Some (mkTree None (Some [mkNode "Package" "A" None None (Some []);
                             mkNode "Sensor" "X" None None
                               (Some [mkNode "LogicalActor" "Y" None None None])])) ∧
  (∃ d1 d2 st st1 st2,
    action_of "part X : Sensor {" = Some (Create d1) ∧
    action_of "  actor Y" = Some (Create d2) ∧
    (d_parts d1 = None ∨ d_parts d1 = Some []) ∧
    (d_parts d1 = Some [] →
       ∃ t, d_type d1 = Some t ∧
            str_in t ["Package"; "LogicalComponent"; "LogicalFunction"; "LogicalActor"] = true) ∧
    SysML2Mermaid.run init ["package A"] = Some st ∧
    SysML2Mermaid.step st "part X : Sensor {" = Some st1 ∧
    SysML2Mermaid.step st1 "  actor Y" = Some st2 ∧
    SysML2dot.run init ["package A"] = Some st ∧
    SysML2dot.step st "part X : Sensor {" = Some st1 ∧
    SysML2dot.step st1 "  actor Y" = Some st2 ∧
    heap st1 !! length (heap st) = Some d1 ∧
    head (stack st1) = Some (0, length (heap st)) ∧
    heap st2 !! length (heap st) = Some (append_part (S (length (heap st))) d1) ∧
    d_parts (append_part (S (length (heap st))) d1) = Some [S (length (heap st))] ∧
    heap st2 !! S (length (heap st)) = Some d2 ∧
    stack st2 = (2, S (length (heap st))) :: stack st1) ∧
  (∃ d1 d2 st st1 st2,
    uml_action_of "part X : Sensor {" = Some (UCreate d1 true) ∧
    uml_action_of "  actor Y" = Some (UCreate d2 false) ∧
    (d_parts d1 = None ∨ d_parts d1 = Some []) ∧
    (d_parts d1 = Some [] →
       ∃ t, d_type d1 = Some t ∧
            str_in t ["Package"; "LogicalComponent"; "LogicalFunction"; "LogicalActor"] = true) ∧
    SysML2UML.run init ["package A"] = Some st ∧
    SysML2UML.step st "part X : Sensor {" = Some st1 ∧
    SysML2UML.step st1 "  actor Y" = Some st2 ∧
    heap st1 !! length (heap st) = Some d1 ∧
    heap st2 !! S (length (heap st)) = Some d2 ∧
    stack st1 = (1, length (heap st)) :: SysML2UML.pop_deeper 0 (stack st) ∧
    heap st2 !! length (heap st) = Some (append_part (S (length (heap st))) d1) ∧
    d_parts (append_part (S (length (heap st))) d1) = Some [S (length (heap st))]).
Proof.
  split_and!; [reflexivity..|vm_compute; lia|reflexivity|reflexivity|reflexivity| |].
  - apply (C4_every_declared_node_opens_a_scope ["package A"] "part X : Sensor {" "  actor Y");
      [reflexivity..|vm_compute; lia].
  - apply (C4_every_declared_node_opens_a_scope ["package A"] "part X : Sensor {" "  actor Y");
      [reflexivity..|vm_compute; lia].
Defined.

(** In SysML2UML.py a part without a trailing brace and an actor, even with
    one, open no scope: the deeper line that follows goes under the
    root. *)
Lemma uml_nodes_without_a_scope_stay_leaves :
  uml_pushes "part X : Sensor" = false ∧
  SysML2UML.parse_indented_model (str_join nls ["part X : Sensor"; "  actor Y"])
  = Some (mkTree None (Some [mkNode "Sensor" "X" None None None;
                             mkNode "LogicalActor" "Y" None None None])) ∧
  uml_pushes "actor X {" = false ∧
  SysML2UML.parse_indented_model (str_join nls ["actor X {"; "  part Y : Motor"; "}"])
  = Some (mkTree None (Some [mkNode "LogicalActor" "X " None None None;
                             mkNode "Motor" "Y" None None None])).
Proof. split_and!; reflexivity. Qed.

(** ** Repeated renders *)

Lemma set_counter_lookup (cell c c0 : nat) (p : Process.Cells) :
  Process.counters p !! cell = Some c0 →
  Process.counters (Process.set_counter cell c p) !! cell = Some c.
Proof.
  intros H. simpl. apply list_lookup_insert_eq. by apply lookup_lt_Some in H.
Qed.

Lemma set_counter_twice (cell c c' : nat) (p : Process.Cells) :
  Process.set_counter cell c' (Process.set_counter cell c p) = Process.set_counter cell c' p.
Proof. unfold Process.set_counter. simpl. by rewrite list_insert_insert_eq. Qed.

Lemma set_counter_id (cell c : nat) (p : Process.Cells) :
  Process.counters p !! cell = Some c → Process.set_counter cell c p = p.
Proof.
  intros H. destruct p as [cs bs]. unfold Process.set_counter. simpl in *.
  by rewrite list_insert_id.
Qed.

Lemma next_id_cell (cell c : nat) (p : Process.Cells) :
  Process.counters p !! cell = Some c →
  Process.next_id cell p
  = Some ("id" +:+ pretty (c + 1), Process.set_counter cell (c + 1) p).
Proof. intros H. unfold Process.next_id. by rewrite H. Qed.

(** [Process.generate_dot] with its loop over the children named. *)
Lemma process_generate_dot_eq (cell : nat) (typ name : string)
    (alias description : option string) (parts : option (list Node))
    (indent : nat) (p : Process.Cells) :
  Process.generate_dot cell (mkNode typ name alias description parts) indent p =
      let spacing := times " " indent in
      '(id1, p1) ← Process.next_id cell p;
      let cluster_id := "cluster_" +:+ id1 in
      '(rep_node, p2) ← Process.next_id cell p1;
      let nest := Process.nest_from cell indent in
      let leaf_component :=
        let label := SysML2dot.html_label_bottom_only name 150 10 40 in
        [spacing +:+ "    " +:+ rep_node
           +:+ " [shape=none, style=filled, fillcolor=lightblue, label=" +:+ label +:+ "];"] in
      '(inner, p3) ←
        (if str_eqb typ "LogicalFunction" then
           let label :=
             SysML2dot.html_label_two_compartment name (default "" description) 120 15 30 in
           Some ([spacing +:+ "    " +:+ rep_node
                    +:+ " [shape=none, style=filled, fillcolor=lightgreen, label="
                    +:+ label +:+ "];"],
                 p2)
         else if str_eqb typ "LogicalComponent" then
           match parts with
           | Some children =>
               match children with
               | _ :: _ =>
                   '(nested, p) ← nest children p2;
                   Some ([spacing +:+ "    label = " +:+ quoted name +:+ ";";
                          spacing +:+ "    style=filled;";
                          spacing +:+ "    fillcolor=lightblue;";
                          spacing +:+ "    margin=10;";
                          spacing +:+ "    " +:+ rep_node +:+ " [shape=none, label="
                            +:+ quoted "" +:+ "];"]
                         ++ nested, p)
               | [] => Some (leaf_component, p2)
               end
           | None => Some (leaf_component, p2)
           end
         else if str_eqb typ "LogicalActor" then
           let label := SysML2dot.html_label_bottom_only name 120 10 40 in
           Some ([spacing +:+ "    " +:+ rep_node
                    +:+ " [shape=none, style=filled, fillcolor=lightblue, fixedsize=true, label="
                    +:+ label +:+ "];"],
                 p2)
         else if str_eqb typ "Package" then
           let head :=
             [spacing +:+ "    label = " +:+ quoted name +:+ ";";
              spacing +:+ "    " +:+ rep_node +:+ " [shape=none, label="
                +:+ quoted "" +:+ "];"] in
           match parts with
           | Some children =>
               '(nested, p) ← nest children p2; Some (head ++ nested, p)
           | None => Some (head, p2)
           end
         else
           Some ([spacing +:+ "    " +:+ rep_node +:+ " [label=" +:+ quoted name +:+ "];"],
                 p2));
      Some (rep_node,
            [spacing +:+ "subgraph " +:+ cluster_id +:+ " {"] ++ inner ++ [spacing +:+ "}"],
            p3).
Proof. reflexivity. Qed.

Lemma process_nest_from_cons (cell indent : nat) (child : Node) (rest : list Node)
    (p : Process.Cells) :
  Process.nest_from cell indent (child :: rest) p =
  '(_, child_lines, p') ← Process.generate_dot cell child (indent + 4) p;
  '(more, p'') ← Process.nest_from cell indent rest p';
  Some (child_lines ++ more, p'').
Proof. reflexivity. Qed.

Lemma process_nest_from (cell indent : nat) (cs : list Node) :
  Forall (follows_counter cell) cs →
  ∀ p c, Process.counters p !! cell = Some c →
    Process.nest_from cell indent cs p =
    let '(ls, c') := nest_from indent cs c in
    Some (ls, Process.set_counter cell c' p).
Proof.
  induction 1 as [|child rest Hc _ IH]; intros p c Hp.
  { simpl. by rewrite set_counter_id. }
  rewrite process_nest_from_cons, nest_from_cons, (Hc (indent + 4) p c Hp).
  destruct (SysML2dot.generate_dot child (indent + 4) c) as [[rep ls] c1]. simpl.
  rewrite (IH (Process.set_counter cell c1 p) c1) by (by eapply set_counter_lookup).
  destruct (nest_from indent rest c1) as [more c2]. simpl.
  by rewrite set_counter_twice.
Qed.

Lemma process_generate_dot (cell : nat) (n : Node) : follows_counter cell n.
Proof.
  assert (Hcases : ∀ t x a d ps,
            (∀ cs, ps = Some cs → Forall (follows_counter cell) cs) →
            follows_counter cell (mkNode t x a d ps)).
  { intros t x a d ps Hps indent p c Hp.
    rewrite process_generate_dot_eq, generate_dot_eq.
    rewrite (next_id_cell cell c p Hp). cbn [mbind option_bind].
    rewrite (next_id_cell cell (c + 1) (Process.set_counter cell (c + 1) p))
      by (by eapply set_counter_lookup).
    cbn [mbind option_bind]. rewrite set_counter_twice.
    unfold SysML2dot.next_id. cbv beta iota zeta.
    assert (Hnest : ∀ cs, ps = Some cs →
              Process.nest_from cell indent cs (Process.set_counter cell (c + 1 + 1) p) =
              let '(ls, c') := nest_from indent cs (c + 1 + 1) in
              Some (ls, Process.set_counter cell c' p)).
    { intros cs Hcs.
      rewrite (process_nest_from cell indent cs (Hps cs Hcs) _ (c + 1 + 1))
        by (by eapply set_counter_lookup).
      destruct (nest_from indent cs (c + 1 + 1)) as [ls c']. by rewrite set_counter_twice. }
    destruct (str_eqb t "LogicalFunction"); [done|].
    destruct (str_eqb t "LogicalComponent").
    { destruct ps as [[|child cs]|]; [done| |done].
      rewrite (Hnest (child :: cs) eq_refl).
      by destruct (nest_from indent (child :: cs) (c + 1 + 1)) as [ls c']. }
    destruct (str_eqb t "LogicalActor"); [done|].
    destruct (str_eqb t "Package"); [|done].
    destruct ps as [cs|]; [|done].
    rewrite (Hnest cs eq_refl).
    by destruct (nest_from indent cs (c + 1 + 1)) as [ls c']. }
  induction n as [t x a d|t x a d cs IH] using Node_induction;
    apply Hcases; [done|]. by intros cs' [= <-].
Qed.

Lemma process_visit_all (cell : nat) (cs : list Node) :
  ∀ loc p c, Process.counters p !! cell = Some c →
    Process.visit_all cell cs loc p =
    let st := fold_left SysML2dot.visit cs
                (SysML2dot.mkTop (Process.lines loc) c (Process.top_functions loc)
                   (Process.top_architecture loc)) in
    Some (Process.mkLocals (SysML2dot.lines st) (SysML2dot.top_functions st)
            (SysML2dot.top_architecture st),
          Process.set_counter cell (SysML2dot.counter st) p).
Proof.
  induction cs as [|child cs IH]; intros loc p c Hp.
  { simpl. rewrite set_counter_id by done. by destruct loc. }
  cbn [Process.visit_all fold_left].
  rewrite (process_generate_dot cell child 4 p c Hp).
  unfold SysML2dot.visit at 2 4 6 8. cbn [SysML2dot.counter SysML2dot.lines
    SysML2dot.top_functions SysML2dot.top_architecture].
  destruct (SysML2dot.generate_dot child 4 c) as [[rep ls] c1].
  cbn [mbind option_bind]. cbv beta iota.
  rewrite (IH _ (Process.set_counter cell c1 p) c1) by (by eapply set_counter_lookup).
  cbv zeta. cbn [Process.lines Process.top_functions Process.top_architecture].
  by rewrite set_counter_twice.
Qed.

(** A call of [build_dot_from_tree] in any process returns the text of the
    function of the tree alone, and leaves one more counter cell. *)
Lemma process_build_dot (tree : Tree) (p : Process.Cells) :
  Process.build_dot_from_tree tree p =
  Some (SysML2dot.build_dot_from_tree tree,
        Process.mkCells
          (Process.counters p ++ [SysML2dot.counter (SysML2dot.traverse tree)])
          (Process.buffers p)).
Proof.
  unfold Process.build_dot_from_tree.
  rewrite (process_visit_all _ _ _ _ 0) by (simpl; apply list_lookup_middle; done).
  cbn [mbind option_bind]. cbv beta iota zeta.
  unfold SysML2dot.build_dot_from_tree, SysML2dot.dot_lines, SysML2dot.ordering_edge,
    SysML2dot.traverse, Process.set_counter.
  cbn [Process.lines Process.top_functions Process.top_architecture
       Process.counters Process.buffers].
  do 3 f_equal.
  rewrite <- (Nat.add_0_r (length (Process.counters p))) at 1.
  by rewrite insert_app_r.
Qed.

Lemma extended_lookup (cell : nat) (held ls h0 : list string) (p : Process.Cells) :
  Process.buffers p !! cell = Some h0 →
  Process.buffers (Process.extended cell held ls p) !! cell = Some (held ++ ls).
Proof.
  intros H. simpl. apply list_lookup_insert_eq. by apply lookup_lt_Some in H.
Qed.

Lemma extended_twice (cell : nat) (held ls ls' : list string) (p : Process.Cells) :
  Process.extended cell (held ++ ls) ls' (Process.extended cell held ls p)
  = Process.extended cell held (ls ++ ls') p.
Proof.
  unfold Process.extended. simpl. by rewrite list_insert_insert_eq, app_assoc.
Qed.

Lemma extended_nil (cell : nat) (held : list string) (p : Process.Cells) :
  Process.buffers p !! cell = Some held → Process.extended cell held [] p = p.
Proof.
  intros H. destruct p as [cs bs]. unfold Process.extended. simpl in *.
  by rewrite app_nil_r, list_insert_id.
Qed.

Lemma append_cell (cell : nat) (l : string) (held : list string) (p : Process.Cells) :
  Process.buffers p !! cell = Some held →
  Process.append cell l p = Some (Process.extended cell held [l] p).
Proof. intros H. unfold Process.append. by rewrite H. Qed.

(** [Process.process_node] with its loop over the children named. *)
Lemma process_process_node_eq (cell : nat) (typ name : string)
    (alias description : option string) (parts : option (list Node))
    (level : nat) (p : Process.Cells) :
  Process.process_node cell (mkNode typ name alias description parts) level p =
      let spacing := times "    " level in
      let node_id := replace_space name in
      let children := Process.children_from cell level in
      p1 ←
        (if str_eqb typ "Package" then
           p ← Process.append cell
                 (spacing +:+ "subgraph " +:+ node_id +:+ "[" +:+ name +:+ "]") p;
           p ← match parts with
               | Some cs => children cs p
               | None => Some p
               end;
           Process.append cell (spacing +:+ "end") p
         else if str_eqb typ "LogicalFunction" then
           let label :=
             SysML2Mermaid.html_label_two_compartment name (default "" description) 120 15 30 in
           Process.append cell (spacing +:+ node_id +:+ "[" +:+ label +:+ "]") p
         else if str_in typ ["LogicalComponent"; "LogicalActor"] then
           let label := SysML2Mermaid.html_label_bottom_only name 150 10 40 in
           Process.append cell (spacing +:+ node_id +:+ "[" +:+ label +:+ "]") p
         else
           Process.append cell (spacing +:+ node_id +:+ "[" +:+ name +:+ "]") p);
      match parts with
      | Some cs => children cs p1
      | None => Some p1
      end.
Proof. reflexivity. Qed.

Lemma process_children_from (cell level : nat) (cs : list Node) :
  Forall (follows_lines cell) cs →
  ∀ p held, Process.buffers p !! cell = Some held →
    Process.children_from cell level cs p =
    Some (Process.extended cell held
            (flat_map (fun child => SysML2Mermaid.process_node child (level + 1)) cs) p).
Proof.
  induction 1 as [|child rest Hc _ IH]; intros p held Hp.
  { simpl. by rewrite extended_nil. }
  change (Process.children_from cell level (child :: rest) p)
    with (p' ← Process.process_node cell child (level + 1) p;
          Process.children_from cell level rest p').
  rewrite (Hc (level + 1) p held Hp). cbn [mbind option_bind].
  rewrite (IH _ (held ++ SysML2Mermaid.process_node child (level + 1)))
    by (by eapply extended_lookup).
  simpl. by rewrite extended_twice.
Qed.

Lemma process_process_node (cell : nat) (n : Node) : follows_lines cell n.
Proof.
  assert (Hcases : ∀ t x a d ps,
            (∀ cs, ps = Some cs → Forall (follows_lines cell) cs) →
            follows_lines cell (mkNode t x a d ps)).
  { intros t x a d ps Hps level p held Hp.
    rewrite process_process_node_eq, process_node_eq. cbv zeta.
    assert (Hkids : ∀ q h, Process.buffers q !! cell = Some h →
              match ps with
              | Some cs => Process.children_from cell level cs q
              | None => Some q
              end =
              Some (Process.extended cell h
                      match ps with
                      | Some cs =>
                          flat_map (fun child => SysML2Mermaid.process_node child (level + 1)) cs
                      | None => []
                      end q)).
    { intros q h Hq. destruct ps as [cs|].
      - by apply process_children_from; [apply Hps|].
      - by rewrite extended_nil. }
    assert (Hone : ∀ l,
              (p1 ← Process.append cell l p;
               match ps with
               | Some cs => Process.children_from cell level cs p1
               | None => Some p1
               end) =
              Some (Process.extended cell held
                      ([l] ++ match ps with
                              | Some cs =>
                                  flat_map
                                    (fun child => SysML2Mermaid.process_node child (level + 1)) cs
                              | None => []
                              end) p)).
    { intros l. rewrite (append_cell cell l held p Hp). cbn [mbind option_bind].
      rewrite (Hkids _ (held ++ [l])) by (by eapply extended_lookup).
      by rewrite extended_twice. }
    destruct (str_eqb t "Package").
    { rewrite (append_cell cell _ held p Hp). cbn [mbind option_bind].
      rewrite (Hkids _ (held ++ [_])) by (by eapply extended_lookup).
      cbn [mbind option_bind]. rewrite extended_twice.
      rewrite (append_cell cell _ (held ++ _)) by (by eapply extended_lookup).
      cbn [mbind option_bind]. rewrite extended_twice.
      rewrite (Hkids _ (held ++ _)) by (by eapply extended_lookup).
      rewrite extended_twice. by rewrite <- !app_assoc. }
    destruct (str_eqb t "LogicalFunction"); [apply Hone|].
    destruct (str_in t ["LogicalComponent"; "LogicalActor"]); apply Hone. }
  induction n as [t x a d|t x a d cs IH] using Node_induction;
    apply Hcases; [done|]. by intros cs' [= <-].
Qed.

Lemma process_all_children (cell : nat) (cs : list Node) :
  ∀ p, Process.process_all cell cs p = Process.children_from cell 0 cs p.
Proof.
  induction cs as [|child rest IH]; intros p; [done|].
  change (Process.process_all cell (child :: rest) p)
    with (p' ← Process.process_node cell child 1 p; Process.process_all cell rest p').
  change (Process.children_from cell 0 (child :: rest) p)
    with (p' ← Process.process_node cell child 1 p; Process.children_from cell 0 rest p').
  destruct (Process.process_node cell child 1 p); simpl; [apply IH|done].
Qed.

(** A call of [build_mermaid_flowchart_from_tree] in any process returns
    the text of the function of the tree alone, and leaves one more list
    cell. *)
Lemma process_build_mermaid (tree : Tree) (p : Process.Cells) :
  Process.build_mermaid_flowchart_from_tree tree p =
  Some (SysML2Mermaid.build_mermaid_flowchart_from_tree tree,
        Process.mkCells (Process.counters p)
          (Process.buffers p ++ [SysML2Mermaid.flowchart_lines tree])).
Proof.
  unfold Process.build_mermaid_flowchart_from_tree.
  set (cell := length (Process.buffers p)).
  set (p0 := Process.mkCells (Process.counters p) (Process.buffers p ++ [[]])).
  assert (H0 : Process.buffers p0 !! cell = Some []) by (by apply list_lookup_middle).
  rewrite (append_cell cell _ [] p0 H0). cbn [mbind option_bind].
  rewrite (process_all_children cell (top_level tree)).
  rewrite (process_children_from cell 0 (top_level tree)) with (held := [] ++ ["flowchart TD"]).
  2:{ apply Forall_forall. intros child _. apply process_process_node. }
  2:{ by eapply extended_lookup. }
  cbn [mbind option_bind]. rewrite extended_twice.
  rewrite (extended_lookup cell [] _ [] p0 H0). cbn [mbind option_bind].
  unfold SysML2Mermaid.build_mermaid_flowchart_from_tree, SysML2Mermaid.flowchart_lines,
    Process.extended, p0, cell. simpl.
  do 3 f_equal.
  rewrite <- (Nat.add_0_r (length (Process.buffers p))) at 1.
  by rewrite insert_app_r.
Qed.

(** C9: in a process in any state, whatever calls came before, a call of
    a renderer on a tree followed by a second call on the same tree, made
    in the state the first one left, returns the same text twice, and that
    text is a function of the tree alone.  The cluster-graph renderer
    takes a new counter cell, set to 0, in every call: the first call
    leaves its cell at the number [n] of identifiers it drew, and the
    second, starting again from 0 in a cell of its own, ends at [n] too.
    The flowchart renderer takes a new list in every call, and the
    containment-diagram renderer keeps no variable between its nested
    calls.  No call changes a cell of an earlier call. *)
Theorem C9_rendering_twice_gives_the_same_text (tree : Tree) (p : Process.Cells) :
  (∃ text n p1 p2,
     Process.build_dot_from_tree tree p = Some (text, p1) ∧
     Process.build_dot_from_tree tree p1 = Some (text, p2) ∧
     text = SysML2dot.build_dot_from_tree tree ∧
     Process.counters p1 = Process.counters p ++ [n] ∧
     Process.counters p2 = Process.counters p ++ [n; n] ∧
     Process.buffers p1 = Process.buffers p ∧ Process.buffers p2 = Process.buffers p) ∧
  (∃ text ls p1 p2,
     Process.build_mermaid_flowchart_from_tree tree p = Some (text, p1) ∧
     Process.build_mermaid_flowchart_from_tree tree p1 = Some (text, p2) ∧
     text = SysML2Mermaid.build_mermaid_flowchart_from_tree tree ∧
     Process.buffers p1 = Process.buffers p ++ [ls] ∧
     Process.buffers p2 = Process.buffers p ++ [ls; ls] ∧
     Process.counters p1 = Process.counters p ∧ Process.counters p2 = Process.counters p) ∧
  (∃ text,
     Process.build_plantuml_from_tree tree p = Some (text, p) ∧
     text = SysML2UML.build_plantuml_from_tree tree).
Proof.
  split_and!.
  - eexists _, _, _, _. split_and!.
    + apply process_build_dot.
    + apply process_build_dot.
    + done.
    + done.
    + simpl. by rewrite <- app_assoc.
    + done.
    + done.
  - eexists _, _, _, _. split_and!.
    + apply process_build_mermaid.
    + apply process_build_mermaid.
    + done.
    + done.
    + simpl. by rewrite <- app_assoc.
    + done.
    + done.
  - by eexists.
Qed.
